(** * Verification of the Google Cloud Pub/Sub input and of the processor
      configuration checks

    The development embeds, definition by definition,
    - the checks of libbeat/processors/checks: [ConfigChecked],
      [RequireFields], [AllowedFields] and
      [MutuallyExclusiveRequiredFields], and
    - the gcppubsub input: [makeTopicID], [makeEvent],
      [getOrCreateSubscription], the receive handler of [run], the
      acknowledgment callback of [NewInput], and the life cycle
      ([Run], [Stop], the worker goroutine) as a labelled transition
      system whose labels are the scheduler's and the environment's
      choices; further [configID], the ways [NewInput] ends, the
      options of [newPubsubClient] and the user agent decorator.

    Go strings are byte strings ([string]); a [[]byte] is a [list byte];
    fixed-width integers are [Z] with the wrap-around written out. *)

From Stdlib Require Import ZArith List Lia Bool.
From Stdlib Require Import Strings.String Strings.Ascii Strings.Byte.
From stdpp Require Import base option list gmap strings.

Local Open Scope string_scope.
Local Open Scope Z_scope.

(* ===================================================================== *)
(** ** crypto/sha256, as used by [makeTopicID] *)
(* ===================================================================== *)

Module Sha256.

(** [uint32] arithmetic. *)
Definition u32 (x : Z) : Z := x mod 2 ^ 32.
Definition add32 (x y : Z) : Z := u32 (x + y).
Definition not32 (x : Z) : Z := 2 ^ 32 - 1 - x.

(** [bits.RotateLeft32(x, -n)], a rotation to the right by [n]. *)
Definition rotr (n x : Z) : Z :=
  Z.lor (Z.shiftr x n) (u32 (Z.shiftl x (32 - n))).

(** The tables of the algorithm are fractional parts of roots of the
    first primes; they are computed here and checked against the
    values of the Go tables below. *)
Definition is_prime (n : nat) : bool :=
  forallb (fun d => negb (n mod d =? 0)%nat) (seq 2 (n - 2)).

Definition primes : list Z :=
  map Z.of_nat (filter (fun n => is_prime n = true) (seq 2 310)).

(** The largest [r] below [2 ^ k] with [r ^ 3 <= n], bit by bit. *)
Fixpoint cube_root (k : nat) (n r : Z) : Z :=
  match k with
  | O => r
  | S k' =>
      let r' := r + 2 ^ Z.of_nat k' in
      if r' ^ 3 <=? n then cube_root k' n r' else cube_root k' n r
  end.

(** The round constants [_K]: the first 32 bits of the fractional
    parts of the cube roots of the first 64 primes. *)
Definition K : list Z :=
  Eval vm_compute in
    map (fun p => u32 (cube_root 40 (p * 2 ^ 96) 0)) primes.

(** The eight chaining words [dig.h]. *)
Record state := St { h0 : Z; h1 : Z; h2 : Z; h3 : Z;
                     h4 : Z; h5 : Z; h6 : Z; h7 : Z }.

Definition frac_sqrt (p : Z) : Z := u32 (Z.sqrt (p * 2 ^ 64)).

(** [init0 .. init7]: the first 32 bits of the fractional parts of the
    square roots of the first 8 primes. *)
Definition init : state :=
  Eval vm_compute in
    St (frac_sqrt 2) (frac_sqrt 3) (frac_sqrt 5) (frac_sqrt 7)
       (frac_sqrt 11) (frac_sqrt 13) (frac_sqrt 17) (frac_sqrt 19).

Definition byteZ (b : byte) : Z := Z.of_N (Byte.to_N b).

Definition Zbyte (z : Z) : byte :=
  match Byte.of_N (Z.to_N (z mod 256)) with
  | Some b => b
  | None => x00
  end.

(** [uint32(p[j])<<24 | uint32(p[j+1])<<16 | uint32(p[j+2])<<8 | uint32(p[j+3])]
    for [j = 0, 4, ..., 60]. *)
Fixpoint be_words (n : nat) (p : list byte) : list Z :=
  match n, p with
  | S n', a :: b :: c :: d :: p' =>
      Z.lor (Z.lor (Z.lor (Z.shiftl (byteZ a) 24) (Z.shiftl (byteZ b) 16))
                   (Z.shiftl (byteZ c) 8)) (byteZ d)
      :: be_words n' p'
  | _, _ => []
  end.

(** The message schedule is kept newest first: after [i] words the list
    is [w[i-1]; w[i-2]; ...], so [w[i-k]] is at position [k-1]. *)
Definition wat (rw : list Z) (k : nat) : Z := nth (k - 1) rw 0.

Definition schedule_step (rw : list Z) : list Z :=
  let v1 := wat rw 2 in
  let t1 := Z.lxor (Z.lxor (rotr 17 v1) (rotr 19 v1)) (Z.shiftr v1 10) in
  let v2 := wat rw 15 in
  let t2 := Z.lxor (Z.lxor (rotr 7 v2) (rotr 18 v2)) (Z.shiftr v2 3) in
  add32 (add32 (add32 t1 (wat rw 7)) t2) (wat rw 16) :: rw.

Definition schedule (p : list byte) : list Z :=
  rev (Nat.iter 48 schedule_step (rev (be_words 16 p))).

Definition round (s : state) (kw : Z * Z) : state :=
  let '(St a b c d e f g h) := s in
  let '(k, w) := kw in
  let t1 := add32 (add32 (add32 (add32 h
              (Z.lxor (Z.lxor (rotr 6 e) (rotr 11 e)) (rotr 25 e)))
              (Z.lxor (Z.land e f) (Z.land (not32 e) g))) k) w in
  let t2 := add32 (Z.lxor (Z.lxor (rotr 2 a) (rotr 13 a)) (rotr 22 a))
                  (Z.lxor (Z.lxor (Z.land a b) (Z.land a c)) (Z.land b c)) in
  St (add32 t1 t2) a b c (add32 d t1) e f g.

(** One 64-byte chunk of [blockGeneric]. *)
Definition block (s : state) (p : list byte) : state :=
  let '(St a b c d e f g h) := fold_left round (combine K (schedule p)) s in
  St (add32 (h0 s) a) (add32 (h1 s) b) (add32 (h2 s) c) (add32 (h3 s) d)
     (add32 (h4 s) e) (add32 (h5 s) f) (add32 (h6 s) g) (add32 (h7 s) h).

(** [for len(p) >= chunk { ...; p = p[chunk:] }]: returns the state and
    the bytes left over (fewer than 64). *)
Fixpoint blocks (fuel : nat) (s : state) (p : list byte) : state * list byte :=
  match fuel with
  | O => (s, p)
  | S fuel' =>
      if (64 <=? length p)%nat
      then blocks fuel' (block s (firstn 64 p)) (skipn 64 p)
      else (s, p)
  end.

(** The [digest] object: chaining words, pending bytes [x[:nx]] and the
    number of bytes written so far ([len], a uint64). *)
Record digest := Digest { dh : state; dx : list byte; dlen : Z }.

Definition New : digest := Digest init [] 0.

Definition Write (d : digest) (p : list byte) : digest :=
  let data := (dx d ++ p)%list in
  let '(s, rest) := blocks (length data) (dh d) data in
  Digest s rest ((dlen d + Z.of_nat (length p)) mod 2 ^ 64).

Definition be_bytes (n : nat) (z : Z) : list byte :=
  map (fun i => Zbyte (Z.shiftr z (8 * Z.of_nat i))) (rev (seq 0 n)).

(** Padding of [checkSum]: 0x80, zeros up to 56 mod 64, then the
    length in bits, big endian on 8 bytes. *)
Definition padding (len : Z) : list byte :=
  let t := len mod 64 in
  let zeros := if t <? 56 then 56 - t - 1 else 64 + 56 - t - 1 in
  (x80 :: repeat x00 (Z.to_nat zeros)
       ++ be_bytes 8 ((len * 8) mod 2 ^ 64))%list.

Definition state_bytes (s : state) : list byte :=
  (be_bytes 4 (h0 s) ++ be_bytes 4 (h1 s) ++ be_bytes 4 (h2 s)
   ++ be_bytes 4 (h3 s) ++ be_bytes 4 (h4 s) ++ be_bytes 4 (h5 s)
   ++ be_bytes 4 (h6 s) ++ be_bytes 4 (h7 s))%list.

(** [h.Sum(nil)]: works on a copy of the digest. *)
Definition Sum (d : digest) : list byte :=
  state_bytes (dh (Write d (padding (dlen d)))).

End Sha256.

(** [encoding/hex]: [EncodeToString]. *)
Module Hex.

Definition hextable : string := "0123456789abcdef".

Definition digit (n : Z) : ascii :=
  match String.get (Z.to_nat n) hextable with
  | Some c => c
  | None => "0"%char
  end.

Fixpoint EncodeToString (src : list byte) : string :=
  match src with
  | [] => EmptyString
  | v :: src' =>
      String (digit (Z.shiftr (Sha256.byteZ v) 4))
        (String (digit (Z.land (Sha256.byteZ v) 0x0f)) (EncodeToString src'))
  end.

Definition is_hex (c : ascii) : bool :=
  existsb (Ascii.eqb c) (list_ascii_of_string hextable).

End Hex.

(** [[]byte(s)] and [string(b)]: the same bytes. *)
Definition bytes_of_string (s : string) : list byte := list_byte_of_string s.
Definition string_of_bytes (b : list byte) : string := string_of_list_byte b.

(** [s[:n]]: panics ([None]) when [n] exceeds the length. *)
Definition slice_to (s : string) (n : nat) : option string :=
  if (n <=? String.length s)%nat then Some (substring 0 n s) else None.

(** [makeTopicID] with the bounds check of [prefix[:10]] explicit. *)
Definition makeTopicID_checked (project topic : string) : option string :=
  let h := Sha256.New in
  let h := Sha256.Write h (bytes_of_string project) in
  let h := Sha256.Write h (bytes_of_string topic) in
  let prefix := Hex.EncodeToString (Sha256.Sum h) in
  slice_to prefix 10.

Definition makeTopicID (project topic : string) : string :=
  default "" (makeTopicID_checked project topic).

(* ===================================================================== *)
(** ** Data model of the input *)
(* ===================================================================== *)

(** [time.Time]: an instant (nanoseconds since the Unix epoch) and the
    location it is displayed in.  [UTC()] keeps the instant. *)
Record Time := MkTime { instant : Z; location : string }.

Definition UTC (t : Time) : Time := MkTime (instant t) "UTC".

Definition minDuration : Z := - 2 ^ 63.
Definition maxDuration : Z := 2 ^ 63 - 1.

(** [t.Sub(u)]: a [Duration] (int64 nanoseconds) that saturates. *)
Definition Sub (t u : Time) : Z :=
  let d := instant t - instant u in
  if d <? minDuration then minDuration
  else if maxDuration <? d then maxDuration
  else d.

(** [time.Since(t)] is [time.Now().Sub(t)]; the clock reading is an input. *)
Definition Since (now t : Time) : Z := Sub now t.

(** [pubsub.Message], the fields the input reads. *)
Record Message := MkMessage {
  msgID : string;
  msgData : list byte;
  msgAttributes : gmap string string;
  msgPublishTime : Time
}.

(** Values stored in a [mapstr.M] by this input. *)
#[warnings="-register-all"]
Inductive value :=
| VString (s : string)
| VTime (t : Time)
| VLabels (m : gmap string string)
| VMap (m : gmap string value).

(** [Event.Private] is an [interface{}]: the input stores the message
    pointer; anything else fails the type assertion in the acker. *)
Inductive private :=
| PrivMessage (m : Message)
| PrivOther.

(** Modelled from the spec: [beat.Event] and its method [SetID] are
    declared in libbeat/beat, which is not among the sources; the spec's
    Event carries "a stable identifier", kept here in [evID], next to the
    timestamp, the field mapping and the opaque back-reference. *)
Record Event := MkEvent {
  evTimestamp : Time;
  evID : string;
  evFields : gmap string value;
  evPrivate : private
}.

Definition SetID (id : string) (e : Event) : Event :=
  MkEvent (evTimestamp e) id (evFields e) (evPrivate e).

(** [makeEvent]; [now] is the value [time.Now()] returns. *)
Definition makeEvent (now : Time) (topicID : string) (msg : Message) : Event :=
  let id := topicID ++ "-" ++ msgID msg in
  let event :=
    MkEvent (UTC (msgPublishTime msg)) ""
      (<["event" := VMap (<["id" := VString id]>
                          (<["created" := VTime (UTC now)]> ∅))]>
       (<["message" := VString (string_of_bytes (msgData msg))]> ∅))
      (PrivMessage msg) in
  let event := SetID id event in
  if (0 <? Z.of_nat (size (msgAttributes msg)))
  then MkEvent (evTimestamp event) (evID event)
               (<["labels" := VLabels (msgAttributes msg)]> (evFields event))
               (evPrivate event)
  else event.

(* ===================================================================== *)
(** ** Errors *)
(* ===================================================================== *)

(** Go [error] values: [errors.New] / [fmt.Errorf] without [%w], the
    sentinel [context.Canceled], and [fmt.Errorf("<prefix>%w", err)]. *)
Inductive error :=
| ErrNew (msg : string)
| ErrCanceled
| ErrWrap (prefix : string) (err : error).

(** [err.Error()]. *)
Fixpoint Error (e : error) : string :=
  match e with
  | ErrNew msg => msg
  | ErrCanceled => "context canceled"
  | ErrWrap prefix err => prefix ++ Error err
  end.

(** [errors.Is(err, context.Canceled)]: follows the [%w] chain. *)
Fixpoint Is_Canceled (e : error) : bool :=
  match e with
  | ErrNew _ => false
  | ErrCanceled => true
  | ErrWrap _ err => Is_Canceled err
  end.

(* ===================================================================== *)
(** ** libbeat/processors/checks *)
(* ===================================================================== *)

Module Checks.

(** [config.C] is consulted through [GetFields] only: the names of the
    top-level keys, in the order the call returns them.  They are the
    keys of a dictionary, so no name comes twice. *)
Record C := MkC { GetFields : list string; keys_distinct : NoDup GetFields }.

(** [%v] applied to a [[]string]. *)
Definition fmt_v (l : list string) : string :=
  "[" ++ String.concat " " l ++ "]".

Definition exclusive_error (foundField field : string) : error :=
  ErrNew ("field " ++ foundField ++ " and " ++ field ++ " are mutually exclusive").

Definition missing_error (fields : list string) : error :=
  ErrNew ("missing option, select one from " ++ fmt_v fields).

(** The inner loop [for _, f := range fields], for one [field] of the
    configuration: the error returned from inside the loop, or the
    value of [foundField] after it. *)
Fixpoint scan_fields (field : string) (fields : list string)
    (foundField : string) : error + string :=
  match fields with
  | [] => inr foundField
  | f :: fields' =>
      if String.eqb field f then
        if (String.length foundField =? 0)%nat
        then scan_fields field fields' field
        else inl (exclusive_error foundField field)
      else scan_fields field fields' foundField
  end.

(** The outer loop [for _, field := range cfg.GetFields()]. *)
Fixpoint scan_config (cfgFields fields : list string)
    (foundField : string) : error + string :=
  match cfgFields with
  | [] => inr foundField
  | field :: rest =>
      match scan_fields field fields foundField with
      | inl err => inl err
      | inr foundField' => scan_config rest fields foundField'
      end
  end.

(** [MutuallyExclusiveRequiredFields(fields...)(cfg)]; [None] is [nil]. *)
Definition MutuallyExclusiveRequiredFields (fields : list string) (cfg : C)
    : option error :=
  match scan_config (GetFields cfg) fields "" with
  | inl err => Some err
  | inr foundField =>
      if (String.length foundField =? 0)%nat
      then Some (missing_error fields)
      else None
  end.

(** The configuration's fields that are among the listed names, in
    the order of [GetFields]. *)
Definition occurring (fields : list string) (cfg : C) : list string :=
  filter (fun field => field ∈ fields) (GetFields cfg).

End Checks.

(* ===================================================================== *)
(** ** The input's configuration, metrics and collaborators *)
(* ===================================================================== *)

(** The fields of [config] (config.go) that the code at hand reads. *)
Record config := MkConfig {
  ProjectID : string;
  Topic : string;
  SubscriptionName : string;
  SubscriptionCreate : bool;
  SubscriptionNumGoroutines : Z;
  SubscriptionMaxOutstandingMessages : Z
}.

(** Modelled from the spec: [inputMetrics], [newInputMetrics] and [Close]
    live in metrics.go, which is not among the sources.  The spec lists
    the "acked count, failed-ack count, nacked count, bytes processed"
    counters and the "processing-latency distribution": [Inc] adds one,
    [Add(n)] adds [n], [Update(v)] records the sample [v] (newest
    first). *)
Record inputMetrics := MkMetrics {
  ackedMessageCount : Z;
  failedAckedMessageCount : Z;
  nackedMessageCount : Z;
  bytesProcessedTotal : Z;
  processingTime : list Z
}.

Definition newInputMetrics : inputMetrics := MkMetrics 0 0 0 0 [].

Inductive Level := Debug | Info | Warn | ErrorLevel.

(** A log line: level, message and the value of the ["error"] key. *)
Definition LogEntry : Type := Level * string * option error.

Inductive Status :=
| Starting | Configuring | Running | Degraded | Stopping | Stopped | Failed.

(** The handle [client.Subscription(name)] with its [ReceiveSettings]. *)
Record Subscription := MkSubscription {
  subName : string;
  NumGoroutines : Z;
  MaxOutstandingMessages : Z
}.

(** [getOrCreateSubscription].  The Pub/Sub service is the map from the
    names of the existing subscriptions to their topics; [existsErr] and
    [createErr] are the errors, if any, that the calls [sub.Exists] and
    [client.CreateSubscription] return.  The result comes with the
    service after the call and the lines logged. *)
Definition getOrCreateSubscription (cfg : config)
    (existsErr createErr : option error) (service : gmap string string)
    : (error + Subscription) * gmap string string * list LogEntry :=
  let sub := MkSubscription (SubscriptionName cfg) 0 0 in
  match existsErr with
  | Some err =>
      (inl (ErrWrap "failed to check if subscription exists: " err), service, [])
  | None =>
      if bool_decide (is_Some (service !! SubscriptionName cfg))
      then (inr sub, service, [])
      else if SubscriptionCreate cfg then
        match createErr with
        | Some err =>
            (inl (ErrWrap "failed to create subscription: " err), service, [])
        | None =>
            (inr sub, <[SubscriptionName cfg := Topic cfg]> service,
             [(Debug, "Created new subscription.", None)])
        end
      else
        (inl (ErrNew "no subscription exists and 'subscription.create' is not enabled"),
         service, [])
  end.

(** What the input leaves in the world around it: the clock, the status
    reporter's history and the log (newest first), the Pub/Sub service,
    and a record of the calls made on collaborators. *)
Record World := MkWorld {
  now : Z;
  statusLog : list (Status * string);
  log : list LogEntry;
  service : gmap string string;
  created : nat;                      (* calls of newInputMetrics *)
  closeCalls : list bool;             (* Close calls: receiver non-nil? *)
  delivered : list (Event * bool);    (* OnEvent calls and their answers *)
  acks : list Message;                (* msg.Ack() calls *)
  nacks : list Message                (* msg.Nack() calls *)
}.

Definition clock (w : World) : Time := MkTime (now w) "Local".

Definition UpdateStatus (st : Status) (msg : string) (w : World) : World :=
  MkWorld (now w) ((st, msg) :: statusLog w) (log w) (service w) (created w)
          (closeCalls w) (delivered w) (acks w) (nacks w).

Definition Log (l : Level) (msg : string) (e : option error) (w : World) : World :=
  MkWorld (now w) (statusLog w) ((l, msg, e) :: log w) (service w) (created w)
          (closeCalls w) (delivered w) (acks w) (nacks w).

Definition Ack (msg : Message) (w : World) : World :=
  MkWorld (now w) (statusLog w) (log w) (service w) (created w)
          (closeCalls w) (delivered w) (msg :: acks w) (nacks w).

Definition Nack (msg : Message) (w : World) : World :=
  MkWorld (now w) (statusLog w) (log w) (service w) (created w)
          (closeCalls w) (delivered w) (acks w) (msg :: nacks w).

Definition OnEvent (e : Event) (ok : bool) (w : World) : World :=
  MkWorld (now w) (statusLog w) (log w) (service w) (created w)
          (closeCalls w) ((e, ok) :: delivered w) (acks w) (nacks w).

Definition set_service (sv : gmap string string) (w : World) : World :=
  MkWorld (now w) (statusLog w) (log w) sv (created w)
          (closeCalls w) (delivered w) (acks w) (nacks w).

Definition set_now (t : Z) (w : World) : World :=
  MkWorld t (statusLog w) (log w) (service w) (created w)
          (closeCalls w) (delivered w) (acks w) (nacks w).

Definition count_created (w : World) : World :=
  MkWorld (now w) (statusLog w) (log w) (service w) (S (created w))
          (closeCalls w) (delivered w) (acks w) (nacks w).

Definition record_close (nonnil : bool) (w : World) : World :=
  MkWorld (now w) (statusLog w) (log w) (service w) (created w)
          (nonnil :: closeCalls w) (delivered w) (acks w) (nacks w).

(** The body of the [EventPrivateReporter] callback for one element of
    [privates]. *)
Definition ack_private (priv : private) (mw : inputMetrics * World)
    : inputMetrics * World :=
  let '(m, w) := mw in
  match priv with
  | PrivMessage msg =>
      let w := Ack msg w in
      let m := MkMetrics (ackedMessageCount m + 1)
                 (failedAckedMessageCount m) (nackedMessageCount m)
                 (bytesProcessedTotal m) (processingTime m) in
      let m := MkMetrics (ackedMessageCount m)
                 (failedAckedMessageCount m) (nackedMessageCount m)
                 (bytesProcessedTotal m + Z.of_nat (length (msgData msg)))
                 (processingTime m) in
      let m := MkMetrics (ackedMessageCount m)
                 (failedAckedMessageCount m) (nackedMessageCount m)
                 (bytesProcessedTotal m)
                 (Since (clock w) (msgPublishTime msg) :: processingTime m) in
      (m, w)
  | PrivOther =>
      let m := MkMetrics (ackedMessageCount m)
                 (failedAckedMessageCount m + 1) (nackedMessageCount m)
                 (bytesProcessedTotal m) (processingTime m) in
      (m, Log ErrorLevel "Failed ACKing pub/sub event" None w)
  end.

(** The callback: [for _, priv := range privates]. *)
Definition ack_callback (privates : list private) (mw : inputMetrics * World)
    : inputMetrics * World :=
  fold_left (fun mw priv => ack_private priv mw) privates mw.

Definition inc_nacked (m : inputMetrics) : inputMetrics :=
  MkMetrics (ackedMessageCount m) (failedAckedMessageCount m)
            (nackedMessageCount m + 1)
            (bytesProcessedTotal m) (processingTime m).

(* ===================================================================== *)
(** ** The rate limiter of the watchdog *)
(* ===================================================================== *)

(** [retryInterval = 30 * time.Second], in nanoseconds. *)
Definition retryInterval : Z := 30 * 1000000000.

(** [rate.NewLimiter(rate.Every(retryInterval), 1)] of golang.org/x/time/rate:
    a bucket of one token, refilled at one token per [retryInterval].
    The token count is kept as nanoseconds of credit (one token is
    [retryInterval] of credit), in exact arithmetic. *)
Record Limiter := MkLimiter { last : Z; credit : Z }.

Definition NewLimiter (t : Z) : Limiter := MkLimiter t retryInterval.

(** [advance]: the credit at time [t], capped at the burst. *)
Definition advance (lim : Limiter) (t : Z) : Z :=
  Z.min retryInterval (credit lim + (t - Z.min t (last lim))).

(** [reserveN(t, 1, InfDuration)]: takes one token, possibly on credit;
    returns the limiter and the reservation's [timeToAct]. *)
Definition reserve (lim : Limiter) (t : Z) : Limiter * Z :=
  let c := advance lim t - retryInterval in
  (MkLimiter t c, t + (if c <? 0 then - c else 0)).

(** [r.CancelAt(t)]: gives the token back unless its time has passed. *)
Definition cancel_reservation (lim : Limiter) (act t : Z) : Limiter :=
  if act <? t then lim
  else MkLimiter t (Z.min retryInterval (advance lim t + retryInterval)).

(* ===================================================================== *)
(** ** The life cycle as a transition system *)
(* ===================================================================== *)

(** [sync.Once]: not yet entered, [f] running under the mutex, done. *)
Inductive Once := OnceFresh | OnceRunning | OnceDone.

(** The state of [*pubsubInput] that [Run], [Stop] and the worker share.
    [workerCancelled] is [in.workerCtx.Err() != nil]; [None] is the nil
    [metrics] pointer. *)
Record pubsubInput := MkInput {
  workerCancelled : bool;
  workerOnce : Once;
  workerWg : Z;
  metrics : option inputMetrics
}.

Definition set_cancelled (b : bool) (i : pubsubInput) : pubsubInput :=
  MkInput b (workerOnce i) (workerWg i) (metrics i).
Definition set_once (o : Once) (i : pubsubInput) : pubsubInput :=
  MkInput (workerCancelled i) o (workerWg i) (metrics i).
Definition set_wg (n : Z) (i : pubsubInput) : pubsubInput :=
  MkInput (workerCancelled i) (workerOnce i) n (metrics i).
Definition set_metrics (m : option inputMetrics) (i : pubsubInput) : pubsubInput :=
  MkInput (workerCancelled i) (workerOnce i) (workerWg i) m.

(** A goroutine of the host calls [Run] and [Stop] one after the other;
    its program counter names the statement it executes next.  [Close]
    belongs to metrics.go: the call is recorded with its receiver (nil or
    not), and what it does with a nil receiver is left open. *)
Inductive Call := CallRun | CallStop.

Inductive tpc :=
| T_Idle                 (* between calls *)
| R_Once                 (* in.workerOnce.Do(...) *)
| R_NewMetrics           (* in.metrics = newInputMetrics(in.id, nil) *)
| R_WgAdd                (* in.workerWg.Add(1) *)
| R_Go                   (* go func() {...}() *)
| R_OnceDone             (* Do returns: done is stored, the mutex released *)
| S_Cancel               (* in.workerCancel() *)
| S_Wait                 (* in.workerWg.Wait() *)
| S_Close.               (* in.metrics.Close() *)

Record Thread := MkThread {
  tat : tpc;
  todo : list Call;        (* calls still to make *)
  returned : list Call     (* calls that have returned, newest first *)
}.

(** The receive callback of [run], one instance per message. *)
Inductive hpc :=
| H_OnEvent              (* in.outlet.OnEvent(makeEvent(topicID, msg)) *)
| H_Nack                 (* msg.Nack() *)
| H_Inc                  (* in.metrics.nackedMessageCount.Inc() *)
| H_Log                  (* in.log.Debug(...) *)
| H_Cancel               (* cancel() *)
| H_Done.

Record Handler := MkHandler { hat : hpc; hmsg : Message }.

(** The worker goroutine started by [Run]. *)
Inductive wpc :=
| W_Start                         (* in.log.Info("... has started.") *)
| W_NewLimiter                    (* rt := rate.NewLimiter(...) *)
| W_Loop                          (* for in.workerCtx.Err() == nil *)
| W_Wait                          (* rt.Wait(in.workerCtx): check and reserve *)
| W_Timer (act : Z)               (* rt.Wait: select on the timer and ctx.Done() *)
| W_Run                           (* run: ctx, cancel := context.WithCancel(in.workerCtx) *)
| W_NewClient                     (* client, err := in.newPubsubClient(ctx) *)
| W_StatusRunning                 (* in.status.UpdateStatus(status.Running, "") *)
| W_GetSub                        (* in.getOrCreateSubscription(ctx, client) *)
| W_Receive (sub : Subscription) (topicID : string)
                                  (* sub.Receive(ctx, callback) *)
| W_Return (err : option error)   (* run returns: client.Close(), cancel() *)
| W_Check (err : option error)    (* if err := in.run(); err != nil {...} *)
| W_D_Cancel                      (* deferred: in.workerCancel() *)
| W_D_Done                        (* deferred: in.workerWg.Done() *)
| W_D_Log                         (* deferred: in.log.Info("... has stopped.") *)
| W_D_Status                      (* deferred: UpdateStatus(status.Stopped, "") *)
| W_Exit.

(** [runCancelled] is the state of the context [run] derives from
    [workerCtx]; [attempts] lists, newest first, for every call of
    [in.run()] the time the limiter granted and the time of the call. *)
Record Worker := MkWorker {
  wat : wpc;
  rt : Limiter;
  runCancelled : bool;
  handlers : list Handler;
  attempts : list (Z * Z)
}.

Definition set_wat (p : wpc) (w : Worker) : Worker :=
  MkWorker p (rt w) (runCancelled w) (handlers w) (attempts w).
Definition set_rt (l : Limiter) (w : Worker) : Worker :=
  MkWorker (wat w) l (runCancelled w) (handlers w) (attempts w).
Definition set_runCancelled (b : bool) (w : Worker) : Worker :=
  MkWorker (wat w) (rt w) b (handlers w) (attempts w).
Definition set_handlers (hs : list Handler) (w : Worker) : Worker :=
  MkWorker (wat w) (rt w) (runCancelled w) hs (attempts w).
Definition add_attempt (a : Z * Z) (w : Worker) : Worker :=
  MkWorker (wat w) (rt w) (runCancelled w) (handlers w) (a :: attempts w).

(** The worker as the [go] statement creates it; [rt] is assigned by
    [W_NewLimiter] before it is read. *)
Definition new_worker : Worker := MkWorker W_Start (MkLimiter 0 0) false [] [].

(** The goroutine of [NewInput] that wraps the host's [Done] channel. *)
Inductive ppc :=
| P_Select               (* select { case <-inputContext.Done: ... } *)
| P_Status               (* stat.UpdateStatus(status.Stopping, "") *)
| P_Cancel               (* deferred: cancelInputCtx() *)
| P_Exit.

Record System := MkSystem {
  inp : pubsubInput;
  world : World;
  parent : ppc;
  threads : list Thread;
  workers : list Worker
}.

Definition set_inp (i : pubsubInput) (s : System) : System :=
  MkSystem i (world s) (parent s) (threads s) (workers s).
Definition set_world (w : World) (s : System) : System :=
  MkSystem (inp s) w (parent s) (threads s) (workers s).
Definition set_parent (p : ppc) (s : System) : System :=
  MkSystem (inp s) (world s) p (threads s) (workers s).
Definition set_threads (ts : list Thread) (s : System) : System :=
  MkSystem (inp s) (world s) (parent s) ts (workers s).
Definition set_workers (ws : list Worker) (s : System) : System :=
  MkSystem (inp s) (world s) (parent s) (threads s) ws.

Definition set_thread (i : nat) (t : Thread) (s : System) : System :=
  set_threads (<[i := t]> (threads s)) s.
Definition set_worker (j : nat) (w : Worker) (s : System) : System :=
  set_workers (<[j := w]> (workers s)) s.

(** Cancelling [workerCtx] (or its parent [inputCtx]) cancels the
    contexts derived from it, here the one of every running [run]. *)
Definition cancel_workerCtx (s : System) : System :=
  set_workers (map (set_runCancelled true) (workers s))
    (set_inp (set_cancelled true (inp s)) s).

(** The state [NewInput] returns: statuses [Starting] and [Configuring]
    reported, one line logged, nothing started. *)
Definition NewInput (t0 : Z) (sv : gmap string string)
    (programs : list (list Call)) : System :=
  MkSystem (MkInput false OnceFresh 0 None)
           (MkWorld t0 [(Configuring, ""); (Starting, "")]
              [(Info, "Initialized GCP Pub/Sub input.", None)]
              sv 0 [] [] [] [])
           P_Select
           (map (fun p => MkThread T_Idle p []) programs)
           [].

(** What the environment answers when a statement calls out. *)
Inductive reply :=
| NoReply                        (* no call out, or the call succeeded *)
| Fails (e : error)              (* the call returned [e] *)
| CreateFails (e : error)        (* Exists succeeded, CreateSubscription returned [e] *)
| CtxDone.                       (* select took the ctx.Done() case *)

Inductive label :=
| LTick (d : Z)                          (* time passes *)
| LParent                                (* the NewInput goroutine *)
| LThread (i : nat)                      (* a caller of Run or Stop *)
| LWorker (j : nat) (r : reply)          (* the worker goroutine *)
| LArrive (j : nat) (msg : Message)      (* Receive invokes the callback *)
| LHandler (j k : nat) (ok : bool)       (* a callback; [ok] is OnEvent's answer *)
| LAcked (privates : list private).      (* the pipeline invokes the ACK callback *)

Definition parent_step (s : System) : option System :=
  match parent s with
  | P_Select => Some (set_parent P_Status s)
  | P_Status =>
      Some (set_parent P_Cancel (set_world (UpdateStatus Stopping "" (world s)) s))
  | P_Cancel => Some (set_parent P_Exit (cancel_workerCtx s))
  | P_Exit => None
  end.

Definition call_entry (c : Call) : tpc :=
  match c with CallRun => R_Once | CallStop => S_Cancel end.

Definition return_from (c : Call) (t : Thread) : Thread :=
  MkThread T_Idle (todo t) (c :: returned t).

Definition goto (p : tpc) (t : Thread) : Thread :=
  MkThread p (todo t) (returned t).

Definition thread_step (i : nat) (t : Thread) (s : System) : option System :=
  match tat t with
  | T_Idle =>
      match todo t with
      | c :: rest => Some (set_thread i (MkThread (call_entry c) rest (returned t)) s)
      | [] => None
      end
  | R_Once =>
      match workerOnce (inp s) with
      | OnceFresh =>
          Some (set_thread i (goto R_NewMetrics t)
                  (set_inp (set_once OnceRunning (inp s)) s))
      | OnceRunning => None
      | OnceDone => Some (set_thread i (return_from CallRun t) s)
      end
  | R_NewMetrics =>
      Some (set_thread i (goto R_WgAdd t)
              (set_world (count_created (world s))
                 (set_inp (set_metrics (Some newInputMetrics) (inp s)) s)))
  | R_WgAdd =>
      Some (set_thread i (goto R_Go t)
              (set_inp (set_wg (workerWg (inp s) + 1) (inp s)) s))
  | R_Go =>
      Some (set_thread i (goto R_OnceDone t)
              (set_workers (workers s ++ [new_worker]) s))
  | R_OnceDone =>
      Some (set_thread i (return_from CallRun t)
              (set_inp (set_once OnceDone (inp s)) s))
  | S_Cancel => Some (set_thread i (goto S_Wait t) (cancel_workerCtx s))
  | S_Wait =>
      if workerWg (inp s) =? 0 then Some (set_thread i (goto S_Close t) s)
      else None
  | S_Close =>
      Some (set_thread i (return_from CallStop t)
              (set_world (record_close (bool_decide (is_Some (metrics (inp s))))
                            (world s)) s))
  end.

Definition all_done (hs : list Handler) : bool :=
  forallb (fun h => match hat h with H_Done => true | _ => false end) hs.

Definition receive_error (cfg : config) (e : error) : string :=
  "failed to receive message from pub/sub topic " ++ ProjectID cfg ++ "/"
    ++ Topic cfg ++ ": " ++ Error e.

Definition worker_step (cfg : config) (j : nat) (w : Worker) (r : reply)
    (s : System) : option System :=
  match wat w with
  | W_Start =>
      Some (set_worker j (set_wat W_NewLimiter w)
              (set_world (Log Info "Pub/Sub input worker has started." None (world s)) s))
  | W_NewLimiter =>
      Some (set_worker j (set_wat W_Loop (set_rt (NewLimiter (now (world s))) w)) s)
  | W_Loop =>
      if workerCancelled (inp s)
      then Some (set_worker j (set_wat W_D_Cancel w) s)
      else Some (set_worker j (set_wat W_Wait w) s)
  | W_Wait =>
      if workerCancelled (inp s)
      then Some (set_worker j (set_wat W_Loop w) s)
      else
        let '(lim, act) := reserve (rt w) (now (world s)) in
        if act =? now (world s)
        then Some (set_worker j
                     (add_attempt (act, now (world s)) (set_wat W_Run (set_rt lim w))) s)
        else Some (set_worker j (set_wat (W_Timer act) (set_rt lim w)) s)
  | W_Timer act =>
      match r with
      | CtxDone =>
          if workerCancelled (inp s)
          then Some (set_worker j
                       (set_wat W_Loop
                          (set_rt (cancel_reservation (rt w) act (now (world s))) w)) s)
          else None
      | _ =>
          if act <=? now (world s)
          then Some (set_worker j
                       (add_attempt (act, now (world s)) (set_wat W_Run w)) s)
          else None
      end
  | W_Run =>
      Some (set_worker j
              (set_wat W_NewClient
                 (set_handlers [] (set_runCancelled (workerCancelled (inp s)) w))) s)
  | W_NewClient =>
      match r with
      | Fails e =>
          Some (set_worker j (set_wat (W_Return (Some e)) w)
                  (set_world (UpdateStatus Degraded (Error e) (world s)) s))
      | _ => Some (set_worker j (set_wat W_StatusRunning w) s)
      end
  | W_StatusRunning =>
      Some (set_worker j (set_wat W_GetSub w)
              (set_world (UpdateStatus Running "" (world s)) s))
  | W_GetSub =>
      let existsErr := match r with Fails e => Some e | _ => None end in
      let createErr := match r with CreateFails e => Some e | _ => None end in
      match getOrCreateSubscription cfg existsErr createErr (service (world s)) with
      | (inr sub, sv, lines) =>
          let sub := MkSubscription (subName sub) (SubscriptionNumGoroutines cfg)
                       (MaxOutstandingMessages sub) in
          let sub := MkSubscription (subName sub) (NumGoroutines sub)
                       (SubscriptionMaxOutstandingMessages cfg) in
          Some (set_worker j
                  (set_wat (W_Receive sub (makeTopicID (ProjectID cfg) (Topic cfg))) w)
                  (set_world (fold_right (fun '(l, m, e) => Log l m e)
                                (set_service sv (world s)) lines) s))
      | (inl err, sv, _) =>
          let err := ErrWrap "failed to subscribe to pub/sub topic: " err in
          Some (set_worker j (set_wat (W_Return (Some err)) w)
                  (set_world (UpdateStatus Degraded (Error err)
                                (set_service sv (world s))) s))
      end
  | W_Receive _ _ =>
      if all_done (handlers w) then
        match r with
        | Fails e =>
            Some (set_worker j (set_wat (W_Return (Some e)) w)
                    (set_world (UpdateStatus Degraded (receive_error cfg e) (world s)) s))
        | _ =>
            if runCancelled w
            then Some (set_worker j (set_wat (W_Return None) w) s)
            else None
        end
      else None
  | W_Return err =>
      Some (set_worker j (set_wat (W_Check err) (set_runCancelled true w)) s)
  | W_Check err =>
      match err with
      | None => Some (set_worker j (set_wat W_Loop w) s)
      | Some e =>
          if negb (workerCancelled (inp s)) then
            Some (set_worker j (set_wat W_Loop w)
                    (set_world (Log Warn "Restarting failed Pub/Sub input worker."
                                  (Some e) (world s)) s))
          else if negb (Is_Canceled e) then
            Some (set_worker j (set_wat W_Loop w)
                    (set_world (Log ErrorLevel "Pub/Sub input worker failed."
                                  (Some e) (world s)) s))
          else Some (set_worker j (set_wat W_Loop w) s)
      end
  | W_D_Cancel =>
      let s := cancel_workerCtx s in
      Some (set_worker j (set_wat W_D_Done (set_runCancelled true w)) s)
  | W_D_Done =>
      if 0 <? workerWg (inp s)
      then Some (set_worker j (set_wat W_D_Log w)
                   (set_inp (set_wg (workerWg (inp s) - 1) (inp s)) s))
      else None
  | W_D_Log =>
      Some (set_worker j (set_wat W_D_Status w)
              (set_world (Log Info "Pub/Sub input worker has stopped." None (world s)) s))
  | W_D_Status =>
      Some (set_worker j (set_wat W_Exit w)
              (set_world (UpdateStatus Stopped "" (world s)) s))
  | W_Exit => None
  end.

Definition set_handler (k : nat) (h : Handler) (w : Worker) : Worker :=
  set_handlers (<[k := h]> (handlers w)) w.

Definition handler_step (j k : nat) (w : Worker) (h : Handler) (ok : bool)
    (s : System) : option System :=
  match wat w with
  | W_Receive _ topicID =>
      match hat h with
      | H_OnEvent =>
          let e := makeEvent (clock (world s)) topicID (hmsg h) in
          let next := if ok then H_Done else H_Nack in
          Some (set_worker j (set_handler k (MkHandler next (hmsg h)) w)
                  (set_world (OnEvent e ok (world s)) s))
      | H_Nack =>
          Some (set_worker j (set_handler k (MkHandler H_Inc (hmsg h)) w)
                  (set_world (Nack (hmsg h) (world s)) s))
      | H_Inc =>
          match metrics (inp s) with
          | Some m =>
              Some (set_worker j (set_handler k (MkHandler H_Log (hmsg h)) w)
                      (set_inp (set_metrics (Some (inc_nacked m)) (inp s)) s))
          | None => None
          end
      | H_Log =>
          Some (set_worker j (set_handler k (MkHandler H_Cancel (hmsg h)) w)
                  (set_world (Log Debug "OnEvent returned false. Stopping input worker."
                                None (world s)) s))
      | H_Cancel =>
          Some (set_worker j
                  (set_runCancelled true
                     (set_handler k (MkHandler H_Done (hmsg h)) w)) s)
      | H_Done => None
      end
  | _ => None
  end.

(** One transition; [None] when the statement is blocked, the goroutine
    has ended, or the statement would dereference the nil [metrics]. *)
Definition step (cfg : config) (l : label) (s : System) : option System :=
  match l with
  | LTick d =>
      if 0 <=? d then Some (set_world (set_now (now (world s) + d) (world s)) s)
      else None
  | LParent => parent_step s
  | LThread i =>
      match threads s !! i with
      | Some t => thread_step i t s
      | None => None
      end
  | LWorker j r =>
      match workers s !! j with
      | Some w => worker_step cfg j w r s
      | None => None
      end
  | LArrive j msg =>
      match workers s !! j with
      | Some w =>
          match wat w with
          | W_Receive _ _ =>
              Some (set_worker j
                      (set_handlers (handlers w ++ [MkHandler H_OnEvent msg]) w) s)
          | _ => None
          end
      | None => None
      end
  | LHandler j k ok =>
      match workers s !! j with
      | Some w =>
          match handlers w !! k with
          | Some h => handler_step j k w h ok s
          | None => None
          end
      | None => None
      end
  | LAcked privates =>
      match metrics (inp s) with
      | Some m =>
          let '(m', w') := ack_callback privates (m, world s) in
          Some (set_world w' (set_inp (set_metrics (Some m') (inp s)) s))
      | None => None
      end
  end.

(** Runs a schedule from left to right. *)
Fixpoint exec (cfg : config) (ls : list label) (s : System) : option System :=
  match ls with
  | [] => Some s
  | l :: ls' =>
      match step cfg l s with
      | Some s' => exec cfg ls' s'
      | None => None
      end
  end.

(** Every character is one of [0123456789abcdef]. *)
Definition all_hex (s : string) : Prop :=
  Forall (fun c => Hex.is_hex c = true) (list_ascii_of_string s).

(** Exactly one of the listed names is a field of the configuration. *)
Definition exactly_one_occurs (fields : list string) (cfg : Checks.C) : Prop :=
  exists f, f ∈ fields /\ f ∈ Checks.GetFields cfg
    /\ forall g, g ∈ fields -> g ∈ Checks.GetFields cfg -> g = f.

(** The messages among the back-references handed to the ACK callback. *)
Definition messages_of (privates : list private) : list Message :=
  omap (fun p => match p with PrivMessage m => Some m | PrivOther => None end)
       privates.

(** How many of the back-references are not messages. *)
Fixpoint count_other (privates : list private) : nat :=
  match privates with
  | [] => 0
  | PrivOther :: ps => S (count_other ps)
  | PrivMessage _ :: ps => count_other ps
  end.

(** The worker goroutine's own statements, [n] of them in a row, the
    environment answering [r] each time. *)
Definition worker_runs (j : nat) (r : reply) (n : nat) : list label :=
  repeat (LWorker j r) n.

(** The current status: the last one reported. *)
Definition current_status (s : System) : option (Status * string) :=
  head (statusLog (world s)).

(** ** Sample inputs *)

(** A configuration whose only key is the empty name, and one with the
    keys [x] and [a]. *)
Definition empty_key_config : Checks.C :=
  Checks.MkC [""] (bool_decide_unpack (NoDup [""]) I).

Definition two_key_config : Checks.C :=
  Checks.MkC ["x"; "a"] (bool_decide_unpack (NoDup ["x"; "a"]) I).

(** Configurations with the two keys [""] and [a], in the one and in
    the other order of [GetFields]. *)
Definition empty_first_config : Checks.C :=
  Checks.MkC [""; "a"] (bool_decide_unpack (NoDup [""; "a"]) I).

Definition empty_last_config : Checks.C :=
  Checks.MkC ["a"; ""] (bool_decide_unpack (NoDup ["a"; ""]) I).

Definition sample_config : config := MkConfig "proj" "topic" "sub" false 1 1000.

(** The subscription handle of [sample_config] with its settings. *)
Definition sample_sub : Subscription := MkSubscription "sub" 1 1000.

Definition sample_message : Message :=
  MkMessage "m1" [x68; x69] (<["k" := "v"]> ∅) (MkTime 5 "Local").

(** The input after [Run] has returned, with its worker at [p] in the
    first attempt and the callbacks [hs] in flight. *)
Definition sample_system (p : wpc) (hs : list Handler) : System :=
  MkSystem (MkInput false OnceDone 1 (Some newInputMetrics))
           (MkWorld 7 [(Running, ""); (Configuring, ""); (Starting, "")]
              [(Info, "Pub/Sub input worker has started.", None);
               (Info, "Initialized GCP Pub/Sub input.", None)]
              ∅ 1 [] [] [] [])
           P_Select
           [MkThread T_Idle [CallStop] [CallRun]]
           [MkWorker p (MkLimiter 0 (- retryInterval)) false hs [(0, 0)]].

(** A service that has the subscription of [sample_config]. *)
Definition sample_service : gmap string string := <["sub" := "topic"]> ∅.

(** [Run] by the first caller, then the worker up to [sub.Receive], then
    one message. *)
Definition sample_schedule : list label :=
  (repeat (LThread 0) 6 ++ repeat (LWorker 0 NoReply) 8
   ++ [LArrive 0 sample_message])%list.

Definition sample_start : System :=
  NewInput 0 sample_service [[CallRun]; [CallStop]].

Definition sample_receiving : System :=
  default sample_start (exec sample_config sample_schedule sample_start).

(** The same, with the sink accepting the event of the message. *)
Definition sample_delivered : System :=
  default sample_start
    (exec sample_config (sample_schedule ++ [LHandler 0 0 true]) sample_start).



(** The error of [getOrCreateSubscription] when the subscription is
    missing and may not be created. *)
Definition no_subscription : error :=
  ErrNew "no subscription exists and 'subscription.create' is not enabled".

(** [Run] by the first caller and the worker up to [sub.Receive]; [Stop]
    by the second caller up to [workerWg.Wait]; the worker out of
    [Receive], through the loop and the first two deferred calls
    ([workerCancel], [workerWg.Done]); then the rest of [Stop]. *)
Definition stop_race : list label :=
  (repeat (LThread 0) 6 ++ repeat (LWorker 0 NoReply) 8
   ++ repeat (LThread 1) 2
   ++ repeat (LWorker 0 NoReply) 6
   ++ repeat (LThread 1) 2)%list.

(* ===================================================================== *)
(** ** Invariants of the transition system *)
(* ===================================================================== *)

(** The attempts of a worker, newest first, are spaced: each was granted
    a time at least [retryInterval] after the time granted to the one
    before, and [in.run()] was called no earlier than the granted time. *)
Fixpoint spaced (l : list (Z * Z)) : Prop :=
  match l with
  | [] => True
  | (act, called) :: rest =>
      act <= called
      /\ (forall prev, head rest = Some prev -> prev.1 + retryInterval <= act)
      /\ spaced rest
  end.

(** The time from which the limiter grants a token at once. *)
Definition next_free (l : Limiter) : Z := last l + retryInterval - credit l.

(** What holds of a worker's limiter at clock reading [t]. *)
Definition limiter_ok (t : Z) (w : Worker) : Prop :=
  spaced (attempts w)
  /\ match wat w with
     | W_Start | W_NewLimiter => attempts w = []
     | W_Timer act =>
         last (rt w) <= t /\ credit (rt w) <= retryInterval
         /\ next_free (rt w) = act + retryInterval
         /\ (forall prev, head (attempts w) = Some prev ->
               prev.1 + retryInterval <= act)
     | _ =>
         last (rt w) <= t /\ credit (rt w) <= retryInterval
         /\ (forall prev, head (attempts w) = Some prev ->
               prev.1 + retryInterval <= next_free (rt w))
     end.


(** Where a caller of [Run] stands inside the function passed to
    [workerOnce.Do]: inside at all, past the creation of the metrics,
    between [workerWg.Add(1)] and the [go] statement, past the [go]
    statement. *)
Definition in_body (t : Thread) : nat :=
  match tat t with R_NewMetrics | R_WgAdd | R_Go | R_OnceDone => 1 | _ => 0 end.
Definition made (t : Thread) : nat :=
  match tat t with R_WgAdd | R_Go | R_OnceDone => 1 | _ => 0 end.
Definition added (t : Thread) : nat :=
  match tat t with R_Go => 1 | _ => 0 end.
Definition started (t : Thread) : nat :=
  match tat t with R_OnceDone => 1 | _ => 0 end.

(** A worker that has not yet called [workerWg.Done()]. *)
Definition live (w : Worker) : nat :=
  match wat w with W_D_Log | W_D_Status | W_Exit => 0 | _ => 1 end.

Definition tally {A} (f : A -> nat) (l : list A) : nat := sum_list_with f l.

(** The bookkeeping of [workerOnce], [workerWg] and [metrics]. *)
Definition once_inv (s : System) : Prop :=
  workerWg (inp s)
  = Z.of_nat (tally added (threads s) + tally live (workers s))
  /\ (metrics (inp s) = None <-> created (world s) = 0%nat)
  /\ Forall (fun t => CallRun ∈ returned t -> workerOnce (inp s) = OnceDone)
            (threads s)
  /\ match workerOnce (inp s) with
     | OnceFresh =>
         tally in_body (threads s) = 0%nat /\ created (world s) = 0%nat
         /\ length (workers s) = 0%nat
     | OnceRunning =>
         tally in_body (threads s) = 1%nat
         /\ created (world s) = tally made (threads s)
         /\ length (workers s) = tally started (threads s)
     | OnceDone =>
         tally in_body (threads s) = 0%nat /\ created (world s) = 1%nat
         /\ length (workers s) = 1%nat
     end.

(** A schedule made of statements of the callers of [Run] and [Stop]
    only: the worker goroutine does not move. *)
Definition callers_only (ls : list label) : Prop :=
  Forall (fun l => match l with LThread _ => True | _ => False end) ls.

(** A worker between the loop condition and the end of [in.run()]:
    only such a worker calls out to the Pub/Sub client and the sink. *)
Definition active (w : Worker) : bool :=
  match wat w with
  | W_Wait | W_Timer _ | W_Run | W_NewClient | W_StatusRunning | W_GetSub
  | W_Receive _ _ | W_Return _ | W_Check _ => true
  | _ => false
  end.

(** A caller whose [Stop] has got past [workerWg.Wait()]. *)
Definition past_wait (t : Thread) : Prop :=
  tat t = S_Close \/ CallStop ∈ returned t.

(** From [workerCancel()] on the worker context is cancelled, and once
    a [Stop] is past [Wait] no worker is active. *)
Definition stop_inv (s : System) : Prop :=
  Forall (fun t => tat t = S_Wait \/ past_wait t ->
                   workerCancelled (inp s) = true) (threads s)
  /\ Forall (fun t => past_wait t ->
                      Forall (fun w => active w = false) (workers s))
            (threads s).

(** The topic identifier in use is the one of the configuration, and
    every event handed to the sink carries the identifier made of it and
    of the identifier of its message. *)
Definition delivered_inv (cfg : config) (s : System) : Prop :=
  Forall (fun w => forall sub tid, wat w = W_Receive sub tid ->
                   tid = makeTopicID (ProjectID cfg) (Topic cfg)) (workers s)
  /\ Forall (fun d => exists msg,
               evPrivate d.1 = PrivMessage msg
               /\ evID d.1 = makeTopicID (ProjectID cfg) (Topic cfg)
                             ++ "-" ++ msgID msg)
            (delivered (world s)).

(* ===================================================================== *)
(** ** libbeat/processors/checks: the other checks *)
(* ===================================================================== *)

(** [cfg.HasField(field)]: the name is one of the top-level keys. *)
Definition HasField (cfg : Checks.C) (field : string) : bool :=
  bool_decide (field ∈ Checks.GetFields cfg).

(** [RequireFields(fields...)(cfg)]. *)
Fixpoint RequireFields (fields : list string) (cfg : Checks.C) : option error :=
  match fields with
  | [] => None
  | field :: rest =>
      if negb (HasField cfg field)
      then Some (ErrNew ("missing " ++ field ++ " option"))
      else RequireFields rest cfg
  end.

(** The inner loop of [AllowedFields]: [found] after the loop. *)
Fixpoint found_among (field : string) (allowed : list string) : bool :=
  match allowed with
  | [] => false
  | a :: rest => if String.eqb field a then true else found_among field rest
  end.

(** The outer loop of [AllowedFields] over [cfg.GetFields()]. *)
Fixpoint allowed_scan (cfgFields allowed : list string) : option error :=
  match cfgFields with
  | [] => None
  | field :: rest =>
      if negb (found_among field allowed)
      then Some (ErrNew ("unexpected " ++ field ++ " option"))
      else allowed_scan rest allowed
  end.

(** [AllowedFields(fields...)(cfg)]. *)
Definition AllowedFields (fields : list string) (cfg : Checks.C) : option error :=
  allowed_scan (Checks.GetFields cfg) fields.

(** [checkAll(checks...)(c)]: the first error. *)
Fixpoint checkAll (checks : list (Checks.C -> option error)) (c : Checks.C)
    : option error :=
  match checks with
  | [] => None
  | check :: rest =>
      match check c with
      | Some err => Some err
      | None => checkAll rest c
      end
  end.

(** The errors [ConfigChecked]'s constructor returns: the one of the
    wrapped constructor, or [fmt.Errorf("%w in %v", err, cfg.Path())]. *)
Inductive checked_error :=
| FromConstructor (err : error)
| InPath (err : error) (path : string).

Definition checked_Error (e : checked_error) : string :=
  match e with
  | FromConstructor err => Error err
  | InPath err path => Error err ++ " in " ++ path
  end.

(** [ConfigChecked(constr, checks...)(cfg, log)]; [path] is the value of
    [cfg.Path()], and [inl] carries the error of the pair returned. *)
Definition ConfigChecked {Processor Logger : Type}
    (constr : Checks.C -> Logger -> error + Processor)
    (checks : list (Checks.C -> option error))
    (path : string) (cfg : Checks.C) (log : Logger)
    : checked_error + Processor :=
  match checkAll checks cfg with
  | Some err => inl (InPath err path)
  | None =>
      match constr cfg log with
      | inl err => inl (FromConstructor err)
      | inr p => inr p
      end
  end.

(** The names on which the test [field == f] of
    [MutuallyExclusiveRequiredFields] succeeds, in the order the two
    loops meet them: the keys of the configuration outside, the listed
    names inside. *)
Definition matches (fields : list string) (cfg : Checks.C) : list string :=
  flat_map (fun field => filter (fun f => f = field) fields) (Checks.GetFields cfg).

(** What the two loops do with the successive matches. *)
Fixpoint feed (foundField : string) (ms : list string) : error + string :=
  match ms with
  | [] => inr foundField
  | m :: ms' =>
      if (String.length foundField =? 0)%nat then feed m ms'
      else inl (Checks.exclusive_error foundField m)
  end.

(** The total payload size of a list of messages, in bytes. *)
Definition payload_bytes (ms : list Message) : Z :=
  fold_right (fun msg n => Z.of_nat (length (msgData msg)) + n) 0 ms.

(* ===================================================================== *)
(** ** Further invariants of the transition system *)
(* ===================================================================== *)

(** A state the input reaches from the one [NewInput] returns. *)
Definition reachable (cfg : config) (s : System) : Prop :=
  exists t0 sv programs ls, exec cfg ls (NewInput t0 sv programs) = Some s.

(** The worker is inside [sub.Receive]. *)
Definition receiving (w : Worker) : bool :=
  match wat w with W_Receive _ _ => true | _ => false end.

(** The worker is inside [run], with the context [ctx] derived from
    [workerCtx] in use. *)
Definition in_run (w : Worker) : bool :=
  match wat w with
  | W_NewClient | W_StatusRunning | W_GetSub | W_Receive _ _ => true
  | _ => false
  end.

(** Callbacks run only inside [sub.Receive], and a cancelled worker
    context means a cancelled context of the attempt in progress. *)
Definition scope_ok (cancelled : bool) (w : Worker) : Prop :=
  (receiving w = false -> all_done (handlers w) = true)
  /\ (cancelled = true -> in_run w = true -> runCancelled w = true).

Definition scope_inv (s : System) : Prop :=
  Forall (scope_ok (workerCancelled (inp s))) (workers s).

(** [Run] by the first caller and the worker goroutine up to the rate
    limiter's [Wait] of its first attempt. *)
Definition sample_looping : System :=
  default sample_start
    (exec sample_config
       (repeat (LThread 0) 6 ++ repeat (LWorker 0 NoReply) 3)%list sample_start).



(** The log lines of the ACK callback's failed type assertion. *)
Definition failed_lines (l : list LogEntry) : nat :=
  tally (fun e : LogEntry =>
           match e with
           | (ErrorLevel, msg, _) =>
               if String.eqb msg "Failed ACKing pub/sub event" then 1%nat else 0%nat
           | _ => 0%nat
           end) l.



(** The statuses reported after the two of [NewInput], newest first. *)
Definition reported (s : System) : list (Status * string) :=
  take (length (statusLog (world s)) - 2) (statusLog (world s)).

Definition is_stopped (x : Status * string) : nat :=
  match x.1 with Stopped => 1 | _ => 0 end.
Definition is_stopping (x : Status * string) : nat :=
  match x.1 with Stopping => 1 | _ => 0 end.

(** A status of the running input: one the worker goroutine or the
    goroutine of [NewInput] reports. *)
Definition of_running (x : Status * string) : bool :=
  match x.1 with Running | Degraded | Stopping | Stopped => true | _ => false end.

(** The worker goroutine has ended. *)
Definition exited (w : Worker) : nat :=
  match wat w with W_Exit => 1 | _ => 0 end.

(** The goroutine of [NewInput] has reported [Stopping]. *)
Definition has_reported (p : ppc) : nat :=
  match p with P_Cancel | P_Exit => 1 | _ => 0 end.

(** Newest first, nothing but [Stopping] comes before a [Stopped]. *)
Fixpoint stopped_last (l : list (Status * string)) : bool :=
  match l with
  | (Stopping, _) :: rest => stopped_last rest
  | (Stopped, _) :: _ => true
  | _ => false
  end.

Definition status_inv (s : System) : Prop :=
  statusLog (world s) = app (reported s) [(Configuring, ""); (Starting, "")]
  /\ forallb of_running (reported s) = true
  /\ tally is_stopped (reported s) = tally exited (workers s)
  /\ tally is_stopping (reported s) = has_reported (parent s)
  /\ (tally exited (workers s) = 1%nat ->
      stopped_last (statusLog (world s)) = true).

(** The calls of [in.run()] made so far. *)
Definition attempts_made (s : System) : nat :=
  tally (fun w => length (attempts w)) (workers s).

(** [Stopping] or [Stopped]. *)
Definition closing (x : Status * string) : bool :=
  match x.1 with Stopping | Stopped => true | _ => false end.

(** The input after the schedule [stop_race]: [Stop] has returned, the
    worker goroutine has two deferred statements left. *)
Definition sample_stopped : System :=
  default sample_start (exec sample_config stop_race sample_start).

(** The same, the worker goroutine having ended. *)
Definition sample_ended : System :=
  default sample_start
    (exec sample_config (stop_race ++ repeat (LWorker 0 NoReply) 2)%list
       sample_start).

(** The statements a callback has left when the sink accepts. *)
Definition steps_left (h : Handler) : nat :=
  match hat h with
  | H_OnEvent => 1 | H_Nack => 4 | H_Inc => 3 | H_Log => 2 | H_Cancel => 1
  | H_Done => 0
  end.

(** The statements the worker goroutine has left once the worker
    context is cancelled and its callbacks have returned. *)
Definition rank (p : wpc) : nat :=
  match p with
  | W_Exit => 0 | W_D_Status => 1 | W_D_Log => 2 | W_D_Done => 3
  | W_D_Cancel => 4 | W_Loop => 5
  | W_Check _ | W_Wait | W_Timer _ | W_NewLimiter => 6
  | W_Return _ | W_Start => 7
  | W_Receive _ _ => 8 | W_GetSub => 9 | W_StatusRunning => 10
  | W_NewClient => 11 | W_Run => 12
  end.

Definition measure (w : Worker) : nat :=
  (rank (wat w) + tally steps_left (handlers w))%nat.

(** A statement of the worker goroutine [j] or of one of its callbacks. *)
Definition own (j : nat) (l : label) : Prop :=
  match l with
  | LWorker j' _ | LHandler j' _ _ => j' = j
  | _ => False
  end.

(** [Run] by the first caller and the worker up to [sub.Receive], then
    [workerCancel()] and [workerWg.Wait()] of [Stop] by the second. *)
Definition sample_cancelled : System :=
  default sample_start
    (exec sample_config
       (repeat (LThread 0) 6 ++ repeat (LWorker 0 NoReply) 8
        ++ repeat (LThread 1) 2)%list sample_start).

(** The limiter has its one token as long as no attempt was made, and
    the first attempt was granted for the time it started. *)
Definition first_ok (t : Z) (w : Worker) : Prop :=
  match attempts w with
  | [] =>
      match wat w with
      | W_Start | W_NewLimiter => True
      | W_Loop | W_Wait | W_D_Cancel | W_D_Done | W_D_Log | W_D_Status | W_Exit =>
          credit (rt w) = retryInterval /\ last (rt w) <= t
      | _ => False
      end
  | _ => exists pre a, attempts w = (pre ++ [(a, a)])%list
  end.

Definition first_inv (s : System) : Prop :=
  Forall (first_ok (now (world s))) (workers s).

(* ===================================================================== *)
(** ** The Pub/Sub client: its options and the user agent decorator *)
(* ===================================================================== *)

(** An [http.Request] as [RoundTrip] sees it: the [Header] map ([None]
    is the nil map) and the rest of the request. *)
Record Request (B : Type) := MkRequest {
  Header : option (gmap string (list string));
  reqRest : B
}.
Arguments MkRequest {B} _ _.
Arguments Header {B} _.
Arguments reqRest {B} _.

(** [userAgentDecorator.RoundTrip]; the request is a pointer, so the
    caller sees the header as the call leaves it.  [Header.Set] stores
    under the canonical form of its key, which for ["User-Agent"] is the
    key itself, and panics ([None]) on the nil map. *)
Definition RoundTrip {B Resp : Type} (UserAgent : string)
    (Transport : Request B -> Resp) (r : Request B)
    : option (Request B * Resp) :=
  match Header r with
  | Some h =>
      match h !! "User-Agent" with
      | Some _ => Some (r, Transport r)
      | None =>
          let r' := MkRequest (Some (<["User-Agent" := [UserAgent]]> h)) (reqRest r) in
          Some (r', Transport r')
      end
  | None => None
  end.

(** The fields of [config] (config.go) that [newPubsubClient] reads;
    [ProxyURL] is [Transport.Proxy.URL], [None] when nil. *)
Record clientConfig := MkClientConfig {
  AlternativeHost : string;
  CredentialsFile : string;
  CredentialsJSON : list byte;
  ProxyDisable : bool;
  ProxyURL : option string
}.

(** The [option.ClientOption]s the input builds. *)
Inductive ClientOption :=
| WithGRPCConn (host : string)
| WithTelemetryDisabled
| WithCredentialsFile (file : string)
| WithCredentialsJSON (json : list byte)
| WithHTTPClient (proxy : string) (decoratedWith : string)
| WithUserAgent (userAgent : string).

(** [newPubsubClient] up to its last call: the error it returns, or the
    options it hands to [pubsub.NewClient].  [connErr] and [clientErr]
    are the errors, if any, of [grpc.NewClient] and of
    [HTTPTransportSettings.Client]; [quote] is the verb [%q]. *)
Definition newPubsubClient_options (quote : string -> string)
    (cc : clientConfig) (userAgent : string)
    (connErr clientErr : option error) : error + list ClientOption :=
  let opts := [] in
  let step1 :=
    if negb (String.eqb (AlternativeHost cc) "") then
      match connErr with
      | Some err =>
          inl (ErrWrap ("cannot connect to alternative host "
                        ++ quote (AlternativeHost cc) ++ ": ") err)
      | None =>
          inr (opts ++ [WithGRPCConn (AlternativeHost cc); WithTelemetryDisabled])%list
      end
    else inr opts in
  match step1 with
  | inl err => inl err
  | inr opts =>
      let opts :=
        if negb (String.eqb (CredentialsFile cc) "")
        then (opts ++ [WithCredentialsFile (CredentialsFile cc)])%list
        else if (0 <? Z.of_nat (length (CredentialsJSON cc)))
             then (opts ++ [WithCredentialsJSON (CredentialsJSON cc)])%list
             else opts in
      match negb (ProxyDisable cc), ProxyURL cc with
      | true, Some url =>
          match clientErr with
          | Some err => inl err
          | None => inr (opts ++ [WithHTTPClient url userAgent])%list
          end
      | _, _ => inr (opts ++ [WithUserAgent userAgent])%list
      end
  end.

(** What an option is about. *)
Definition is_credentials (o : ClientOption) : bool :=
  match o with WithCredentialsFile _ | WithCredentialsJSON _ => true | _ => false end.
Definition carries_user_agent (ua : string) (o : ClientOption) : bool :=
  match o with
  | WithHTTPClient _ d => String.eqb d ua
  | WithUserAgent u => String.eqb u ua
  | _ => false
  end.
Definition is_alternative (o : ClientOption) : bool :=
  match o with WithGRPCConn _ | WithTelemetryDisabled => true | _ => false end.

(* ===================================================================== *)
(** ** [configID] *)
(* ===================================================================== *)

(** The verb [%16X] of [fmt] on a [uint64]: the digits in base 16,
    upper case, most significant first and without leading zeros, put
    to the right of a field of 16 characters filled with spaces. *)
Definition upper_digit (d : Z) : ascii :=
  nth (Z.to_nat d) (list_ascii_of_string "0123456789ABCDEF") "0"%char.

Fixpoint upper_hex (fuel : nat) (n : Z) (acc : string) : string :=
  match fuel with
  | O => acc
  | S fuel' =>
      let acc' := String (upper_digit (n mod 16)) acc in
      if n / 16 =? 0 then acc' else upper_hex fuel' (n / 16) acc'
  end.

Definition spaces (n : nat) : string :=
  string_of_list_ascii (repeat " "%char n).

Definition pad_left (width : nat) (s : string) : string :=
  spaces (width - String.length s) ++ s.

Definition Sprintf_16X (id : Z) : string := pad_left 16 (upper_hex 16 id "").

(** [configID].  [unpacked] is what [config.Unpack(&tmp)] gives, the
    error or the value of the ["id"] setting; [hashed] what
    [hashstructure.Hash] gives, the error or the [uint64]. *)
Definition configID (unpacked : error + string) (hashed : error + Z)
    : error + string :=
  match unpacked with
  | inl err => inl (ErrWrap "error extracting ID: " err)
  | inr ID =>
      if negb (String.eqb ID "") then inr ID
      else
        match hashed with
        | inl err => inl (ErrWrap "can not compute ID from configuration: " err)
        | inr id => inr (Sprintf_16X id)
        end
  end.

(** The number a field written by [%16X] stands for: spaces count as
    leading zeros. *)
Definition digit_value (c : ascii) : Z :=
  if (c =? " ")%char then 0
  else
    let n := Z.of_nat (nat_of_ascii c) in
    if n <? 58 then n - 48 else n - 55.

Definition field_value (s : string) : Z :=
  fold_left (fun v c => 16 * v + digit_value c) (list_ascii_of_string s) 0.

(* ===================================================================== *)
(** ** [NewInput]: the ways it ends *)
(* ===================================================================== *)

(** What a call of [NewInput] leaves: the error it returns ([None] when
    it returns the input), the statuses reported and the lines logged
    (newest first), and whether the goroutine that wraps the host's
    [Done] channel was started. *)
Record Outcome := MkOutcome {
  outErr : option error;
  outStatus : list (Status * string);
  outLog : list LogEntry;
  outGoroutine : bool
}.

(** [NewInput].  [unpackErr] is the error, if any, of [cfg.Unpack];
    [unpacked] and [hashed] are the answers [configID] gets; [oldName]
    is [conf.Type == oldInputName]; [connectErr] is the error, if any,
    of [connector.ConnectWith]. *)
Definition NewInput_outcome (unpackErr : option error)
    (unpacked : error + string) (hashed : error + Z) (oldName : bool)
    (connectErr : option error) : Outcome :=
  let st := [(Configuring, ""); (Starting, "")] in
  match unpackErr with
  | Some err =>
      MkOutcome (Some err)
        ((Failed, "failed to configure input: " ++ Error err) :: st) [] false
  | None =>
      match configID unpacked hashed with
      | inl err =>
          MkOutcome (Some err)
            ((Failed, "failed to get input ID: " ++ Error err) :: st) [] false
      | inr _ =>
          let lg :=
            if oldName
            then [(Warn,
                   "google-pubsub input name is deprecated, please use gcp-pubsub instead",
                   None)]
            else [] in
          match connectErr with
          | Some err =>
              MkOutcome (Some err)
                ((Failed, "failed to configure Elasticsearch connection: "
                          ++ Error err) :: st) lg true
          | None =>
              MkOutcome None st
                ((Info, "Initialized GCP Pub/Sub input.", None) :: lg) true
          end
      end
  end.

(* ===================================================================== *)
(** * Properties *)
(* ===================================================================== *)

(** ** The digest, checked against the test vectors of FIPS 180-4 *)

Example sha256_tables :
  length Sha256.K = 64%nat
  /\ nth 0 Sha256.K 0 = 0x428a2f98 /\ nth 1 Sha256.K 0 = 0x71374491
  /\ nth 62 Sha256.K 0 = 0xbef9a3f7 /\ nth 63 Sha256.K 0 = 0xc67178f2
  /\ Sha256.h0 Sha256.init = 0x6a09e667 /\ Sha256.h7 Sha256.init = 0x5be0cd19.
Proof. vm_compute. repeat split. Qed.

Example sha256_abc :
  Hex.EncodeToString (Sha256.Sum (Sha256.Write Sha256.New (bytes_of_string "abc")))
  = "ba7816bf8f01cfea414140de5dae2223b00361a396177a9cb410ff61f20015ad".
Proof. vm_compute. reflexivity. Qed.

Example sha256_empty :
  Hex.EncodeToString (Sha256.Sum Sha256.New)
  = "e3b0c44298fc1c149afbf4c8996fb92427ae41e4649b934ca495991b7852b855".
Proof. vm_compute. reflexivity. Qed.

Example sha256_two_blocks :
  Hex.EncodeToString (Sha256.Sum (Sha256.Write
     (Sha256.Write Sha256.New (bytes_of_string "abcdbcdecdefdefgefghfghighijhijk"))
     (bytes_of_string "ijkljklmklmnlmnomnopnopq")))
  = "248d6a61d20638b8e5c026930c3e6039a33ce45964ff2167f6ecedd419db06c1".
Proof. vm_compute. reflexivity. Qed.

Example makeTopicID_sample : makeTopicID "proj" "topic" = "3de302dac5".
Proof. vm_compute. reflexivity. Qed.

Section Digest.
Import Sha256.

(** The fuel of [blocks] does not matter once it covers the input. *)
Lemma blocks_fuel fuel : forall fuel' s p,
  (length p <= fuel)%nat -> (length p <= fuel')%nat ->
  blocks fuel s p = blocks fuel' s p.
Proof.
  induction fuel as [|fuel IH]; intros fuel' s p H H'.
  - destruct p; [|simpl in H; lia]. by destruct fuel'.
  - destruct fuel' as [|fuel'].
    + destruct p; [|simpl in H'; lia]. reflexivity.
    + cbn [blocks]. destruct (64 <=? length p)%nat eqn:E; [|done].
      apply Nat.leb_le in E.
      apply IH; rewrite length_skipn; lia.
Qed.

(** Hashing what is left of [p] followed by [q] is hashing [p ++ q]. *)
Lemma blocks_app fuel : forall s p q,
  (length p <= fuel)%nat ->
  blocks (length ((blocks fuel s p).2 ++ q))
         (blocks fuel s p).1 ((blocks fuel s p).2 ++ q)
  = blocks (length (p ++ q)) s (p ++ q).
Proof.
  induction fuel as [|fuel IH]; intros s p q H.
  - destruct p; [|simpl in H; lia]. reflexivity.
  - cbn [blocks fst snd]. destruct (64 <=? length p)%nat eqn:E; [|done].
    apply Nat.leb_le in E.
    rewrite IH by (rewrite length_skipn; lia).
    rewrite (blocks_fuel (length (p ++ q)) (S (length (p ++ q))) s (p ++ q))
      by lia.
    cbn [blocks].
    assert ((64 <=? length (p ++ q))%nat = true) as ->.
    { apply Nat.leb_le. rewrite length_app. lia. }
    rewrite firstn_app, skipn_app.
    replace (64 - length p)%nat with 0%nat by lia.
    rewrite take_0, drop_0, app_nil_r.
    apply blocks_fuel; [done|].
    rewrite !length_app, length_drop. lia.
Qed.

(** Two [Write]s hash the concatenation. *)
Lemma Write_app d p q : Write (Write d p) q = Write d (p ++ q).
Proof.
  unfold Write.
  pose proof (blocks_app (length (dx d ++ p)) (dh d) (dx d ++ p) q (le_n _)) as H.
  destruct (blocks (length (dx d ++ p)) (dh d) (dx d ++ p)) as [s r] eqn:E1.
  cbn [dh dx dlen fst snd] in *.
  rewrite H, <- app_assoc.
  destruct (blocks _ (dh d) (dx d ++ p ++ q)) as [s' r'].
  f_equal. rewrite length_app, Nat2Z.inj_add.
  rewrite Zplus_mod_idemp_l. f_equal. lia.
Qed.

Lemma be_bytes_length n z : length (be_bytes n z) = n.
Proof. unfold be_bytes. by rewrite length_map, length_rev, length_seq. Qed.

(** A digest is 32 bytes long, whatever was written. *)
Lemma Sum_length d : length (Sum d) = 32%nat.
Proof.
  unfold Sum, state_bytes. rewrite !length_app, !be_bytes_length. reflexivity.
Qed.

End Digest.

Lemma bytes_of_string_app s t :
  bytes_of_string (s ++ t) = (bytes_of_string s ++ bytes_of_string t)%list.
Proof.
  unfold bytes_of_string, list_byte_of_string.
  induction s as [|c s IH]; simpl; [done|]. by rewrite IH.
Qed.

Lemma EncodeToString_length src :
  String.length (Hex.EncodeToString src) = (2 * length src)%nat.
Proof. induction src as [|v src IH]; simpl; [done|]. rewrite IH. lia. Qed.

Lemma digit_is_hex n : Hex.is_hex (Hex.digit n) = true.
Proof.
  unfold Hex.digit. generalize (Z.to_nat n) as k. intros k.
  do 16 (destruct k as [|k]; [reflexivity|]). reflexivity.
Qed.

Lemma EncodeToString_hex src : all_hex (Hex.EncodeToString src).
Proof.
  induction src as [|v src IH]; simpl; [constructor|].
  repeat constructor; auto using digit_is_hex.
Qed.

Lemma substring_prefix_length n s :
  (n <= String.length s)%nat -> String.length (substring 0 n s) = n.
Proof.
  revert s. induction n as [|n IH]; intros [|c s] H; simpl in *; try lia; try done.
  rewrite IH; lia.
Qed.

Lemma substring_prefix_Forall (P : ascii -> Prop) n s :
  Forall P (list_ascii_of_string s) ->
  Forall P (list_ascii_of_string (substring 0 n s)).
Proof.
  revert s. induction n as [|n IH]; intros [|c s] H; simpl; try constructor.
  - by inversion H.
  - apply IH. by inversion H.
Qed.

(** The bounds check of [prefix[:10]] never fails, because the hex digest
    has 64 characters, and the two [Write]s hash [project ++ topic]. *)
Lemma makeTopicID_checked_Some project topic :
  makeTopicID_checked project topic = Some (makeTopicID project topic)
  /\ makeTopicID project topic
     = substring 0 10 (Hex.EncodeToString (Sha256.Sum
         (Sha256.Write Sha256.New (bytes_of_string (project ++ topic))))).
Proof.
  unfold makeTopicID, makeTopicID_checked, slice_to.
  rewrite Write_app, <- bytes_of_string_app.
  rewrite EncodeToString_length, Sum_length. simpl. done.
Qed.

Lemma makeTopicID_length project topic :
  String.length (makeTopicID project topic) = 10%nat.
Proof.
  destruct (makeTopicID_checked_Some project topic) as [_ ->].
  apply substring_prefix_length.
  rewrite EncodeToString_length, Sum_length. lia.
Qed.

Lemma makeTopicID_hex project topic : all_hex (makeTopicID project topic).
Proof.
  destruct (makeTopicID_checked_Some project topic) as [_ ->].
  apply substring_prefix_Forall, EncodeToString_hex.
Qed.

Lemma makeEvent_id now topicID msg :
  evID (makeEvent now topicID msg) = topicID ++ "-" ++ msgID msg.
Proof. unfold makeEvent. by case_match. Qed.

Lemma makeEvent_event_field now topicID msg :
  evFields (makeEvent now topicID msg) !! "event"
  = Some (VMap (<["id" := VString (topicID ++ "-" ++ msgID msg)]>
                (<["created" := VTime (UTC now)]> ∅))).
Proof. unfold makeEvent. case_match; by simplify_map_eq. Qed.

(** ** C8 *)

Lemma string_of_bytes_roundtrip b : bytes_of_string (string_of_bytes b) = b.
Proof. apply list_byte_of_string_of_list_byte. Qed.

(** C8.  For every message, [makeEvent] sets the timestamp to the
    publish time in UTC (same instant), [event.created] to the clock
    reading in UTC, [message] to the payload bytes read as a string, and
    [labels] to the attributes when there is at least one attribute; with
    no attribute there is no [labels] field. *)
Theorem C8_event_fields (now : Time) (topicID : string) (msg : Message) :
  let e := makeEvent now topicID msg in
  evTimestamp e = UTC (msgPublishTime msg)
  /\ instant (evTimestamp e) = instant (msgPublishTime msg)
  /\ location (evTimestamp e) = "UTC"
  /\ (exists fields, evFields e !! "event" = Some (VMap fields)
        /\ fields !! "created" = Some (VTime (UTC now)))
  /\ evFields e !! "message" = Some (VString (string_of_bytes (msgData msg)))
  /\ bytes_of_string (string_of_bytes (msgData msg)) = msgData msg
  /\ evFields e !! "labels"
     = (if decide (msgAttributes msg = ∅) then None
        else Some (VLabels (msgAttributes msg)))
  /\ evPrivate e = PrivMessage msg.
Proof.
  intros e. subst e.
  split; [unfold makeEvent; by case_match|].
  split; [unfold makeEvent; by case_match|].
  split; [unfold makeEvent; by case_match|].
  split.
  { eexists. split; [apply makeEvent_event_field|]. by simplify_map_eq. }
  split; [unfold makeEvent; case_match; by simplify_map_eq|].
  split; [apply string_of_bytes_roundtrip|].
  split; [|unfold makeEvent; by case_match].
  unfold makeEvent.
  destruct (0 <? Z.of_nat (size (msgAttributes msg))) eqn:E; case_decide;
    simplify_map_eq; try done.
  - apply Z.ltb_lt in E. rewrite H, map_size_empty in E. lia.
  - apply Z.ltb_ge in E.
    assert (size (msgAttributes msg) = 0%nat) as Hs by lia.
    by apply map_size_empty_iff in Hs.
Qed.

(** ** C10: [MutuallyExclusiveRequiredFields] *)

Section MutuallyExclusive.
Import Checks.

Lemma length_zero_empty s : (String.length s =? 0)%nat = true <-> s = "".
Proof. destruct s; simpl; split; intros; congruence. Qed.

Lemma scan_fields_absent field fields foundField :
  field ∉ fields -> scan_fields field fields foundField = inr foundField.
Proof.
  induction fields as [|f fields IH]; intros Hn; simpl; [done|].
  apply not_elem_of_cons in Hn as [Hne Hn].
  destruct (String.eqb_spec field f); [done|]. auto.
Qed.

(** With distinct names the inner loop matches at most once. *)
Lemma scan_fields_present field fields foundField :
  NoDup fields -> field ∈ fields ->
  scan_fields field fields foundField
  = if (String.length foundField =? 0)%nat then inr field
    else inl (exclusive_error foundField field).
Proof.
  induction fields as [|f fields IH]; intros Hd Hin; [by apply elem_of_nil in Hin|].
  apply NoDup_cons in Hd as [Hf Hd]. simpl.
  destruct (String.eqb_spec field f) as [->|Hne].
  - destruct (String.length foundField =? 0)%nat; [|done].
    by apply scan_fields_absent.
  - apply elem_of_cons in Hin as [?|Hin]; [done|]. auto.
Qed.

(** Once a non-empty name is recorded, the next match is the error. *)
Lemma scan_config_found cfgFields fields foundField :
  NoDup fields -> foundField <> "" ->
  scan_config cfgFields fields foundField
  = match filter (fun field => field ∈ fields) cfgFields with
    | [] => inr foundField
    | b :: _ => inl (exclusive_error foundField b)
    end.
Proof.
  intros Hd Hne. induction cfgFields as [|field rest IH]; [done|].
  simpl. rewrite filter_cons. case_decide as Hin.
  - rewrite scan_fields_present by done.
    destruct (String.length foundField =? 0)%nat eqn:E; [|done].
    by apply length_zero_empty in E.
  - by rewrite scan_fields_absent.
Qed.

Lemma scan_config_fresh cfgFields fields :
  NoDup fields ->
  "" ∉ filter (fun field => field ∈ fields) cfgFields ->
  scan_config cfgFields fields ""
  = match filter (fun field => field ∈ fields) cfgFields with
    | [] => inr ""
    | [a] => inr a
    | a :: b :: _ => inl (exclusive_error a b)
    end.
Proof.
  intros Hd. induction cfgFields as [|field rest IH]; [done|].
  simpl. rewrite filter_cons. case_decide as Hin; intros He.
  - apply not_elem_of_cons in He as [Hne He].
    rewrite scan_fields_present by done. simpl.
    rewrite scan_config_found by done.
    by destruct (filter _ rest).
  - rewrite scan_fields_absent by done. auto.
Qed.

Lemma singleton_of_unique (l : list string) x :
  NoDup l -> x ∈ l -> (forall y, y ∈ l -> y = x) -> l = [x].
Proof.
  intros Hd Hx Hall. destruct l as [|a l]; [by apply elem_of_nil in Hx|].
  assert (a = x) as -> by (apply Hall; left).
  destruct l as [|b l]; [done|].
  assert (b = x) as -> by (apply Hall; right; left).
  apply NoDup_cons in Hd as [Hd _]. exfalso. apply Hd. left.
Qed.

Lemma occurring_single fields cfg :
  (exists f, occurring fields cfg = [f]) <-> exactly_one_occurs fields cfg.
Proof.
  pose proof (keys_distinct cfg) as Hd.
  unfold occurring, exactly_one_occurs. split.
  - intros [f Hf]. exists f.
    assert (Hin : f ∈ filter (fun field => field ∈ fields) (GetFields cfg))
      by (rewrite Hf; left).
    apply list_elem_of_filter in Hin as [H1 H2]. repeat split; try done.
    intros g Hg1 Hg2.
    assert (Hg : g ∈ filter (fun field => field ∈ fields) (GetFields cfg))
      by (by apply list_elem_of_filter).
    rewrite Hf in Hg. by apply list_elem_of_singleton in Hg.
  - intros (f & H1 & H2 & Hu). exists f. apply singleton_of_unique.
    + by apply NoDup_filter.
    + by apply list_elem_of_filter.
    + intros y Hy. apply list_elem_of_filter in Hy as [? ?]. auto.
Qed.

(** X21.  Apart from the empty name the check does what its docstring
    says.  For every configuration and distinct candidate names, provided the
    empty name is not both a candidate and a key: the result is nil
    exactly when exactly one candidate is a key; when two or more are,
    the error names the first two of them in the order of [GetFields];
    when none is, the error is the missing-option one with all the
    candidates. *)
Theorem exclusive_apart_from_empty_name (fields : list string) (cfg : C) :
  NoDup fields ->
  ~ ("" ∈ fields /\ "" ∈ GetFields cfg) ->
  (MutuallyExclusiveRequiredFields fields cfg = None
     <-> exactly_one_occurs fields cfg)
  /\ (forall a b rest, occurring fields cfg = a :: b :: rest ->
        MutuallyExclusiveRequiredFields fields cfg
        = Some (ErrNew ("field " ++ a ++ " and " ++ b ++ " are mutually exclusive")))
  /\ (occurring fields cfg = [] ->
        MutuallyExclusiveRequiredFields fields cfg
        = Some (ErrNew ("missing option, select one from "
                        ++ "[" ++ String.concat " " fields ++ "]"))).
Proof.
  intros Hf Hempty.
  assert (He : "" ∉ filter (fun field => field ∈ fields) (GetFields cfg)).
  { intros Hin. apply list_elem_of_filter in Hin as [? ?]. by apply Hempty. }
  rewrite <- occurring_single.
  unfold MutuallyExclusiveRequiredFields, occurring in *.
  rewrite scan_config_fresh by done.
  destruct (filter _ (GetFields cfg)) as [|a [|b rest]] eqn:E.
  - split; [|split]; try done. split; [done|]. by intros [f Hf'].
  - assert (a <> "") as Ha.
    { intros ->. apply He. left. }
    destruct (String.length a =? 0)%nat eqn:El.
    { by apply length_zero_empty in El. }
    split; [|split]; try done. split; [eauto|done].
  - split; [|split]; try done.
    + split; [done|]. by intros [f Hf'].
    + intros a' b' rest' [= -> -> ->]. done.
Qed.

Lemma exclusive_apart_from_empty_name_witness :
  MutuallyExclusiveRequiredFields ["a"; "b"] two_key_config = None
  /\ exactly_one_occurs ["a"; "b"] two_key_config.
Proof.
  split; [reflexivity|].
  apply (exclusive_apart_from_empty_name ["a"; "b"] two_key_config);
    [| |reflexivity].
  - apply NoDup_cons. split; [|apply NoDup_singleton].
    intros H. apply list_elem_of_singleton in H. discriminate H.
  - intros [H _]. apply elem_of_cons in H as [H|H]; [discriminate H|].
    apply list_elem_of_singleton in H. discriminate H.
Defined.

(** C10.  The code misses what its docstring and the claim say when
    the empty name is a candidate and a key: [foundField] being empty
    is its mark for "nothing found yet", so a match on the empty name
    is not recorded.  With the distinct candidates [""] and [a] and a
    configuration whose keys are [""] and [a], in this order of
    [GetFields], two candidates occur and the result is nil, not the
    error naming the two; with the keys in the other order the result
    is that error.  With the single candidate [""] and a configuration
    whose only key is [""], exactly one candidate occurs and the
    result is the missing-option error, not nil. *)
Theorem C10_empty_name_dropped :
  NoDup [""; "a"]
  /\ occurring [""; "a"] empty_first_config = [""; "a"]
  /\ ~ exactly_one_occurs [""; "a"] empty_first_config
  /\ MutuallyExclusiveRequiredFields [""; "a"] empty_first_config = None
  /\ occurring [""; "a"] empty_last_config = ["a"; ""]
  /\ MutuallyExclusiveRequiredFields [""; "a"] empty_last_config
     = Some (ErrNew "field a and  are mutually exclusive")
  /\ NoDup [""]
  /\ exactly_one_occurs [""] empty_key_config
  /\ MutuallyExclusiveRequiredFields [""] empty_key_config
     = Some (ErrNew "missing option, select one from []").
Proof.
  assert (Hd : NoDup [""; "a"]).
  { apply NoDup_cons. split; [|apply NoDup_singleton].
    intros H. apply list_elem_of_singleton in H. discriminate H. }
  split; [exact Hd|]. split; [reflexivity|]. split.
  { intros (f & _ & _ & Hu).
    assert (H1 : "" = f) by (apply Hu; [left|left]).
    assert (H2 : "a" = f) by (apply Hu; [right; left|right; left]).
    congruence. }
  split; [reflexivity|]. split; [reflexivity|]. split; [reflexivity|].
  split; [apply NoDup_singleton|]. split; [|reflexivity].
  exists "". repeat split; try by left.
  intros g Hg _. by apply list_elem_of_singleton in Hg.
Qed.

End MutuallyExclusive.

(** ** Stepping the transition system *)

Lemma lookup_set_worker s j w w' :
  workers s !! j = Some w -> workers (set_worker j w' s) !! j = Some w'.
Proof.
  intros H. cbn. apply list_lookup_insert_eq. by eapply lookup_lt_Some.
Qed.

Lemma exec_app cfg ls ls' s :
  exec cfg (ls ++ ls') s
  = match exec cfg ls s with Some s' => exec cfg ls' s' | None => None end.
Proof.
  revert s. induction ls as [|l ls IH]; intros s; simpl; [done|].
  destruct (step cfg l s); auto.
Qed.

Lemma lookup_set_handler w k h h' :
  handlers w !! k = Some h -> handlers (set_handler k h' w) !! k = Some h'.
Proof.
  intros H. cbn. apply list_lookup_insert_eq. by eapply lookup_lt_Some.
Qed.

(** One statement of worker [j], then the rest of the schedule. *)
Lemma exec_worker cfg j r ls s w :
  workers s !! j = Some w ->
  exec cfg (LWorker j r :: ls) s
  = match worker_step cfg j w r s with
    | Some s' => exec cfg ls s'
    | None => None
    end.
Proof. intros H. cbn [exec step]. by rewrite H. Qed.

(** ** C5: the subscription manager *)

(** C5.  [getOrCreateSubscription], when the existence check itself
    succeeds: an existing subscription is returned and nothing is
    created; a missing one is created for the configured topic and
    returned when creation is enabled (and the creation call succeeds);
    with creation disabled the result is the "no subscription exists"
    error and the service is left as it was.  When [run] gets that error
    and the worker context is not cancelled, the watchdog reports
    [Degraded], logs a warning and is back at the rate limiter's [Wait]
    for the next attempt: the worker goroutine goes on. *)
Theorem C5_subscription_manager (cfg : config) (s : System) (j : nat) (w : Worker) :
  workers s !! j = Some w ->
  wat w = W_GetSub ->
  workerCancelled (inp s) = false ->
  let name := SubscriptionName cfg in
  let sub := MkSubscription name 0 0 in
  (forall sv createErr, is_Some (sv !! name) ->
     getOrCreateSubscription cfg None createErr sv = (inr sub, sv, []))
  /\ (forall sv, sv !! name = None -> SubscriptionCreate cfg = true ->
        getOrCreateSubscription cfg None None sv
        = (inr sub, <[name := Topic cfg]> sv,
           [(Debug, "Created new subscription.", None)]))
  /\ (forall sv createErr, sv !! name = None -> SubscriptionCreate cfg = false ->
        getOrCreateSubscription cfg None createErr sv
        = (inl no_subscription, sv, []))
  /\ (service (world s) !! name = None -> SubscriptionCreate cfg = false ->
      exists s',
        exec cfg (worker_runs j NoReply 4) s = Some s'
        /\ workers s' !! j = Some (set_wat W_Wait (set_runCancelled true w))
        /\ length (workers s') = length (workers s)
        /\ inp s' = inp s
        /\ service (world s') = service (world s)
        /\ current_status s'
           = Some (Degraded,
                   "failed to subscribe to pub/sub topic: " ++ Error no_subscription)
        /\ log (world s')
           = (Warn, "Restarting failed Pub/Sub input worker.",
              Some (ErrWrap "failed to subscribe to pub/sub topic: " no_subscription))
             :: log (world s)).
Proof.
  intros Hw Hat Hc name sub.
  split; [|split; [|split]].
  - intros sv createErr Hs. unfold getOrCreateSubscription.
    by rewrite bool_decide_eq_true_2.
  - intros sv Hs Hcreate. unfold getOrCreateSubscription.
    rewrite bool_decide_eq_false_2, Hcreate; [done|].
    fold name. rewrite Hs. by intros [? ?].
  - intros sv createErr Hs Hcreate. unfold getOrCreateSubscription.
    rewrite bool_decide_eq_false_2, Hcreate; [done|].
    fold name. rewrite Hs. by intros [? ?].
  - intros Hs Hcreate. unfold worker_runs. cbn [repeat].
    rewrite (exec_worker _ _ _ _ _ _ Hw). unfold worker_step. rewrite Hat.
    unfold getOrCreateSubscription.
    rewrite bool_decide_eq_false_2, Hcreate
      by (fold name; rewrite Hs; by intros [? ?]).
    match goal with |- context [exec _ _ ?s1] => set (s1' := s1) end.
    erewrite (exec_worker _ _ _ _ s1');
      [|subst s1'; by eapply lookup_set_worker].
    cbn [worker_step wat set_wat].
    match goal with |- context [exec _ _ ?s2] => set (s2' := s2) end.
    erewrite (exec_worker _ _ _ _ s2');
      [|subst s2' s1'; eapply lookup_set_worker, lookup_set_worker, Hw].
    cbn [worker_step wat set_wat set_runCancelled].
    assert (workerCancelled (inp s2') = false) as -> by (subst s2' s1'; exact Hc).
    cbn [negb].
    match goal with |- context [exec _ _ ?s3] => set (s3' := s3) end.
    erewrite (exec_worker _ _ _ _ s3');
      [|subst s3' s2' s1'; do 3 eapply lookup_set_worker; exact Hw].
    cbn [worker_step wat set_wat].
    assert (workerCancelled (inp s3') = false) as -> by (subst s3' s2' s1'; exact Hc).
    eexists. split; [reflexivity|].
    subst s3' s2' s1'. cbn.
    rewrite !list_insert_insert_eq, !length_insert.
    split; [apply list_lookup_insert_eq; by eapply lookup_lt_Some|].
    by destruct w; simplify_eq/=.
Qed.

Lemma C5_subscription_manager_witness :
  exists s',
    exec sample_config (worker_runs 0 NoReply 4) (sample_system W_GetSub [])
    = Some s'
    /\ wat <$> workers s' !! 0%nat = Some W_Wait
    /\ current_status s'
       = Some (Degraded,
               "failed to subscribe to pub/sub topic: no subscription exists and 'subscription.create' is not enabled").
Proof.
  destruct (C5_subscription_manager sample_config (sample_system W_GetSub []) 0
              (MkWorker W_GetSub (MkLimiter 0 (- retryInterval)) false [] [(0, 0)])
              eq_refl eq_refl eq_refl)
    as (_ & _ & _ & H).
  destruct (H eq_refl eq_refl) as (s' & H1 & H2 & _ & _ & _ & H3 & _).
  exists s'. split; [exact H1|]. split; [|exact H3].
  rewrite H2. reflexivity.
Defined.

(** ** C6: the watchdog's classification of an attempt's error *)

(** C6.  When [in.run()] has returned the error [e], what the watchdog
    does depends on [e] and on the worker context alone.  Context not
    cancelled: a warning with [e] is logged and the loop goes on to the
    rate limiter's [Wait] for a new attempt.  Context cancelled: nothing
    is logged when [e] is [context.Canceled] (also wrapped), otherwise an
    error line with [e] is logged; then the loop condition fails and the
    goroutine goes to its deferred calls.  No status is reported and the
    shared state of the input is not touched. *)
Theorem C6_watchdog_classification (cfg : config) (s : System) (j : nat)
    (w : Worker) (e : error) (r r' : reply) :
  workers s !! j = Some w ->
  wat w = W_Check (Some e) ->
  exists s1 s2,
    step cfg (LWorker j r) s = Some s1
    /\ workers s1 !! j = Some (set_wat W_Loop w)
    /\ log (world s1)
       = (if workerCancelled (inp s)
          then if Is_Canceled e then log (world s)
               else (ErrorLevel, "Pub/Sub input worker failed.", Some e)
                    :: log (world s)
          else (Warn, "Restarting failed Pub/Sub input worker.", Some e)
               :: log (world s))
    /\ statusLog (world s1) = statusLog (world s)
    /\ inp s1 = inp s /\ threads s1 = threads s
    /\ step cfg (LWorker j r') s1 = Some s2
    /\ workers s2 !! j
       = Some (set_wat (if workerCancelled (inp s) then W_D_Cancel else W_Wait) w)
    /\ world s2 = world s1 /\ inp s2 = inp s
    /\ Is_Canceled ErrCanceled = true
    /\ (forall prefix, Is_Canceled (ErrWrap prefix e) = Is_Canceled e).
Proof.
  intros Hw Hat.
  pose (w1 := if workerCancelled (inp s)
              then if Is_Canceled e then world s
                   else Log ErrorLevel "Pub/Sub input worker failed." (Some e) (world s)
              else Log Warn "Restarting failed Pub/Sub input worker." (Some e) (world s)).
  pose (s1 := set_worker j (set_wat W_Loop w) (set_world w1 s)).
  assert (H1 : step cfg (LWorker j r) s = Some s1).
  { cbn [step]. rewrite Hw. unfold worker_step. rewrite Hat. subst s1 w1.
    destruct (workerCancelled (inp s)); cbn [negb];
      [destruct (Is_Canceled e); cbn [negb]|]; try done.
    all: by destruct s. }
  assert (Hw1 : workers s1 !! j = Some (set_wat W_Loop w)).
  { subst s1. eapply lookup_set_worker. exact Hw. }
  exists s1.
  exists (set_worker j
            (set_wat (if workerCancelled (inp s) then W_D_Cancel else W_Wait) w) s1).
  split; [exact H1|]. split; [exact Hw1|].
  split; [subst s1 w1; cbn; by repeat case_match|].
  split; [subst s1 w1; cbn; by repeat case_match|].
  split; [done|]. split; [done|].
  split.
  { cbn [step]. rewrite Hw1. unfold worker_step. cbn [wat set_wat].
    replace (inp s1) with (inp s) by done. by destruct (workerCancelled (inp s)). }
  split; [eapply lookup_set_worker; exact Hw1|].
  done.
Qed.

Lemma C6_watchdog_classification_witness :
  exists s1,
    step sample_config (LWorker 0 NoReply)
      (sample_system (W_Check (Some (ErrNew "receive failed"))) [])
    = Some s1
    /\ head (log (world s1))
       = Some (Warn, "Restarting failed Pub/Sub input worker.",
               Some (ErrNew "receive failed")).
Proof.
  destruct (C6_watchdog_classification sample_config
              (sample_system (W_Check (Some (ErrNew "receive failed"))) []) 0
              (MkWorker (W_Check (Some (ErrNew "receive failed")))
                 (MkLimiter 0 (- retryInterval)) false [] [(0, 0)])
              (ErrNew "receive failed") NoReply NoReply eq_refl eq_refl)
    as (s1 & s2 & H1 & _ & H2 & _).
  exists s1. split; [exact H1|]. rewrite H2. reflexivity.
Defined.

(** ** C7: the acknowledgment callback *)

Lemma ack_callback_acks privates : forall m w,
  acks (ack_callback privates (m, w)).2 = (rev (messages_of privates) ++ acks w)%list
  /\ nacks (ack_callback privates (m, w)).2 = nacks w
  /\ ackedMessageCount (ack_callback privates (m, w)).1
     = ackedMessageCount m + Z.of_nat (length (messages_of privates))
  /\ failedAckedMessageCount (ack_callback privates (m, w)).1
     = failedAckedMessageCount m
       + Z.of_nat (count_other privates)
  /\ nackedMessageCount (ack_callback privates (m, w)).1 = nackedMessageCount m.
Proof.
  induction privates as [|p ps IH]; intros m w.
  - cbn. repeat split; lia.
  - change (ack_callback (p :: ps) (m, w))
      with (ack_callback ps (ack_private p (m, w))).
    destruct (ack_private p (m, w)) as [m' w'] eqn:E.
    destruct (IH m' w') as (-> & -> & -> & -> & ->).
    destruct p as [msg|]; cbn in E; simplify_eq; cbn.
    + rewrite <- app_assoc. cbn. fold (messages_of ps). repeat split; lia.
    + fold (messages_of ps). repeat split; lia.
Qed.

(** The receive callback leaves the ack side alone, whatever the sink
    answers. *)
Lemma handler_step_acked cfg j k ok s s' :
  step cfg (LHandler j k ok) s = Some s' ->
  acks (world s') = acks (world s)
  /\ ackedMessageCount <$> metrics (inp s') = ackedMessageCount <$> metrics (inp s).
Proof.
  cbn [step]. unfold handler_step. intros H.
  repeat case_match; simplify_eq/=; done.
Qed.

Lemma fold_Log_nacks (lines : list LogEntry) w :
  nacks (foldr (fun '(l, m, e) => Log l m e) w lines) = nacks w.
Proof. induction lines as [|[[l m] e] lines IH]; [done|]. cbn. exact IH. Qed.

(** Only the statement [msg.Nack()] of the receive callback, which
    follows an [OnEvent] that answered false, nacks a message. *)
Lemma nack_only_in_callback cfg l s s' :
  step cfg l s = Some s' ->
  nacks (world s') = nacks (world s)
  \/ exists j k ok w h,
       l = LHandler j k ok /\ workers s !! j = Some w
       /\ handlers w !! k = Some h /\ hat h = H_Nack
       /\ nacks (world s') = hmsg h :: nacks (world s).
Proof.
  intros H. destruct l; cbn [step] in H.
  - left. case_match; by simplify_eq.
  - left. unfold parent_step in H. case_match; by simplify_eq.
  - left. destruct (threads s !! i) as [t|]; [|done].
    unfold thread_step in H. repeat case_match; by simplify_eq.
  - left. destruct (workers s !! j) as [w|]; [|done].
    unfold worker_step in H.
    repeat case_match; simplify_eq; cbn -[foldr]; by rewrite ?fold_Log_nacks.
  - left. destruct (workers s !! j) as [w|]; [|done].
    case_match; by simplify_eq.
  - destruct (workers s !! j) as [w|] eqn:Hw; [|done].
    destruct (handlers w !! k) as [h|] eqn:Hh; [|done].
    unfold handler_step in H.
    destruct (wat w); try done.
    destruct (hat h) eqn:Hhat; repeat case_match; simplify_eq;
      try (by left).
    right. by exists j, k, ok, w, h.
  - left. destruct (metrics (inp s)) as [m|]; [|done].
    destruct (ack_callback_acks privates m (world s)) as (_ & Hn & _).
    destruct (ack_callback privates (m, world s)) as [m' w'].
    by simplify_eq.
Qed.

(** C7.  The ACK callback, for one back-reference: a message is acked
    once, the acked counter goes up by one, the bytes counter by the
    payload length, and the latency (clock minus publish time) is
    recorded; anything else bumps the failed-ack counter by one and logs
    an error, with no ack and no nack.  For a batch the acks are those of
    its messages, in order, each counted once.  No statement of the
    receive callback, with the sink accepting or rejecting, acks a
    message or touches the acked counter; and no statement of the input
    nacks a message but the [msg.Nack()] of the receive callback, which
    is reached only after [OnEvent] has answered false. *)
Theorem C7_acknowledgment_bridge (m : inputMetrics) (w : World) (msg : Message)
    (privates : list private) (cfg : config) (j k : nat) (ok : bool)
    (s s' : System) :
  step cfg (LHandler j k ok) s = Some s' ->
  (let r := ack_private (PrivMessage msg) (m, w) in
   acks r.2 = msg :: acks w
   /\ nacks r.2 = nacks w
   /\ ackedMessageCount r.1 = ackedMessageCount m + 1
   /\ bytesProcessedTotal r.1
      = bytesProcessedTotal m + Z.of_nat (length (msgData msg))
   /\ processingTime r.1
      = Since (clock w) (msgPublishTime msg) :: processingTime m
   /\ failedAckedMessageCount r.1 = failedAckedMessageCount m
   /\ nackedMessageCount r.1 = nackedMessageCount m
   /\ log r.2 = log w)
  /\ (let r := ack_private PrivOther (m, w) in
      failedAckedMessageCount r.1 = failedAckedMessageCount m + 1
      /\ log r.2 = (ErrorLevel, "Failed ACKing pub/sub event", None) :: log w
      /\ acks r.2 = acks w /\ nacks r.2 = nacks w
      /\ ackedMessageCount r.1 = ackedMessageCount m
      /\ bytesProcessedTotal r.1 = bytesProcessedTotal m
      /\ processingTime r.1 = processingTime m)
  /\ (let r := ack_callback privates (m, w) in
      acks r.2 = (rev (messages_of privates) ++ acks w)%list
      /\ nacks r.2 = nacks w
      /\ ackedMessageCount r.1
         = ackedMessageCount m + Z.of_nat (length (messages_of privates))
      /\ failedAckedMessageCount r.1
         = failedAckedMessageCount m
           + Z.of_nat (count_other privates))
  /\ acks (world s') = acks (world s)
  /\ ackedMessageCount <$> metrics (inp s') = ackedMessageCount <$> metrics (inp s)
  /\ (forall l s1 s2, step cfg l s1 = Some s2 ->
        nacks (world s2) = nacks (world s1)
        \/ exists j k ok w h,
             l = LHandler j k ok /\ workers s1 !! j = Some w
             /\ handlers w !! k = Some h /\ hat h = H_Nack
             /\ nacks (world s2) = hmsg h :: nacks (world s1))
  /\ (forall j k ok w h s1 s2,
        workers s1 !! j = Some w -> handlers w !! k = Some h ->
        hat h = H_OnEvent -> step cfg (LHandler j k ok) s1 = Some s2 ->
        exists w', workers s2 !! j = Some w'
          /\ handlers w' !! k
             = Some (MkHandler (if ok then H_Done else H_Nack) (hmsg h))).
Proof.
  intros Hstep.
  split; [cbn; done|]. split; [cbn; done|].
  split.
  { cbn zeta. destruct (ack_callback_acks privates m w) as (?&?&?&?&?). done. }
  destruct (handler_step_acked _ _ _ _ _ _ Hstep) as [Ha Hc].
  split; [exact Ha|]. split; [exact Hc|].
  split; [intros l s1 s2; apply nack_only_in_callback|].
  intros j0 k0 ok0 w0 h0 s1 s2 Hw Hh Hpc Hs. cbn [step] in Hs.
  rewrite Hw, Hh in Hs. unfold handler_step in Hs. rewrite Hpc in Hs.
  destruct (wat w0); try done. simplify_eq.
  eexists. split; [by eapply lookup_set_worker|].
  by eapply lookup_set_handler.
Qed.

Lemma C7_acknowledgment_bridge_witness :
  exists s',
    step sample_config (LHandler 0 0 false)
      (sample_system (W_Receive sample_sub "3de302dac5") [MkHandler H_OnEvent sample_message])
    = Some s'
    /\ acks (world s') = []
    /\ ackedMessageCount <$> metrics (inp s') = Some 0.
Proof.
  destruct (C7_acknowledgment_bridge newInputMetrics
              (world (sample_system W_Exit [])) sample_message [] sample_config
              0 0 false
              (sample_system (W_Receive sample_sub "3de302dac5")
                 [MkHandler H_OnEvent sample_message]) _ eq_refl)
    as (_ & _ & _ & Ha & Hc & _).
  eexists. split; [reflexivity|]. split; [exact Ha | exact Hc].
Defined.

(** ** Invariants *)

(** A property that holds initially and is kept by every transition
    holds after every schedule. *)
Lemma exec_invariant cfg (P : System -> Prop) :
  (forall l s s', P s -> step cfg l s = Some s' -> P s') ->
  forall ls s s', P s -> exec cfg ls s = Some s' -> P s'.
Proof.
  intros Hstep ls. induction ls as [|l ls IH]; intros s s' HP H; cbn in H.
  - by simplify_eq.
  - destruct (step cfg l s) as [s1|] eqn:E; [|done]. eauto.
Qed.

Lemma ack_callback_now privates : forall m w,
  now (ack_callback privates (m, w)).2 = now w.
Proof.
  induction privates as [|p ps IH]; intros m w; [done|].
  change (ack_callback (p :: ps) (m, w))
    with (ack_callback ps (ack_private p (m, w))).
  destruct (ack_private p (m, w)) as [m' w'] eqn:E. rewrite IH.
  destruct p; cbn in E; by simplify_eq.
Qed.



Lemma fold_Log_now (lines : list LogEntry) w :
  now (foldr (fun '(l, m, e) => Log l m e) w lines) = now w.
Proof. induction lines as [|[[l m] e] lines IH]; [done|]. cbn. exact IH. Qed.

Ltac bools :=
  repeat match goal with
  | H : (_ =? _) = true |- _ => apply Z.eqb_eq in H
  | H : (_ =? _) = false |- _ => apply Z.eqb_neq in H
  | H : (_ <=? _) = true |- _ => apply Z.leb_le in H
  | H : (_ <=? _) = false |- _ => apply Z.leb_gt in H
  | H : (_ <? _) = true |- _ => apply Z.ltb_lt in H
  | H : (_ <? _) = false |- _ => apply Z.ltb_ge in H
  end.


Lemma limiter_ok_new t : limiter_ok t new_worker.
Proof. by split. Qed.




(** ** The bookkeeping of [workerOnce], [workerWg] and [metrics] *)

Section Totals.
Context {A : Type}.
Implicit Types (f g : A -> nat) (l : list A).

Lemma tally_insert f l i x y :
  l !! i = Some x -> (tally f (<[i := y]> l) + f x = tally f l + f y)%nat.
Proof.
  revert i. induction l as [|a l IH]; intros [|i] H; simplify_eq/=.
  - unfold tally. cbn. lia.
  - specialize (IH i H). unfold tally in *. cbn. lia.
Qed.

Lemma tally_le f g l : (forall x, f x <= g x)%nat -> (tally f l <= tally g l)%nat.
Proof.
  intros H. induction l as [|a l IH]; unfold tally in *; cbn; [done|].
  specialize (H a). lia.
Qed.

Lemma tally_snoc f l x : tally f (l ++ [x]) = (tally f l + f x)%nat.
Proof. unfold tally. rewrite sum_list_with_app. cbn. lia. Qed.

Lemma tally_lookup f l i x : l !! i = Some x -> (f x <= tally f l)%nat.
Proof.
  revert i. induction l as [|a l IH]; intros [|i] H; simplify_eq/=.
  - unfold tally. cbn. lia.
  - specialize (IH i H). unfold tally in *. cbn. lia.
Qed.

(** A tally of one is contributed by some element. *)
Lemma tally_positive f l :
  (0 < tally f l)%nat -> exists i x, l !! i = Some x /\ (0 < f x)%nat.
Proof.
  induction l as [|a l IH]; unfold tally in *; cbn; [lia|]. intros H.
  destruct (f a) eqn:E.
  - destruct IH as (i & x & Hi & Hx); [lia|]. by exists (S i), x.
  - exists 0%nat, a. split; [done|]. lia.
Qed.
End Totals.

Lemma tally_live_cancel ws :
  tally live (map (set_runCancelled true) ws) = tally live ws.
Proof. induction ws as [|w ws IH]; unfold tally in *; cbn; [done|]. by rewrite IH. Qed.

Lemma made_le_in_body t : (made t <= in_body t)%nat.
Proof. unfold made, in_body. destruct (tat t); lia. Qed.
Lemma added_le_in_body t : (added t <= in_body t)%nat.
Proof. unfold added, in_body. destruct (tat t); lia. Qed.
Lemma started_le_in_body t : (started t <= in_body t)%nat.
Proof. unfold started, in_body. destruct (tat t); lia. Qed.

Lemma fold_Log_created (lines : list LogEntry) w :
  created (foldr (fun '(l, m, e) => Log l m e) w lines) = created w.
Proof. induction lines as [|[[l m] e] lines IH]; [done|]. cbn. exact IH. Qed.

Lemma ack_callback_created privates : forall m w,
  created (ack_callback privates (m, w)).2 = created w.
Proof.
  induction privates as [|p ps IH]; intros m w; [done|].
  change (ack_callback (p :: ps) (m, w))
    with (ack_callback ps (ack_private p (m, w))).
  destruct (ack_private p (m, w)) as [m' w'] eqn:E. rewrite IH.
  destruct p; cbn in E; by simplify_eq.
Qed.

(** What a statement of the worker does to the data of [once_inv]. *)
Lemma worker_step_once cfg j w r s s' :
  workers s !! j = Some w ->
  worker_step cfg j w r s = Some s' ->
  threads s' = threads s
  /\ created (world s') = created (world s)
  /\ metrics (inp s') = metrics (inp s)
  /\ workerOnce (inp s') = workerOnce (inp s)
  /\ length (workers s') = length (workers s)
  /\ workerWg (inp s') - Z.of_nat (tally live (workers s'))
     = workerWg (inp s) - Z.of_nat (tally live (workers s)).
Proof.
  intros Hw H. unfold worker_step in H.
  destruct (wat w) eqn:Hat; repeat case_match; simplify_eq; cbn -[foldr tally];
    rewrite ?fold_Log_created, ?length_insert, ?length_fmap;
    repeat (split; [done|]);
    match goal with
    | |- context [tally live (<[j := ?w']> (map _ _))] =>
        pose proof (tally_insert live (map (set_runCancelled true) (workers s))
                      j (set_runCancelled true w) w'
                      ltac:(by rewrite list_lookup_fmap, Hw)) as Ht;
        rewrite tally_live_cancel in Ht
    | |- context [tally live (<[j := ?w']> _)] =>
        pose proof (tally_insert live (workers s) j w w' Hw) as Ht
    end;
    change (live (set_runCancelled true w)) with (live w) in Ht;
    pose proof (eq_refl (live w)) as Hl; unfold live in Hl at 2;
    rewrite Hat in Hl; cbn -[tally] in Ht; lia.
Qed.

Ltac thread_facts s i t Ht Hat :=
  let t' := match goal with |- context [<[i := ?t']> (threads s)] => t' end in
  pose proof (tally_insert in_body _ _ _ t' Ht);
  pose proof (tally_insert made _ _ _ t' Ht);
  pose proof (tally_insert added _ _ _ t' Ht);
  pose proof (tally_insert started _ _ _ t' Ht);
  pose proof (tally_le made in_body (<[i := t']> (threads s)) made_le_in_body);
  pose proof (tally_le added in_body (<[i := t']> (threads s)) added_le_in_body);
  pose proof (tally_le started in_body (<[i := t']> (threads s)) started_le_in_body);
  let Hb := fresh "Hb" in
  pose proof (eq_refl (in_body t)) as Hb; unfold in_body in Hb at 2; rewrite Hat in Hb;
  let Hb := fresh "Hb" in
  pose proof (eq_refl (made t)) as Hb; unfold made in Hb at 2; rewrite Hat in Hb;
  let Hb := fresh "Hb" in
  pose proof (eq_refl (added t)) as Hb; unfold added in Hb at 2; rewrite Hat in Hb;
  let Hb := fresh "Hb" in
  pose proof (eq_refl (started t)) as Hb; unfold started in Hb at 2; rewrite Hat in Hb.

Ltac returned_clause Hret Ht :=
  apply Forall_insert;
  [ eapply Forall_impl; [exact Hret|]; cbn; intros ? Hx Hy;
    first [done | specialize (Hx Hy); congruence]
  | cbn; intros Hy; try done;
    pose proof (Forall_lookup_1 _ _ _ _ Hret Ht) as Hx; cbn in Hx;
    try (apply elem_of_cons in Hy as [Hy|Hy]; [discriminate|]);
    first [done | specialize (Hx Hy); congruence] ].

Lemma once_inv_step cfg l s s' :
  once_inv s -> step cfg l s = Some s' -> once_inv s'.
Proof.
  intros HI H.
  pose proof (tally_le made in_body (threads s) made_le_in_body).
  pose proof (tally_le added in_body (threads s) added_le_in_body).
  pose proof (tally_le started in_body (threads s) started_le_in_body).
  destruct l; cbn [step] in H.
  - (* time passes *)
    case_match; by simplify_eq.
  - (* the NewInput goroutine *)
    unfold parent_step in H. case_match; simplify_eq;
      unfold once_inv in *; cbn -[tally];
      rewrite ?tally_live_cancel, ?length_fmap; done.
  - (* a caller *)
    destruct HI as (Hwg & Hm & Hret & Honce).
    destruct (threads s !! i) as [t|] eqn:Ht; [|done].
    unfold thread_step in H. unfold once_inv.
    destruct (tat t) eqn:Hat;
      [destruct (todo t) as [|[|] rest]; [done|..]|..];
      destruct (workerOnce (inp s)) eqn:Ho;
      repeat case_match; simplify_eq; try congruence; cbn -[tally];
      thread_facts s i t Ht Hat; cbn -[tally] in *; try congruence;
      rewrite ?tally_live_cancel, ?length_fmap, ?tally_snoc, ?length_app;
      cbn -[tally]; rewrite ?Ho.
    all: try (split; [lia|]).
    all: try (split; [first [done | split; intros; [lia | done]]|]).
    all: try (split; [returned_clause Hret Ht|]).
    all: try (repeat split; lia).
  - (* the worker *)
    destruct HI as (Hwg & Hm & Hret & Honce). unfold once_inv.
    destruct (workers s !! j) as [w|] eqn:Hw; [|done].
    destruct (worker_step_once _ _ _ _ _ _ Hw H) as (-> & -> & -> & -> & -> & Hd).
    split; [lia|]. done.
  - (* a message arrives *)
    destruct (workers s !! j) as [w|] eqn:Hw; [|done].
    case_match; simplify_eq.
    destruct HI as (Hwg & Hm & Hret & Honce). unfold once_inv.
    cbn -[tally]. rewrite length_insert.
    pose proof (tally_insert live _ _ _
                  (set_handlers (handlers w ++ [MkHandler H_OnEvent msg]) w) Hw) as Hl.
    change (live (set_handlers _ w)) with (live w) in Hl.
    split; [lia|]. done.
  - (* a callback *)
    destruct (workers s !! j) as [w|] eqn:Hw; [|done].
    destruct (handlers w !! k) as [h|] eqn:Hh; [|done].
    unfold handler_step in H.
    repeat case_match; simplify_eq;
      destruct HI as (Hwg & Hm & Hret & Honce); unfold once_inv;
      cbn -[tally]; rewrite length_insert;
      match goal with |- context [tally live (<[j := ?w']> _)] =>
        pose proof (tally_insert live _ _ _ w' Hw) as Hl;
        change (live w') with (live w) in Hl
      end;
      (split; [lia|]); try done.
    split; [|done]. split; [done|]. intros Hc. apply Hm in Hc. congruence.
  - (* the ACK callback *)
    destruct (metrics (inp s)) as [m|] eqn:Hmm; [|done].
    pose proof (ack_callback_created privates m (world s)) as Hn.
    destruct (ack_callback privates (m, world s)) as [m' w'].
    simplify_eq. destruct HI as (Hwg & Hm & Hret & Honce). unfold once_inv.
    cbn -[tally] in *. rewrite Hn.
    split; [done|]. split; [|done].
    split; [done|]. intros Hc. apply Hm in Hc. congruence.
Qed.

Lemma once_inv_init t0 sv programs : once_inv (NewInput t0 sv programs).
Proof.
  unfold once_inv, NewInput. cbn -[tally].
  assert (Hz : forall f, (forall t, tat t = T_Idle -> f t = 0%nat) ->
            tally f (map (fun p => MkThread T_Idle p []) programs) = 0%nat).
  { intros f Hf. induction programs as [|p ps IH]; [done|].
    unfold tally in *. cbn. rewrite IH, Hf; done. }
  rewrite !Hz by (intros t Ht; unfold added, in_body; by rewrite Ht).
  repeat split; try done.
  apply Forall_fmap, Forall_forall. cbn. intros p _ Hin.
  by apply elem_of_nil in Hin.
Qed.

(** [once_inv] holds in every state the input reaches. *)
Lemma once_inv_reachable cfg t0 sv programs ls s :
  exec cfg ls (NewInput t0 sv programs) = Some s -> once_inv s.
Proof.
  apply (exec_invariant cfg once_inv); eauto using once_inv_step, once_inv_init.
Qed.

Lemma started_le_made t : (started t <= made t)%nat.
Proof. unfold started, made. destruct (tat t); lia. Qed.

(** A worker exists only once the metrics have been created. *)
Lemma worker_has_metrics s j w :
  once_inv s -> workers s !! j = Some w -> exists m, metrics (inp s) = Some m.
Proof.
  intros (_ & Hm & _ & Honce) Hw.
  pose proof (lookup_lt_Some _ _ _ Hw) as Hl.
  pose proof (tally_le started made (threads s) started_le_made).
  destruct (metrics (inp s)) as [m|]; [by exists m|].
  destruct Hm as [Hm _]. specialize (Hm eq_refl).
  destruct (workerOnce (inp s)); lia.
Qed.

(** ** C2: the sink rejects an event *)







Lemma sample_receiving_reached :
  exec sample_config sample_schedule sample_start = Some sample_receiving.
Proof. vm_compute. reflexivity. Qed.



(** ** C3: [Run] starts the worker once *)

Lemma exec_thread cfg i ls s t :
  threads s !! i = Some t ->
  exec cfg (LThread i :: ls) s
  = match thread_step i t s with
    | Some s' => exec cfg ls s'
    | None => None
    end.
Proof. intros H. cbn [exec step]. by rewrite H. Qed.

Lemma lookup_set_thread s i t t' :
  threads s !! i = Some t -> threads (set_thread i t' s) !! i = Some t'.
Proof.
  intros H. cbn. apply list_lookup_insert_eq. by eapply lookup_lt_Some.
Qed.

Lemma callers_only_repeat i n : callers_only (repeat (LThread i) n).
Proof. induction n; cbn; by constructor. Qed.

(** A caller inside the function passed to [workerOnce.Do] runs to the
    end of [Run] on its own: none of its statements waits for anything. *)
Lemma body_completes cfg s i t :
  threads s !! i = Some t -> in_body t = 1%nat ->
  exists n s',
    exec cfg (repeat (LThread i) n) s = Some s'
    /\ workerOnce (inp s') = OnceDone
    /\ threads s' = <[i := return_from CallRun t]> (threads s).
Proof.
  intros Ht Hb.
  assert (Hi : (i < length (threads s))%nat) by (by eapply lookup_lt_Some).
  assert (H1 : forall s t, threads s !! i = Some t -> tat t = R_OnceDone ->
            exec cfg (repeat (LThread i) 1) s
            = Some (set_thread i (return_from CallRun t)
                      (set_inp (set_once OnceDone (inp s)) s))).
  { intros s0 t0 Ht0 Hat. cbn [repeat]. rewrite (exec_thread _ _ _ _ _ Ht0).
    unfold thread_step. by rewrite Hat. }
  assert (H2 : forall s t, threads s !! i = Some t -> tat t = R_Go ->
            exists s', exec cfg (repeat (LThread i) 2) s = Some s'
              /\ workerOnce (inp s') = OnceDone
              /\ threads s' = <[i := return_from CallRun t]> (threads s)).
  { intros s0 t0 Ht0 Hat. cbn [repeat]. rewrite (exec_thread _ _ _ _ _ Ht0).
    unfold thread_step. rewrite Hat.
    match goal with |- context [exec _ _ ?s1] => set (s1' := s1) end.
    change ([LThread i]) with (repeat (LThread i) 1).
    erewrite (H1 s1'); [|subst s1'; by eapply lookup_set_thread|done].
    eexists. split; [done|]. split; [done|].
    subst s1'. cbn. by rewrite list_insert_insert_eq. }
  assert (H3 : forall s t, threads s !! i = Some t -> tat t = R_WgAdd ->
            exists s', exec cfg (repeat (LThread i) 3) s = Some s'
              /\ workerOnce (inp s') = OnceDone
              /\ threads s' = <[i := return_from CallRun t]> (threads s)).
  { intros s0 t0 Ht0 Hat.
    change (repeat (LThread i) 3) with (LThread i :: repeat (LThread i) 2).
    rewrite (exec_thread _ _ _ _ _ Ht0). unfold thread_step. rewrite Hat.
    match goal with |- context [exec _ _ ?s1] => set (s1' := s1) end.
    destruct (H2 s1' (goto R_Go t0)) as (s' & -> & Ho & Hth);
      [subst s1'; by eapply lookup_set_thread|done|].
    exists s'. split; [done|]. split; [done|].
    rewrite Hth. subst s1'. cbn. by rewrite list_insert_insert_eq. }
  assert (H4 : forall s t, threads s !! i = Some t -> tat t = R_NewMetrics ->
            exists s', exec cfg (repeat (LThread i) 4) s = Some s'
              /\ workerOnce (inp s') = OnceDone
              /\ threads s' = <[i := return_from CallRun t]> (threads s)).
  { intros s0 t0 Ht0 Hat.
    change (repeat (LThread i) 4) with (LThread i :: repeat (LThread i) 3).
    rewrite (exec_thread _ _ _ _ _ Ht0). unfold thread_step. rewrite Hat.
    match goal with |- context [exec _ _ ?s1] => set (s1' := s1) end.
    destruct (H3 s1' (goto R_WgAdd t0)) as (s' & -> & Ho & Hth);
      [subst s1'; by eapply lookup_set_thread|done|].
    exists s'. split; [done|]. split; [done|].
    rewrite Hth. subst s1'. cbn. by rewrite list_insert_insert_eq. }
  unfold in_body in Hb. destruct (tat t) eqn:Hat; try done.
  - exists 4%nat. eauto.
  - exists 3%nat. eauto.
  - exists 2%nat. eauto.
  - exists 1%nat. eexists. split; [by apply H1|]. done.
Qed.

(** An invocation of [Run] in progress returns by statements of the
    callers of [Run] alone, once [once_inv] holds. *)
Lemma run_returns cfg s i t :
  once_inv s -> threads s !! i = Some t ->
  tat t = R_Once \/ in_body t = 1%nat ->
  exists ls s' t',
    callers_only ls /\ exec cfg ls s = Some s'
    /\ threads s' !! i = Some t' /\ tat t' = T_Idle
    /\ returned t' = CallRun :: returned t /\ todo t' = todo t.
Proof.
  intros HI Ht [Hat | Hb].
  - assert (Hdone : forall s, threads s !! i = Some t ->
              workerOnce (inp s) = OnceDone ->
              exec cfg [LThread i] s = Some (set_thread i (return_from CallRun t) s)).
    { intros s0 Ht0 Ho. rewrite (exec_thread _ _ _ _ _ Ht0).
      unfold thread_step. by rewrite Hat, Ho. }
    destruct (workerOnce (inp s)) eqn:Ho.
    + (* this invocation is the first *)
      destruct (body_completes cfg
                  (set_thread i (goto R_NewMetrics t)
                     (set_inp (set_once OnceRunning (inp s)) s))
                  i (goto R_NewMetrics t)) as (n & s' & Hrun & _ & Hth);
        [by eapply lookup_set_thread|done|].
      exists (LThread i :: repeat (LThread i) n), s', (return_from CallRun t).
      split; [apply (callers_only_repeat i (S n))|].
      split.
      { rewrite (exec_thread _ _ _ _ _ Ht). unfold thread_step.
        by rewrite Hat, Ho. }
      split; [|done]. rewrite Hth. cbn. rewrite list_insert_insert_eq.
      apply list_lookup_insert_eq. by eapply lookup_lt_Some.
    + (* another invocation holds the Once: let it finish *)
      destruct HI as (_ & _ & _ & Honce). rewrite Ho in Honce.
      destruct Honce as (Hbody & _).
      destruct (tally_positive in_body (threads s)) as (j & tj & Hj & Hpos); [lia|].
      assert (Hbj : in_body tj = 1%nat).
      { unfold in_body in *. destruct (tat tj); lia. }
      assert (Hne : j <> i).
      { intros ->. simplify_eq. unfold in_body in Hbj. by rewrite Hat in Hbj. }
      destruct (body_completes cfg s j tj Hj Hbj) as (n & s1 & Hrun & Ho1 & Hth).
      assert (Ht1 : threads s1 !! i = Some t).
      { rewrite Hth. by rewrite list_lookup_insert_ne. }
      exists (repeat (LThread j) n ++ [LThread i])%list,
             (set_thread i (return_from CallRun t) s1), (return_from CallRun t).
      split.
      { apply Forall_app. split; [apply callers_only_repeat|]. by repeat constructor. }
      split; [rewrite exec_app, Hrun; by apply Hdone|].
      split; [by eapply lookup_set_thread|done].
    + exists [LThread i], (set_thread i (return_from CallRun t) s),
             (return_from CallRun t).
      split; [by repeat constructor|].
      split; [by apply Hdone|].
      split; [by eapply lookup_set_thread|done].
  - destruct (body_completes cfg s i t Ht Hb) as (n & s' & Hrun & _ & Hth).
    exists (repeat (LThread i) n), s', (return_from CallRun t).
    split; [apply callers_only_repeat|]. split; [done|].
    split; [|done]. rewrite Hth.
    apply list_lookup_insert_eq. by eapply lookup_lt_Some.
Qed.

(** C3.  Whatever the number of callers and of their invocations of
    [Run] (and [Stop]), one after the other or interleaved: at most one
    worker goroutine is ever started and [newInputMetrics] is called at
    most once.  An invocation that does not find [workerOnce] fresh
    changes nothing but its own return, and that is the case of every
    invocation made after one has returned.  An invocation in progress
    returns through statements of the callers of [Run] alone: it does not
    wait for the worker goroutine. *)
Theorem C3_run_once (cfg : config) (t0 : Z) (sv : gmap string string)
    (programs : list (list Call)) (ls : list label) (s : System) :
  exec cfg ls (NewInput t0 sv programs) = Some s ->
  (length (workers s) <= 1)%nat
  /\ (created (world s) <= 1)%nat
  /\ (forall i t s', threads s !! i = Some t -> tat t = R_Once ->
        workerOnce (inp s) <> OnceFresh ->
        step cfg (LThread i) s = Some s' ->
        inp s' = inp s /\ world s' = world s /\ workers s' = workers s
        /\ parent s' = parent s
        /\ threads s' = <[i := return_from CallRun t]> (threads s))
  /\ (forall t, t ∈ threads s -> CallRun ∈ returned t ->
        workerOnce (inp s) = OnceDone)
  /\ (forall i t, threads s !! i = Some t ->
        tat t = R_Once \/ in_body t = 1%nat ->
        exists ls' s' t',
          callers_only ls' /\ exec cfg ls' s = Some s'
          /\ threads s' !! i = Some t' /\ tat t' = T_Idle
          /\ returned t' = CallRun :: returned t /\ todo t' = todo t).
Proof.
  intros Hreach.
  pose proof (once_inv_reachable _ _ _ _ _ _ Hreach) as HI.
  pose proof HI as (Hwg & Hm & Hret & Honce).
  pose proof (tally_le made in_body (threads s) made_le_in_body).
  pose proof (tally_le started in_body (threads s) started_le_in_body).
  split; [destruct (workerOnce (inp s)); lia|].
  split; [destruct (workerOnce (inp s)); lia|].
  split.
  { intros i t s' Ht Hat Ho Hstep. cbn [step] in Hstep. rewrite Ht in Hstep.
    unfold thread_step in Hstep. rewrite Hat in Hstep.
    destruct (workerOnce (inp s)); by simplify_eq. }
  split.
  { intros t Hin Hr. rewrite Forall_forall in Hret. exact (Hret t Hin Hr). }
  intros i t Ht Hpc. by apply run_returns.
Qed.

Lemma C3_run_once_witness :
  (length (workers sample_receiving) <= 1)%nat
  /\ (created (world sample_receiving) <= 1)%nat.
Proof.
  destruct (C3_run_once sample_config 0 sample_service [[CallRun]; [CallStop]]
              sample_schedule sample_receiving) as (H1 & H2 & _).
  - vm_compute. reflexivity.
  - split; [exact H1 | exact H2].
Defined.

(** ** C9: [Stop] on an input that never ran *)

(** With the wait group at zero a whole [Stop] goes through without
    waiting, and calls [Close] on whatever [metrics] holds. *)
Lemma stop_unblocked cfg s i t rest :
  threads s !! i = Some t -> tat t = T_Idle -> todo t = CallStop :: rest ->
  workerWg (inp s) = 0 ->
  exists s',
    exec cfg (repeat (LThread i) 4) s = Some s'
    /\ closeCalls (world s')
       = bool_decide (is_Some (metrics (inp s))) :: closeCalls (world s)
    /\ metrics (inp s') = metrics (inp s)
    /\ workerCancelled (inp s') = true
    /\ threads s' = <[i := MkThread T_Idle rest (CallStop :: returned t)]> (threads s).
Proof.
  intros Ht Hat Htodo Hwg. cbn [repeat].
  assert (Hi : (i < length (threads s))%nat) by (by eapply lookup_lt_Some).
  rewrite (exec_thread _ _ _ _ _ Ht). unfold thread_step at 1.
  rewrite Hat, Htodo. cbn [call_entry].
  match goal with |- context [exec _ _ ?s1] => set (s1' := s1) end.
  erewrite (exec_thread _ _ _ s1'); [|subst s1'; by eapply lookup_set_thread].
  unfold thread_step at 1. cbn [tat].
  match goal with |- context [exec _ _ ?s2] => set (s2' := s2) end.
  erewrite (exec_thread _ _ _ s2');
    [|subst s2' s1'; cbn; rewrite ?list_insert_insert_eq;
      apply list_lookup_insert_eq; by rewrite ?length_insert].
  unfold thread_step at 1. cbn [tat goto].
  assert (workerWg (inp s2') = 0) as -> by (subst s2' s1'; exact Hwg).
  cbn [Z.eqb].
  match goal with |- context [exec _ _ ?s3] => set (s3' := s3) end.
  erewrite (exec_thread _ _ _ s3');
    [|subst s3' s2' s1'; cbn; rewrite ?list_insert_insert_eq;
      apply list_lookup_insert_eq; by rewrite ?length_insert].
  unfold thread_step at 1. cbn [tat goto].
  eexists. split; [reflexivity|].
  subst s3' s2' s1'. cbn. by rewrite !list_insert_insert_eq.
Qed.

(** C9.  In every state the input reaches: [metrics] is nil until the
    function passed to [workerOnce.Do] creates it, and only that
    statement of [Run] makes it non-nil; [Stop], having waited, calls
    [Close] on [metrics] whatever it holds.  So while no invocation of
    [Run] has entered [workerOnce.Do], a [Stop] runs through without
    waiting and calls [Close] on the nil pointer.  Once an invocation of
    [Run] has returned, [metrics] is non-nil for good. *)
Theorem C9_stop_before_run (cfg : config) (t0 : Z) (sv : gmap string string)
    (programs : list (list Call)) (ls : list label) (s : System) :
  exec cfg ls (NewInput t0 sv programs) = Some s ->
  (workerOnce (inp s) = OnceFresh -> metrics (inp s) = None)
  /\ (forall l s', step cfg l s = Some s' ->
        metrics (inp s) = None -> metrics (inp s') <> None ->
        exists i t, l = LThread i /\ threads s !! i = Some t
                    /\ tat t = R_NewMetrics)
  /\ (forall i t, threads s !! i = Some t -> tat t = S_Close ->
        exists s', step cfg (LThread i) s = Some s'
          /\ closeCalls (world s')
             = bool_decide (is_Some (metrics (inp s))) :: closeCalls (world s))
  /\ (workerOnce (inp s) = OnceFresh ->
      forall i t rest, threads s !! i = Some t -> tat t = T_Idle ->
        todo t = CallStop :: rest ->
        exists s', exec cfg (repeat (LThread i) 4) s = Some s'
          /\ closeCalls (world s') = false :: closeCalls (world s)
          /\ metrics (inp s') = None)
  /\ (forall t, t ∈ threads s -> CallRun ∈ returned t ->
        metrics (inp s) <> None).
Proof.
  intros Hreach.
  pose proof (once_inv_reachable _ _ _ _ _ _ Hreach) as (Hwg & Hm & Hret & Honce).
  pose proof (tally_le added in_body (threads s) added_le_in_body) as Hadd.
  split.
  { intros Ho. rewrite Ho in Honce. apply Hm. lia. }
  split.
  { intros l s' Hstep Hnone Hsome. destruct l; cbn [step] in Hstep.
    - case_match; by simplify_eq.
    - unfold parent_step in Hstep. case_match; by simplify_eq.
    - destruct (threads s !! i) as [t|] eqn:Ht; [|done].
      unfold thread_step in Hstep.
      destruct (tat t) eqn:Hat; repeat case_match; simplify_eq; eauto.
    - destruct (workers s !! j) as [w|] eqn:Hw; [|done].
      destruct (worker_step_once _ _ _ _ _ _ Hw Hstep) as (_ & _ & Heq & _).
      congruence.
    - destruct (workers s !! j) as [w|]; [|done]. case_match; by simplify_eq.
    - destruct (workers s !! j) as [w|]; [|done].
      destruct (handlers w !! k) as [h|]; [|done].
      unfold handler_step in Hstep. repeat case_match; by simplify_eq.
    - rewrite Hnone in Hstep. done. }
  split.
  { intros i t Ht Hat. eexists. cbn [step]. rewrite Ht. unfold thread_step.
    rewrite Hat. split; [reflexivity|]. done. }
  split.
  { intros Ho i t rest Ht Hat Htodo. rewrite Ho in Honce.
    destruct Honce as (Hb & Hc & Hl).
    assert (Hws : tally live (workers s) = 0%nat).
    { destruct (workers s); [done|]. cbn in Hl. lia. }
    assert (Hz : workerWg (inp s) = 0) by lia.
    assert (Hn : metrics (inp s) = None) by (by apply Hm).
    destruct (stop_unblocked cfg s i t rest Ht Hat Htodo Hz)
      as (s' & Hrun & Hclose & Hmet & _).
    exists s'. split; [done|]. rewrite Hclose, Hmet, Hn. split; [|done].
    by rewrite bool_decide_eq_false_2 by (by intros [? ?]). }
  intros t Hin Hr Hnone. rewrite Forall_forall in Hret.
  rewrite (Hret t Hin Hr) in Honce. apply Hm in Hnone. lia.
Qed.

Lemma C9_stop_before_run_witness :
  exists s',
    exec sample_config (repeat (LThread 0) 4)
      (NewInput 0 sample_service [[CallStop]]) = Some s'
    /\ closeCalls (world s') = [false]
    /\ metrics (inp s') = None.
Proof.
  destruct (C9_stop_before_run sample_config 0 sample_service [[CallStop]] []
              (NewInput 0 sample_service [[CallStop]]) eq_refl)
    as (_ & _ & _ & H & _).
  apply (H eq_refl 0%nat (MkThread T_Idle [CallStop] []) []); reflexivity.
Defined.

(** ** C4: [Stop] and the end of the worker *)

(** C4, on the code.  With this schedule [Stop] has returned and [Close]
    has been called, while the worker goroutine still has its last two
    deferred statements to run: [Stopped] has not been reported (the
    current status is [Running]) and the goroutine has not exited.  The
    two statements left do report [Stopped] afterwards. *)
Theorem C4_stop_returns_before_stopped :
  exists s s',
    exec sample_config stop_race sample_start = Some s
    /\ threads s !! 1%nat = Some (MkThread T_Idle [] [CallStop])
    /\ closeCalls (world s) = [true]
    /\ wat <$> workers s !! 0%nat = Some W_D_Log
    /\ current_status s = Some (Running, "")
    /\ ~ In Stopped (map fst (statusLog (world s)))
    /\ workerWg (inp s) = 0
    /\ exec sample_config (repeat (LWorker 0 NoReply) 2) s = Some s'
    /\ current_status s' = Some (Stopped, "")
    /\ wat <$> workers s' !! 0%nat = Some W_Exit.
Proof.
  eexists. eexists.
  split; [vm_compute; reflexivity|].
  split; [reflexivity|]. split; [reflexivity|]. split; [reflexivity|].
  split; [reflexivity|].
  split.
  { cbn. intros H. repeat (destruct H as [H|H]; [discriminate|]). exact H. }
  split; [reflexivity|].
  split; [vm_compute; reflexivity|].
  split; reflexivity.
Qed.

(** ** What [Stop] does guarantee *)

Lemma active_live w : active w = true -> live w = 1%nat.
Proof. unfold active, live. by destruct (wat w). Qed.

Lemma tally_zero {A} (f : A -> nat) l :
  tally f l = 0%nat -> Forall (fun x => f x = 0%nat) l.
Proof.
  induction l as [|a l IH]; unfold tally in *; cbn; intros H; constructor.
  - lia.
  - apply IH. lia.
Qed.

Lemma quiet_cancel ws :
  Forall (fun w => active w = false) ws ->
  Forall (fun w => active w = false) (map (set_runCancelled true) ws).
Proof. intros H. apply Forall_fmap. eapply Forall_impl; [exact H|]. done. Qed.

Lemma fold_Log_delivered (lines : list LogEntry) w :
  delivered (foldr (fun '(l, m, e) => Log l m e) w lines) = delivered w.
Proof. induction lines as [|[[l m] e] lines IH]; [done|]. cbn. exact IH. Qed.

Lemma ack_callback_delivered privates : forall m w,
  delivered (ack_callback privates (m, w)).2 = delivered w.
Proof.
  induction privates as [|p ps IH]; intros m w; [done|].
  change (ack_callback (p :: ps) (m, w))
    with (ack_callback ps (ack_private p (m, w))).
  destruct (ack_private p (m, w)) as [m' w'] eqn:E. rewrite IH.
  destruct p; cbn in E; by simplify_eq.
Qed.

(** The worker's own statements never call the sink, never un-cancel the
    worker context and leave the callers alone. *)
Lemma worker_step_frame cfg j w r s s' :
  worker_step cfg j w r s = Some s' ->
  threads s' = threads s
  /\ delivered (world s') = delivered (world s)
  /\ (workerCancelled (inp s) = true -> workerCancelled (inp s') = true).
Proof.
  intros H. unfold worker_step in H.
  destruct (wat w); repeat case_match; simplify_eq; cbn -[foldr];
    rewrite ?fold_Log_delivered; done.
Qed.

(** With the worker context cancelled, a worker that is not active does
    not become active. *)
Lemma worker_step_quiet cfg j w r s s' :
  active w = false -> workerCancelled (inp s) = true ->
  workers s !! j = Some w ->
  worker_step cfg j w r s = Some s' ->
  Forall (fun w => active w = false) (workers s) ->
  Forall (fun w => active w = false) (workers s').
Proof.
  intros Ha Hc Hw H Hq. unfold worker_step in H. unfold active in Ha.
  destruct (wat w); try done; rewrite ?Hc in H; repeat case_match;
    simplify_eq; cbn; apply Forall_insert; auto using quiet_cancel.
Qed.

Lemma Exists_insert_impl {A} (P : A -> Prop) l i x y :
  l !! i = Some x -> (P x -> P y) -> Exists P l -> Exists P (<[i := y]> l).
Proof.
  revert i. induction l as [|a l IH]; intros [|i] Hl Hxy He; simplify_eq/=.
  - inversion He; subst; [left; auto | by right].
  - inversion He; subst; [by left | right; eauto].
Qed.

Ltac old_threads HA HB :=
  first
    [ exact HA | exact HB
    | eapply Forall_impl; [exact HA|]; cbn; intros ? H0 Hp;
      first [done | by apply H0]
    | eapply Forall_impl; [exact HB|]; cbn; intros ? H0 Hp;
      first [ by apply H0 | by apply quiet_cancel, H0
            | apply Forall_app; split; [by apply H0 | by repeat constructor] ] ].

Ltac new_thread HAt HBt :=
  intros Hp; rewrite ?elem_of_cons in Hp;
  first
    [ done
    | apply HAt; solve [intuition (first [discriminate | eauto])]
    | apply HBt; solve [intuition (first [discriminate | eauto])]
    | apply quiet_cancel, HBt; solve [intuition (first [discriminate | eauto])]
    | apply Forall_app; split;
      [ apply HBt; solve [intuition (first [discriminate | eauto])]
      | by repeat constructor ] ].

Lemma stop_inv_step cfg l s s' :
  once_inv s -> stop_inv s -> step cfg l s = Some s' -> stop_inv s'.
Proof.
  intros HO [HA HB] H. destruct l; cbn [step] in H.
  - (* time passes *)
    case_match; by simplify_eq.
  - (* the NewInput goroutine *)
    unfold parent_step in H. case_match; simplify_eq; try done.
    split; cbn.
    + eapply Forall_impl; [exact HA|]. done.
    + eapply Forall_impl; [exact HB|]. cbn. intros t Hq Hp.
      by apply quiet_cancel, Hq.
  - (* a caller *)
    destruct (threads s !! i) as [t|] eqn:Ht; [|done].
    pose proof (Forall_lookup_1 _ _ _ _ HA Ht) as HAt.
    pose proof (Forall_lookup_1 _ _ _ _ HB Ht) as HBt.
    cbn in HAt, HBt. unfold thread_step in H.
    destruct (tat t) eqn:Hat;
      [destruct (todo t) as [|[|] rest]; [done|..]|..];
      repeat case_match; simplify_eq; split; cbn;
      (apply Forall_insert; [old_threads HA HB|]);
      unfold past_wait in *; cbn; rewrite ?Hat in *; try new_thread HAt HBt.
    (* Wait returns: the wait group is at zero, no worker is live *)
    intros _. bools. destruct HO as (Hwg & _).
    assert (Hz : tally live (workers s) = 0%nat) by lia.
    apply tally_zero in Hz. eapply Forall_impl; [exact Hz|]. cbn.
    intros w Hl. destruct (active w) eqn:Ha; [|done].
    apply active_live in Ha. lia.
  - (* the worker *)
    destruct (workers s !! j) as [w|] eqn:Hw; [|done].
    destruct (worker_step_frame _ _ _ _ _ _ H) as (Hth & _ & Hc).
    split; rewrite Hth.
    + eapply Forall_impl; [exact HA|]. cbn. auto.
    + rewrite Forall_forall in HA, HB. apply Forall_forall. intros t Hin Hp.
      specialize (HB t Hin Hp). specialize (HA t Hin (or_intror Hp)).
      eapply worker_step_quiet; eauto.
      by eapply (Forall_lookup_1 _ _ _ _ HB).
  - (* a message arrives *)
    destruct (workers s !! j) as [w|] eqn:Hw; [|done].
    case_match; simplify_eq. split; cbn; [done|].
    eapply Forall_impl; [exact HB|]. cbn. intros t Hq Hp.
    specialize (Hq Hp). eapply Forall_lookup_1 in Hq; [|exact Hw].
    unfold active in Hq. by destruct (wat w).
  - (* a callback *)
    destruct (workers s !! j) as [w|] eqn:Hw; [|done].
    destruct (handlers w !! k) as [h|] eqn:Hh; [|done].
    unfold handler_step in H. destruct (wat w) eqn:Hat; try done.
    assert (Hact : forall t, past_wait t ->
              Forall (fun w => active w = false) (workers s) -> False).
    { intros t _ Hq. eapply Forall_lookup_1 in Hq; [|exact Hw].
      unfold active in Hq. by rewrite Hat in Hq. }
    repeat case_match; simplify_eq; split; cbn; try done;
      (eapply Forall_impl; [exact HB|]); cbn; intros t Hq Hp;
      destruct (Hact t Hp (Hq Hp)).
  - (* the ACK callback *)
    destruct (metrics (inp s)) as [m|]; [|done].
    destruct (ack_callback privates (m, world s)) as [m' w'].
    by simplify_eq.
Qed.

Lemma stop_inv_init t0 sv programs : stop_inv (NewInput t0 sv programs).
Proof.
  split; cbn; apply Forall_fmap, Forall_forall; cbn; intros p _.
  - unfold past_wait. cbn. intros [?|[?|Hin]]; try done. by apply elem_of_nil in Hin.
  - intros _. constructor.
Qed.

(** Once a [Stop] is past [workerWg.Wait()], no statement of any
    goroutine calls the sink, and the worker context stays cancelled. *)
Lemma step_after_stop cfg l s s' :
  once_inv s -> stop_inv s -> Exists past_wait (threads s) ->
  step cfg l s = Some s' ->
  delivered (world s') = delivered (world s) /\ Exists past_wait (threads s').
Proof.
  intros HO [HA HB] He H.
  assert (Hq : Forall (fun w => active w = false) (workers s)).
  { apply Exists_exists in He as (t & Hin & Hp).
    rewrite Forall_forall in HB. by apply (HB t). }
  destruct l; cbn [step] in H.
  - case_match; by simplify_eq.
  - unfold parent_step in H. case_match; by simplify_eq.
  - destruct (threads s !! i) as [t|] eqn:Ht; [|done].
    unfold thread_step in H.
    destruct (tat t) eqn:Hat; repeat case_match; simplify_eq; split; try done;
      cbn; (eapply Exists_insert_impl; [exact Ht| |exact He]);
      unfold past_wait; cbn; rewrite ?Hat, ?elem_of_cons; intuition discriminate.
  - destruct (workers s !! j) as [w|] eqn:Hw; [|done].
    destruct (worker_step_frame _ _ _ _ _ _ H) as (-> & -> & _). done.
  - destruct (workers s !! j) as [w|] eqn:Hw; [|done].
    case_match; by simplify_eq.
  - destruct (workers s !! j) as [w|] eqn:Hw; [|done].
    destruct (handlers w !! k) as [h|] eqn:Hh; [|done].
    eapply Forall_lookup_1 in Hq; [|exact Hw].
    unfold handler_step in H. unfold active in Hq.
    destruct (wat w); done.
  - destruct (metrics (inp s)) as [m|]; [|done].
    pose proof (ack_callback_delivered privates m (world s)) as Hd.
    destruct (ack_callback privates (m, world s)) as [m' w'].
    by simplify_eq.
Qed.

(** After [Stop] has returned no further event reaches the sink,
    whatever the goroutines and the environment do next. *)
Lemma stop_ends_deliveries cfg t0 sv programs ls s ls' s' :
  exec cfg ls (NewInput t0 sv programs) = Some s ->
  Exists (fun t => CallStop ∈ returned t) (threads s) ->
  exec cfg ls' s = Some s' ->
  delivered (world s') = delivered (world s)
  /\ workerCancelled (inp s') = true.
Proof.
  intros Hreach He Hexec.
  assert (HO : once_inv s) by (by eapply once_inv_reachable).
  assert (HS : stop_inv s).
  { revert Hreach.
    apply (exec_invariant cfg (fun s => once_inv s /\ stop_inv s));
      [|split; [apply once_inv_init | apply stop_inv_init]].
    intros l s1 s2 [? ?] Hstep. split;
      [by eapply once_inv_step | by eapply stop_inv_step]. }
  assert (Hp : Exists past_wait (threads s)).
  { eapply Exists_impl; [exact He|]. intros t Hin. by right. }
  clear Hreach He. revert s HO HS Hp Hexec.
  induction ls' as [|l ls' IH]; intros s HO HS Hp Hexec; cbn in Hexec.
  - simplify_eq. split; [done|].
    apply Exists_exists in Hp as (t & Hin & Hp). destruct HS as [HA _].
    rewrite Forall_forall in HA. apply (HA t Hin). by right.
  - destruct (step cfg l s) as [s1|] eqn:Hstep; [|done].
    destruct (step_after_stop _ _ _ _ HO HS Hp Hstep) as [Hd Hp1].
    rewrite <- Hd. apply IH; try done.
    + by eapply once_inv_step.
    + by eapply stop_inv_step.
Qed.

(** ** C1: the identifier of the events handed to the sink *)

Lemma delivered_inv_step cfg l s s' :
  delivered_inv cfg s -> step cfg l s = Some s' -> delivered_inv cfg s'.
Proof.
  intros [HW HD] H.
  assert (Hc : Forall (fun w => forall sub tid, wat w = W_Receive sub tid ->
                         tid = makeTopicID (ProjectID cfg) (Topic cfg))
                 (map (set_runCancelled true) (workers s))).
  { apply Forall_fmap. eapply Forall_impl; [exact HW|]. done. }
  destruct l; cbn [step] in H.
  - case_match; by simplify_eq.
  - unfold parent_step in H. case_match; by simplify_eq.
  - destruct (threads s !! i) as [t|] eqn:Ht; [|done].
    unfold thread_step in H.
    destruct (tat t); repeat case_match; simplify_eq; split; try done.
    cbn. apply Forall_app. split; [done|]. by repeat constructor.
  - destruct (workers s !! j) as [w|] eqn:Hw; [|done].
    pose proof (Forall_lookup_1 _ _ _ _ HW Hw) as Hww. cbn in Hww.
    destruct (worker_step_frame _ _ _ _ _ _ H) as (_ & Hd & _).
    split; [|by rewrite Hd].
    unfold worker_step in H.
    destruct (wat w) eqn:Hat; repeat case_match; simplify_eq; cbn;
      apply Forall_insert; try done; cbn; intros sub0 tid0 Heq; by simplify_eq.
  - destruct (workers s !! j) as [w|] eqn:Hw; [|done].
    pose proof (Forall_lookup_1 _ _ _ _ HW Hw) as Hww.
    case_match; simplify_eq. split; [|done]. cbn. by apply Forall_insert.
  - destruct (workers s !! j) as [w|] eqn:Hw; [|done].
    pose proof (Forall_lookup_1 _ _ _ _ HW Hw) as Hww. cbn in Hww.
    destruct (handlers w !! k) as [h|] eqn:Hh; [|done].
    unfold handler_step in H. destruct (wat w) eqn:Hat; try done.
    specialize (Hww _ _ eq_refl). subst topicID.
    repeat case_match; simplify_eq; split; cbn;
      try (apply Forall_insert; [done|]; cbn; rewrite Hat;
           intros ? ? ?; by simplify_eq);
      try done.
    all: constructor; [|done]; cbn; exists (hmsg h);
      split; [unfold makeEvent; by case_match | apply makeEvent_id].
  - destruct (metrics (inp s)) as [m|]; [|done].
    pose proof (ack_callback_delivered privates m (world s)) as Hd.
    destruct (ack_callback privates (m, world s)) as [m' w'].
    simplify_eq. split; [done|]. cbn in *. by rewrite Hd.
Qed.

Lemma delivered_inv_reachable cfg t0 sv programs ls s :
  exec cfg ls (NewInput t0 sv programs) = Some s -> delivered_inv cfg s.
Proof.
  apply (exec_invariant cfg (delivered_inv cfg)); eauto using delivered_inv_step.
  split; constructor.
Qed.

(** C1.  The event built from a message of the topic gets the
    identifier [makeTopicID project topic ++ "-" ++ msgID], both as the
    event's ID and in its [event.id] field.  The identifier is a function
    of the triple alone (the clock, the payload, the attributes and the
    publish time do not enter it).  [makeTopicID project topic] is the
    first 10 characters of the hex SHA-256 digest of [project ++ topic];
    the slice never fails, has exactly 10 characters, all of them hex
    digits.  Every event the input hands to the sink is built this way
    from the configured project and topic and from its own message. *)
Theorem C1_event_identifier (now : Time) (project topic : string) (msg : Message) :
  let topicID := makeTopicID project topic in
  let e := makeEvent now topicID msg in
  evID e = topicID ++ "-" ++ msgID msg
  /\ (exists fields, evFields e !! "event" = Some (VMap fields)
        /\ fields !! "id" = Some (VString (topicID ++ "-" ++ msgID msg)))
  /\ (forall now' data attrs published,
        evID (makeEvent now' topicID (MkMessage (msgID msg) data attrs published))
        = evID e)
  /\ makeTopicID_checked project topic = Some topicID
  /\ topicID = substring 0 10 (Hex.EncodeToString (Sha256.Sum
        (Sha256.Write Sha256.New (bytes_of_string (project ++ topic)))))
  /\ String.length topicID = 10%nat
  /\ all_hex topicID
  /\ (forall cfg t0 sv programs ls s d,
        ProjectID cfg = project -> Topic cfg = topic ->
        exec cfg ls (NewInput t0 sv programs) = Some s ->
        d ∈ delivered (world s) ->
        exists m, evPrivate d.1 = PrivMessage m
                  /\ evID d.1 = topicID ++ "-" ++ msgID m).
Proof.
  intros topicID e. subst e.
  split; [apply makeEvent_id|].
  split.
  { eexists. split; [apply makeEvent_event_field|]. by simplify_map_eq. }
  split; [intros; by rewrite !makeEvent_id|].
  destruct (makeTopicID_checked_Some project topic) as [H1 H2].
  split; [exact H1|]. split; [exact H2|].
  split; [apply makeTopicID_length|]. split; [apply makeTopicID_hex|].
  intros cfg t0 sv programs ls s d <- <- Hreach Hin.
  destruct (delivered_inv_reachable _ _ _ _ _ _ Hreach) as [_ HD].
  rewrite Forall_forall in HD. exact (HD d Hin).
Qed.

Lemma C1_event_identifier_witness :
  length (delivered (world sample_delivered)) = 1%nat
  /\ Forall (fun d => exists m, evPrivate d.1 = PrivMessage m
                       /\ evID d.1 = makeTopicID "proj" "topic" ++ "-" ++ msgID m)
            (delivered (world sample_delivered)).
Proof.
  split; [vm_compute; reflexivity|].
  apply Forall_forall. intros d Hd.
  pose proof (C1_event_identifier (MkTime 0 "Local") "proj" "topic" sample_message)
    as (_ & _ & _ & _ & _ & _ & _ & H).
  apply (H sample_config 0 sample_service [[CallRun]; [CallStop]]
           (sample_schedule ++ [LHandler 0 0 true])%list sample_delivered d
           eq_refl eq_refl); [vm_compute; reflexivity | exact Hd].
Defined.

(* ===================================================================== *)
(** * Further properties of the code *)
(* ===================================================================== *)

(** ** The other configuration checks *)

Lemma HasField_spec cfg field :
  HasField cfg field = true <-> field ∈ Checks.GetFields cfg.
Proof. unfold HasField. apply bool_decide_eq_true. Qed.

Lemma RequireFields_nil_iff fields cfg :
  RequireFields fields cfg = None
  <-> forall f, f ∈ fields -> f ∈ Checks.GetFields cfg.
Proof.
  induction fields as [|a fields IH]; cbn.
  - split; [|done]. intros _ f Hf. by apply elem_of_nil in Hf.
  - destruct (HasField cfg a) eqn:Ha; cbn.
    + apply HasField_spec in Ha. rewrite IH. split.
      * intros H f Hf. apply elem_of_cons in Hf as [->|Hf]; auto.
      * intros H f Hf. apply H. by right.
    + split; [done|]. intros H. exfalso.
      assert (HasField cfg a = true) by (apply HasField_spec, H; left).
      congruence.
Qed.

(** X1.  [RequireFields] returns nil exactly when every listed name is
    a key of the configuration; otherwise the error names the first
    listed name that is missing. *)
Theorem RequireFields_first_missing (fields : list string) (cfg : Checks.C) :
  (RequireFields fields cfg = None
     <-> forall f, f ∈ fields -> f ∈ Checks.GetFields cfg)
  /\ (forall pre f post,
        fields = (pre ++ f :: post)%list ->
        (forall g, g ∈ pre -> g ∈ Checks.GetFields cfg) ->
        f ∉ Checks.GetFields cfg ->
        RequireFields fields cfg = Some (ErrNew ("missing " ++ f ++ " option"))).
Proof.
  split; [apply RequireFields_nil_iff|].
  intros pre. revert fields.
  induction pre as [|a pre IH]; intros fields f post -> Hpre Hf; cbn.
  - destruct (HasField cfg f) eqn:Ha; [|done].
    apply HasField_spec in Ha. done.
  - assert (HasField cfg a = true) as -> by (apply HasField_spec, Hpre; left).
    cbn. eapply IH; [done| |done]. intros g Hg. apply Hpre. by right.
Qed.

Lemma found_among_spec field allowed :
  found_among field allowed = true <-> field ∈ allowed.
Proof.
  induction allowed as [|a allowed IH]; cbn.
  - split; [done|]. intros H. by apply elem_of_nil in H.
  - destruct (String.eqb_spec field a) as [->|Hne].
    + split; [|done]. intros _. left.
    + rewrite IH. split; [by right|].
      intros H. apply elem_of_cons in H as [?|?]; done.
Qed.

Lemma AllowedFields_nil_iff allowed cfg :
  AllowedFields allowed cfg = None
  <-> forall k, k ∈ Checks.GetFields cfg -> k ∈ allowed.
Proof.
  unfold AllowedFields. generalize (Checks.GetFields cfg) as keys. intros keys.
  induction keys as [|a keys IH]; cbn.
  - split; [|done]. intros _ f Hf. by apply elem_of_nil in Hf.
  - destruct (found_among a allowed) eqn:Ha; cbn.
    + apply found_among_spec in Ha. rewrite IH. split.
      * intros H f Hf. apply elem_of_cons in Hf as [->|Hf]; auto.
      * intros H f Hf. apply H. by right.
    + split; [done|]. intros H. exfalso.
      assert (found_among a allowed = true) by (apply found_among_spec, H; left).
      congruence.
Qed.

(** X2.  [AllowedFields] returns nil exactly when every key of the
    configuration is among the allowed names; otherwise the error names
    the first key, in the order of [GetFields], that is not allowed. *)
Theorem AllowedFields_first_unexpected (allowed : list string) (cfg : Checks.C) :
  (AllowedFields allowed cfg = None
     <-> forall k, k ∈ Checks.GetFields cfg -> k ∈ allowed)
  /\ (forall pre k post,
        Checks.GetFields cfg = (pre ++ k :: post)%list ->
        (forall g, g ∈ pre -> g ∈ allowed) ->
        k ∉ allowed ->
        AllowedFields allowed cfg = Some (ErrNew ("unexpected " ++ k ++ " option"))).
Proof.
  split; [apply AllowedFields_nil_iff|].
  unfold AllowedFields. generalize (Checks.GetFields cfg) as keys. intros keys.
  intros pre. revert keys.
  induction pre as [|a pre IH]; intros keys k post -> Hpre Hk; cbn.
  - destruct (found_among k allowed) eqn:Ha; [|done].
    apply found_among_spec in Ha. done.
  - assert (found_among a allowed = true) as ->
      by (apply found_among_spec, Hpre; left).
    cbn. eapply IH; [done| |done]. intros g Hg. apply Hpre. by right.
Qed.

Lemma checkAll_None checks cfg :
  checkAll checks cfg = None <-> Forall (fun check => check cfg = None) checks.
Proof.
  induction checks as [|c checks IH]; cbn.
  - split; [constructor|done].
  - destruct (c cfg) eqn:E.
    + split; [done|]. intros H. inversion H; subst. congruence.
    + rewrite IH. split; [by constructor|]. intros H. by inversion H.
Qed.

Lemma checkAll_first pre : forall checks check post cfg err,
  checks = (pre ++ check :: post)%list ->
  Forall (fun c => c cfg = None) pre -> check cfg = Some err ->
  checkAll checks cfg = Some err.
Proof.
  induction pre as [|a pre IH]; intros checks check post cfg err -> Hpre Hc; cbn.
  - by rewrite Hc.
  - inversion Hpre; subst. rewrite H1. eauto.
Qed.

(** X3.  The constructor wrapped by [ConfigChecked] gives the result of
    the original constructor exactly when every check returns nil.
    Otherwise the error is that of the first failing check, with the
    path of the configuration appended, whatever the original
    constructor would do, and it unwraps to the check's error. *)
Theorem ConfigChecked_validates {Processor Logger : Type}
    (constr : Checks.C -> Logger -> error + Processor)
    (checks : list (Checks.C -> option error))
    (path : string) (cfg : Checks.C) (log : Logger) :
  (Forall (fun check => check cfg = None) checks ->
     ConfigChecked constr checks path cfg log
     = match constr cfg log with
       | inl err => inl (FromConstructor err)
       | inr p => inr p
       end)
  /\ (forall p, ConfigChecked constr checks path cfg log = inr p ->
        Forall (fun check => check cfg = None) checks /\ constr cfg log = inr p)
  /\ (forall pre check post err,
        checks = (pre ++ check :: post)%list ->
        Forall (fun c => c cfg = None) pre -> check cfg = Some err ->
        (forall constr' : Checks.C -> Logger -> error + Processor,
           ConfigChecked constr' checks path cfg log = inl (InPath err path))
        /\ checked_Error (InPath err path) = Error err ++ " in " ++ path).
Proof.
  unfold ConfigChecked. split; [|split].
  - intros H. apply checkAll_None in H. by rewrite H.
  - intros p H. destruct (checkAll checks cfg) eqn:E; [done|].
    apply checkAll_None in E. split; [done|].
    by destruct (constr cfg log); simplify_eq.
  - intros pre check post err Heq Hpre Hc. split; [|done].
    intros constr'. by rewrite (checkAll_first pre _ _ _ _ _ Heq Hpre Hc).
Qed.

(** X4.  [RequireFields] followed by [AllowedFields] passes exactly when
    the required names are keys and the keys are allowed names; so a
    required name that is not allowed makes the pair fail on every
    configuration. *)
Theorem Require_then_Allowed (required allowed : list string) (cfg : Checks.C) :
  (checkAll [RequireFields required; AllowedFields allowed] cfg = None
     <-> (forall f, f ∈ required -> f ∈ Checks.GetFields cfg)
         /\ (forall k, k ∈ Checks.GetFields cfg -> k ∈ allowed))
  /\ (forall f, f ∈ required -> f ∉ allowed ->
        checkAll [RequireFields required; AllowedFields allowed] cfg <> None).
Proof.
  assert (Hiff : checkAll [RequireFields required; AllowedFields allowed] cfg = None
     <-> (forall f, f ∈ required -> f ∈ Checks.GetFields cfg)
         /\ (forall k, k ∈ Checks.GetFields cfg -> k ∈ allowed)).
  { rewrite checkAll_None.
    rewrite <- RequireFields_nil_iff, <- AllowedFields_nil_iff.
    split.
    - intros H. inversion H as [|? ? H1 H2]; subst. by inversion H2.
    - intros [H1 H2]. by repeat constructor. }
  split; [exact Hiff|].
  intros f Hf Hn H. apply Hiff in H as [H1 H2]. apply Hn, H2, H1, Hf.
Qed.

(** ** [MutuallyExclusiveRequiredFields] without preconditions *)

Lemma feed_app ff a b :
  feed ff (a ++ b)
  = match feed ff a with inl e => inl e | inr ff' => feed ff' b end.
Proof.
  revert ff. induction a as [|m a IH]; intros ff; cbn; [done|].
  destruct (String.length ff =? 0)%nat; [apply IH|done].
Qed.

Lemma scan_fields_feed field fields ff :
  Checks.scan_fields field fields ff
  = feed ff (filter (fun f => f = field) fields).
Proof.
  revert ff. induction fields as [|f fields IH]; intros ff; [done|].
  rewrite filter_cons. cbn [Checks.scan_fields].
  destruct (String.eqb_spec field f) as [->|Hne].
  - rewrite decide_True by done. cbn [feed].
    destruct (String.length ff =? 0)%nat; [apply IH|done].
  - rewrite decide_False by congruence. apply IH.
Qed.

Lemma scan_config_feed keys fields ff :
  Checks.scan_config keys fields ff
  = feed ff (flat_map (fun field => filter (fun f => f = field) fields) keys).
Proof.
  revert ff. induction keys as [|k keys IH]; intros ff; [done|].
  cbn [Checks.scan_config flat_map].
  rewrite feed_app, scan_fields_feed.
  destruct (feed ff _); [done|apply IH].
Qed.

Lemma feed_empty_prefix n ms : feed "" (repeat "" n ++ ms) = feed "" ms.
Proof. induction n as [|n IH]; [done|]. cbn. apply IH. Qed.

(** The matches are empty names, then nothing, one name, or more. *)
Lemma matches_shape (ms : list string) :
  (exists n, ms = repeat "" n)
  \/ (exists n f, f <> "" /\ ms = (repeat "" n ++ [f])%list)
  \/ (exists n a b rest, a <> "" /\ ms = (repeat "" n ++ a :: b :: rest)%list).
Proof.
  induction ms as [|m ms IH]; [left; by exists 0%nat|].
  destruct (decide (m = "")) as [->|Hne].
  - destruct IH as [[n ->]|[(n & f & Hf & ->)|(n & a & b & rest & Ha & ->)]].
    + left. by exists (S n).
    + right; left. by exists (S n), f.
    + right; right. by exists (S n), a, b, rest.
  - destruct ms as [|b rest].
    + right; left. by exists 0%nat, m.
    + right; right. by exists 0%nat, m, b, rest.
Qed.

Lemma filter_eq_flat_map (f : string) (g : string -> list string) keys :
  f ∈ keys ->
  (length (filter (fun x => x = f) (g f))
   <= length (filter (fun x => x = f) (flat_map g keys)))%nat.
Proof.
  induction keys as [|k keys IH]; intros Hin; [by apply elem_of_nil in Hin|].
  cbn [flat_map]. rewrite filter_app, length_app.
  apply elem_of_cons in Hin as [->|Hin]; [lia|].
  specialize (IH Hin). lia.
Qed.

Lemma filter_eq_repeat_empty (f : string) n :
  f <> "" -> filter (fun x => x = f) (repeat "" n) = [].
Proof.
  intros Hf. induction n as [|n IH]; [done|].
  cbn [repeat]. rewrite filter_cons, decide_False by congruence. exact IH.
Qed.

(** X5.  [MutuallyExclusiveRequiredFields] for any list of names, also
    with repetitions and the empty name.  Let the matches be the names
    on which the test [field == f] succeeds, in the order of the loops.
    The result is nil exactly when the matches are empty names followed
    by one non-empty name; a non-empty match followed by another match
    gives the error naming these two; matches that are all empty give
    the missing-option error.  So a non-empty name listed twice that is
    a key of the configuration always gives an error. *)
Theorem MutuallyExclusive_by_matches (fields : list string) (cfg : Checks.C) :
  let ms := matches fields cfg in
  (Checks.MutuallyExclusiveRequiredFields fields cfg = None
     <-> exists n f, f <> "" /\ ms = (repeat "" n ++ [f])%list)
  /\ (forall n a b rest,
        a <> "" -> ms = (repeat "" n ++ a :: b :: rest)%list ->
        Checks.MutuallyExclusiveRequiredFields fields cfg
        = Some (ErrNew ("field " ++ a ++ " and " ++ b ++ " are mutually exclusive")))
  /\ (forall n, ms = repeat "" n ->
        Checks.MutuallyExclusiveRequiredFields fields cfg
        = Some (Checks.missing_error fields))
  /\ (forall f, f <> "" -> f ∈ Checks.GetFields cfg ->
        (2 <= length (filter (fun x => x = f) fields))%nat ->
        Checks.MutuallyExclusiveRequiredFields fields cfg <> None).
Proof.
  intros ms.
  assert (Hrun : Checks.MutuallyExclusiveRequiredFields fields cfg
                 = match feed "" ms with
                   | inl err => Some err
                   | inr ff => if (String.length ff =? 0)%nat
                               then Some (Checks.missing_error fields) else None
                   end).
  { unfold Checks.MutuallyExclusiveRequiredFields. by rewrite scan_config_feed. }
  assert (Hone : forall n f, f <> "" -> ms = (repeat "" n ++ [f])%list ->
                 Checks.MutuallyExclusiveRequiredFields fields cfg = None).
  { intros n f Hf E. rewrite Hrun, E, feed_empty_prefix. cbn.
    destruct (String.length f =? 0)%nat eqn:El; [|done].
    by apply length_zero_empty in El. }
  assert (Htwo : forall n a b rest,
            a <> "" -> ms = (repeat "" n ++ a :: b :: rest)%list ->
            Checks.MutuallyExclusiveRequiredFields fields cfg
            = Some (Checks.exclusive_error a b)).
  { intros n a b rest Ha E. rewrite Hrun, E, feed_empty_prefix. cbn.
    destruct (String.length a =? 0)%nat eqn:El; [|done].
    by apply length_zero_empty in El. }
  assert (Hnone : forall n, ms = repeat "" n ->
            Checks.MutuallyExclusiveRequiredFields fields cfg
            = Some (Checks.missing_error fields)).
  { intros n E. rewrite Hrun, E.
    rewrite <- (app_nil_r (repeat "" n)), feed_empty_prefix. done. }
  assert (Hiff : Checks.MutuallyExclusiveRequiredFields fields cfg = None
     <-> exists n f, f <> "" /\ ms = (repeat "" n ++ [f])%list).
  { split.
    - intros HN.
      destruct (matches_shape ms)
        as [[n E]|[(n & f & Hf & E)|(n & a & b & rest & Ha & E)]].
      + rewrite (Hnone n E) in HN. done.
      + by exists n, f.
      + rewrite (Htwo n a b rest Ha E) in HN. done.
    - intros (n & f & Hf & E). by eapply Hone. }
  split; [exact Hiff|]. split; [exact Htwo|]. split; [exact Hnone|].
  intros f Hf Hin Hlen HN. apply Hiff in HN as (n & g & Hg & E).
  pose proof (filter_eq_flat_map f
                (fun field => filter (fun x => x = field) fields)
                (Checks.GetFields cfg) Hin) as Hle.
  cbn beta in Hle. fold (matches fields cfg) in Hle. fold ms in Hle.
  rewrite E, filter_app, filter_eq_repeat_empty in Hle by done.
  assert (filter (fun x => x = f) (filter (fun x => x = f) fields)
          = filter (fun x => x = f) fields) as Hff.
  { clear. induction fields as [|a l IH]; [done|].
    rewrite filter_cons. case_decide.
    - rewrite !filter_cons, decide_True by done. by rewrite IH.
    - exact IH. }
  rewrite Hff, filter_cons, filter_nil in Hle.
  case_decide; cbn in Hle; lia.
Qed.

(** ** The topic identifier and the event *)

(** X6.  [makeTopicID] sees the project and the topic only through their
    concatenation: two pairs that concatenate to the same string get the
    same identifier, and so do the events of their messages. *)
Theorem makeTopicID_concatenation (project topic project' topic' : string) :
  project ++ topic = project' ++ topic' ->
  makeTopicID project topic = makeTopicID project' topic'
  /\ (forall now msg,
        evID (makeEvent now (makeTopicID project topic) msg)
        = evID (makeEvent now (makeTopicID project' topic') msg)).
Proof.
  intros H.
  assert (E : makeTopicID project topic = makeTopicID project' topic').
  { destruct (makeTopicID_checked_Some project topic) as [_ ->].
    destruct (makeTopicID_checked_Some project' topic') as [_ ->].
    by rewrite H. }
  split; [exact E|]. intros now msg. by rewrite E.
Qed.

Lemma makeTopicID_concatenation_witness :
  makeTopicID "ab" "c" = makeTopicID "a" "bc".
Proof.
  apply (makeTopicID_concatenation "ab" "c" "a" "bc"). reflexivity.
Defined.

(** X7.  The event of [makeEvent] has the fields [event] and [message],
    the field [labels] exactly when the message has an attribute, and no
    other; its [event] field has the entries [id] and [created] and no
    other. *)
Theorem makeEvent_field_names (now : Time) (topicID : string) (msg : Message) :
  let e := makeEvent now topicID msg in
  dom (evFields e)
  = ({["event"; "message"]}
     ∪ (if decide (msgAttributes msg = ∅) then ∅ else {["labels"]}) : gset string)
  /\ (forall fields, evFields e !! "event" = Some (VMap fields) ->
        dom fields = ({["id"; "created"]} : gset string)).
Proof.
  intros e. subst e. split.
  - unfold makeEvent.
    destruct (0 <? Z.of_nat (size (msgAttributes msg))) eqn:E; case_decide as Ha;
      cbn [evFields SetID].
    + apply Z.ltb_lt in E. rewrite Ha, map_size_empty in E. lia.
    + rewrite !dom_insert_L, dom_empty_L. set_solver.
    + rewrite !dom_insert_L, dom_empty_L. set_solver.
    + apply Z.ltb_ge in E.
      assert (size (msgAttributes msg) = 0%nat) as Hs by lia.
      by apply map_size_empty_iff in Hs.
  - intros fields Hf. rewrite makeEvent_event_field in Hf.
    injection Hf as <-. rewrite !dom_insert_L, dom_empty_L. set_solver.
Qed.

(** ** [getOrCreateSubscription]: errors, frame and idempotence *)

(** X8.  Whatever the service holds and the calls answer,
    [getOrCreateSubscription] touches no subscription but the configured
    one and never rebinds an existing one.  An error leaves the service
    as it was, logs nothing, and is one of three: the error of [Exists]
    wrapped, the error of [CreateSubscription] wrapped, or the
    creation-disabled error; it is a cancellation only when the failed
    call's error is one.  After a success the subscription exists, and
    calling again returns the same handle without creating anything,
    whatever [CreateSubscription] would answer. *)
Theorem getOrCreateSubscription_outcomes (cfg : config)
    (existsErr createErr : option error) (sv : gmap string string) :
  let name := SubscriptionName cfg in
  let r := getOrCreateSubscription cfg existsErr createErr sv in
  (forall n, n <> name -> r.1.2 !! n = sv !! n)
  /\ (is_Some (sv !! name) -> r.1.2 = sv /\ r.2 = [])
  /\ (forall e, r.1.1 = inl e ->
        r.1.2 = sv /\ r.2 = []
        /\ ((exists e0, existsErr = Some e0
               /\ e = ErrWrap "failed to check if subscription exists: " e0
               /\ Is_Canceled e = Is_Canceled e0)
            \/ (exists e0, existsErr = None /\ sv !! name = None
                  /\ SubscriptionCreate cfg = true /\ createErr = Some e0
                  /\ e = ErrWrap "failed to create subscription: " e0
                  /\ Is_Canceled e = Is_Canceled e0)
            \/ (existsErr = None /\ sv !! name = None
                /\ SubscriptionCreate cfg = false /\ e = no_subscription
                /\ Is_Canceled e = false)))
  /\ (forall sub, r.1.1 = inr sub ->
        existsErr = None /\ subName sub = name /\ is_Some (r.1.2 !! name)
        /\ (forall createErr',
              getOrCreateSubscription cfg None createErr' r.1.2
              = (inr sub, r.1.2, []))).
Proof.
  intros name r. subst r. unfold getOrCreateSubscription. fold name.
  destruct existsErr as [e0|].
  { cbn. split; [done|]. split; [done|]. split; [|done].
    intros e [= <-]. split; [done|]. split; [done|]. left. by exists e0. }
  destruct (decide (is_Some (sv !! name))) as [Hs|Hs].
  { rewrite (bool_decide_eq_true_2 _ Hs). cbn.
    split; [done|]. split; [done|]. split; [done|].
    intros sub [= <-]. split; [done|]. split; [done|]. split; [done|].
    intros createErr'. by rewrite (bool_decide_eq_true_2 _ Hs). }
  rewrite (bool_decide_eq_false_2 _ Hs).
  assert (Hn : sv !! name = None).
  { destruct (sv !! name) eqn:E; [|done]. exfalso. apply Hs. by eexists. }
  destruct (SubscriptionCreate cfg) eqn:Hc.
  - destruct createErr as [e0|]; cbn.
    + split; [done|]. split; [done|]. split; [|done].
      intros e [= <-]. split; [done|]. split; [done|].
      right; left. by exists e0.
    + split; [intros n Hne; by rewrite lookup_insert_ne|].
      split; [intros Hs'; done|]. split; [done|].
      intros sub [= <-]. split; [done|]. split; [done|].
      assert (Hi : is_Some (<[name := Topic cfg]> sv !! name))
        by (rewrite lookup_insert_eq; by eexists).
      split; [exact Hi|].
      intros createErr'. by rewrite (bool_decide_eq_true_2 _ Hi).
  - cbn. split; [done|]. split; [done|]. split; [|done].
    intros e [= <-]. split; [done|]. split; [done|]. right; right. done.
Qed.

(** ** Callbacks and contexts *)

Lemma reachable_init cfg t0 sv programs : reachable cfg (NewInput t0 sv programs).
Proof. by exists t0, sv, programs, []. Qed.

Lemma reachable_exec cfg ls s s' :
  reachable cfg s -> exec cfg ls s = Some s' -> reachable cfg s'.
Proof.
  intros (t0 & sv & programs & ls0 & H) He.
  exists t0, sv, programs, (ls0 ++ ls)%list. by rewrite exec_app, H.
Qed.

Lemma reachable_step cfg l s s' :
  reachable cfg s -> step cfg l s = Some s' -> reachable cfg s'.
Proof.
  intros Hr Hs. apply (reachable_exec cfg [l] s s' Hr). cbn. by rewrite Hs.
Qed.

Lemma reachable_invariant cfg (P : System -> Prop) :
  (forall t0 sv programs, P (NewInput t0 sv programs)) ->
  (forall l s s', reachable cfg s -> P s -> step cfg l s = Some s' -> P s') ->
  forall s, reachable cfg s -> P s.
Proof.
  intros Hinit Hstep s (t0 & sv & programs & ls & H).
  assert (Hboth : reachable cfg s /\ P s); [|by destruct Hboth].
  revert H.
  apply (exec_invariant cfg (fun s => reachable cfg s /\ P s)).
  - intros l s1 s2 [Hr HP] Hs. split; [by eapply reachable_step|by eapply Hstep].
  - split; [apply reachable_init|apply Hinit].
Qed.

Lemma reachable_once cfg s : reachable cfg s -> once_inv s.
Proof. intros (t0 & sv & programs & ls & H). by eapply once_inv_reachable. Qed.

Lemma scope_ok_cancel c w : scope_ok c w -> scope_ok true (set_runCancelled true w).
Proof. intros [H1 H2]. split; [exact H1|done]. Qed.

Lemma scope_inv_cancel c ws :
  Forall (scope_ok c) ws -> Forall (scope_ok true) (map (set_runCancelled true) ws).
Proof.
  intros H. apply Forall_fmap. eapply Forall_impl; [exact H|].
  intros w Hw. by eapply scope_ok_cancel.
Qed.

Lemma scope_inv_step cfg l s s' :
  scope_inv s -> step cfg l s = Some s' -> scope_inv s'.
Proof.
  unfold scope_inv. intros HI H. destruct l; cbn [step] in H.
  - case_match; by simplify_eq.
  - unfold parent_step in H. case_match; simplify_eq; try done.
    cbn. by eapply scope_inv_cancel.
  - destruct (threads s !! i) as [t|] eqn:Ht; [|done].
    unfold thread_step in H.
    destruct (tat t); repeat case_match; simplify_eq; try done; cbn.
    + apply Forall_app. split; [done|]. by repeat constructor.
    + by eapply scope_inv_cancel.
  - destruct (workers s !! j) as [w|] eqn:Hw; [|done].
    pose proof (Forall_lookup_1 _ _ _ _ HI Hw) as [Hw1 Hw2].
    unfold worker_step in H. unfold receiving, in_run in Hw1, Hw2.
    destruct (wat w) eqn:Hat; repeat case_match; simplify_eq; cbn;
      try match goal with E : workerCancelled (inp s) = _ |- _ => rewrite ?E end;
      try (apply Forall_insert; [first [done | by eapply scope_inv_cancel]|]);
      split; unfold receiving, in_run; cbn; intros; try done;
      try (by apply Hw1); try (by apply Hw2); try congruence.
  - destruct (workers s !! j) as [w|] eqn:Hw; [|done].
    pose proof (Forall_lookup_1 _ _ _ _ HI Hw) as [Hw1 Hw2].
    unfold receiving, in_run in Hw1, Hw2.
    destruct (wat w) eqn:Hat; simplify_eq. cbn.
    apply Forall_insert; [done|]. split; unfold receiving, in_run; cbn;
      rewrite Hat; [done|]. intros Hc _. by apply Hw2.
  - destruct (workers s !! j) as [w|] eqn:Hw; [|done].
    pose proof (Forall_lookup_1 _ _ _ _ HI Hw) as [Hw1 Hw2].
    unfold receiving, in_run in Hw1, Hw2.
    destruct (handlers w !! k) as [h|] eqn:Hh; [|done].
    unfold handler_step in H. destruct (wat w) eqn:Hat; try done.
    repeat case_match; simplify_eq; cbn; (apply Forall_insert; [done|]);
      split; unfold receiving, in_run; cbn; rewrite ?Hat; try done;
      intros Hc _; by apply Hw2.
  - destruct (metrics (inp s)) as [m|]; [|done].
    destruct (ack_callback privates (m, world s)) as [m' w'].
    by simplify_eq.
Qed.

Lemma scope_inv_reachable cfg s : reachable cfg s -> scope_inv s.
Proof.
  apply (reachable_invariant cfg scope_inv).
  - intros. constructor.
  - intros l s1 s2 _. apply scope_inv_step.
Qed.

(** X10.  In every state the input reaches: a callback that has not
    returned belongs to a worker inside [sub.Receive], so outside of it
    no message is handled and none arrives; once the worker context is
    cancelled, so is the context of the attempt in progress; and then a
    worker inside [sub.Receive] whose callbacks have all returned leaves
    it at its next step, with no error and without touching the world. *)
Theorem callbacks_within_Receive (cfg : config) (t0 : Z)
    (sv : gmap string string) (programs : list (list Call)) (ls : list label)
    (s : System) (j : nat) (w : Worker) :
  exec cfg ls (NewInput t0 sv programs) = Some s ->
  workers s !! j = Some w ->
  (receiving w = false ->
     all_done (handlers w) = true
     /\ (forall k ok, step cfg (LHandler j k ok) s = None)
     /\ (forall msg, step cfg (LArrive j msg) s = None))
  /\ (workerCancelled (inp s) = true -> in_run w = true -> runCancelled w = true)
  /\ (workerCancelled (inp s) = true -> receiving w = true ->
      all_done (handlers w) = true ->
      step cfg (LWorker j NoReply) s
      = Some (set_worker j (set_wat (W_Return None) w) s)).
Proof.
  intros Hreach Hw.
  assert (Hr : reachable cfg s) by (by exists t0, sv, programs, ls).
  pose proof (Forall_lookup_1 _ _ _ _ (scope_inv_reachable _ _ Hr) Hw) as [H1 H2].
  split; [|split; [exact H2|]].
  - intros Hn. split; [by apply H1|]. unfold receiving in Hn. split.
    + intros k ok. cbn [step]. rewrite Hw.
      destruct (handlers w !! k) as [h|]; [|done].
      unfold handler_step. by destruct (wat w).
    + intros msg. cbn [step]. rewrite Hw. by destruct (wat w).
  - intros Hc Hrecv Hd.
    assert (Hrun : runCancelled w = true).
    { apply H2; [done|]. unfold receiving in Hrecv. unfold in_run.
      by destruct (wat w). }
    cbn [step]. rewrite Hw. unfold worker_step. unfold receiving in Hrecv.
    destruct (wat w); try done. by rewrite Hd, Hrun.
Qed.

Lemma callbacks_within_Receive_witness :
  all_done (handlers (MkWorker W_Wait (MkLimiter 0 retryInterval) false [] [])) = true
  /\ step sample_config (LArrive 0 sample_message) sample_looping = None.
Proof.
  destruct (callbacks_within_Receive sample_config 0 sample_service
              [[CallRun]; [CallStop]]
              (repeat (LThread 0) 6 ++ repeat (LWorker 0 NoReply) 3)%list
              sample_looping 0
              (MkWorker W_Wait (MkLimiter 0 retryInterval) false [] []))
    as (H1 & _).
  - vm_compute. reflexivity.
  - vm_compute. reflexivity.
  - destruct (H1 eq_refl) as (Hd & _ & Ha). split; [exact Hd|apply Ha].
Defined.

(** ** The wait group *)

Lemma tally_add {A} (f g : A -> nat) l :
  tally (fun x => (f x + g x)%nat) l = (tally f l + tally g l)%nat.
Proof.
  unfold tally. induction l as [|x l IH]; cbn; [done|]. rewrite IH. lia.
Qed.

Lemma tally_live_length ws : (tally live ws <= length ws)%nat.
Proof.
  unfold tally. induction ws as [|w ws IH]; cbn; [done|].
  unfold live at 1. destruct (wat w); lia.
Qed.

Lemma added_started_le_in_body t : (added t + started t <= in_body t)%nat.
Proof. unfold added, started, in_body. destruct (tat t); lia. Qed.

Lemma tally_fmap {A} (f : A -> nat) (g : A -> A) l :
  (forall x, f (g x) = f x) -> tally f (map g l) = tally f l.
Proof.
  intros H. unfold tally. induction l as [|x l IH]; cbn; [done|].
  by rewrite H, IH.
Qed.


Lemma waitgroup_range s :
  once_inv s -> 0 <= workerWg (inp s) <= 1.
Proof.
  intros (Hwg & Hm & Hret & Honce).
  pose proof (tally_live_length (workers s)) as Hl.
  pose proof (tally_le (fun t => (added t + started t)%nat) in_body (threads s)
                added_started_le_in_body) as Hs.
  rewrite tally_add in Hs.
  pose proof (tally_le added in_body (threads s) added_le_in_body).
  destruct (workerOnce (inp s)); lia.
Qed.

(** X11.  In every state the input reaches the counter of [workerWg] is
    0 or 1; it is 1 as long as a worker goroutine has not called
    [workerWg.Done()], so that [Wait] in [Stop] blocks until then; the
    deferred [Done()] always finds the counter at 1 and brings it to 0,
    never below; and the callback's [nackedMessageCount.Inc()] always
    finds [metrics] non-nil. *)
Theorem waitgroup_bounds (cfg : config) (t0 : Z) (sv : gmap string string)
    (programs : list (list Call)) (ls : list label) (s : System) :
  exec cfg ls (NewInput t0 sv programs) = Some s ->
  0 <= workerWg (inp s) <= 1
  /\ (forall j w, workers s !! j = Some w -> live w = 1%nat ->
        workerWg (inp s) = 1
        /\ forall i t, threads s !! i = Some t -> tat t = S_Wait ->
             step cfg (LThread i) s = None)
  /\ (forall j w r, workers s !! j = Some w -> wat w = W_D_Done ->
        exists s', step cfg (LWorker j r) s = Some s'
                   /\ workerWg (inp s') = 0
                   /\ wat <$> workers s' !! j = Some W_D_Log)
  /\ (forall j k w h ok, workers s !! j = Some w -> handlers w !! k = Some h ->
        receiving w = true -> hat h = H_Inc ->
        exists s', step cfg (LHandler j k ok) s = Some s').
Proof.
  intros Hreach.
  pose proof (once_inv_reachable _ _ _ _ _ _ Hreach) as HO.
  pose proof (waitgroup_range s HO) as Hrange.
  assert (Hlive : forall j w, workers s !! j = Some w -> live w = 1%nat ->
                  workerWg (inp s) = 1).
  { intros j w Hw Hl. destruct HO as (Hwg & _).
    pose proof (tally_lookup live _ _ _ Hw). lia. }
  split; [exact Hrange|]. split; [|split].
  - intros j w Hw Hl. split; [by eapply Hlive|].
    intros i t Ht Hat. cbn [step]. rewrite Ht. unfold thread_step. rewrite Hat.
    rewrite (Hlive j w Hw Hl). done.
  - intros j w r Hw Hat.
    assert (Hone : workerWg (inp s) = 1).
    { apply (Hlive j w Hw). unfold live. by rewrite Hat. }
    cbn [step]. rewrite Hw. unfold worker_step. rewrite Hat, Hone. cbn.
    eexists. split; [reflexivity|]. split; [done|]. cbn.
    rewrite list_lookup_insert_eq by (by eapply lookup_lt_Some). done.
  - intros j k w h ok Hw Hh Hrecv Hat.
    destruct (worker_has_metrics s j w HO Hw) as [m Hm].
    cbn [step]. rewrite Hw, Hh. unfold handler_step. unfold receiving in Hrecv.
    destruct (wat w); try done. rewrite Hat, Hm. by eexists.
Qed.

Lemma waitgroup_bounds_witness :
  0 <= workerWg (inp sample_receiving) <= 1.
Proof.
  destruct (waitgroup_bounds sample_config 0 sample_service
              [[CallRun]; [CallStop]] sample_schedule sample_receiving)
    as (H & _).
  - vm_compute. reflexivity.
  - exact H.
Defined.

(** ** The counters and the calls *)



(** What the ACK callback does to the counters, the calls and the log. *)
Lemma ack_callback_effects p : forall m w,
  let r := ack_callback p (m, w) in
  bytesProcessedTotal r.1
  = bytesProcessedTotal m + payload_bytes (messages_of p)
  /\ length (processingTime r.1)
     = (length (processingTime m) + length (messages_of p))%nat
  /\ length (log r.2) = (length (log w) + count_other p)%nat
  /\ failed_lines (log r.2) = (failed_lines (log w) + count_other p)%nat
  /\ nackedMessageCount r.1 = nackedMessageCount m
  /\ now r.2 = now w /\ statusLog r.2 = statusLog w
  /\ service r.2 = service w /\ delivered r.2 = delivered w
  /\ closeCalls r.2 = closeCalls w.
Proof.
  induction p as [|x p IH]; intros m w.
  { cbn. repeat split; lia. }
  change (ack_callback (x :: p) (m, w))
    with (ack_callback p (ack_private x (m, w))).
  destruct x as [msg|]; cbn [ack_private].
  - match goal with |- context [ack_callback p (?m', ?w')] =>
      destruct (IH m' w') as (H1 & H2 & H3 & H4 & H5 & H6 & H7 & H8 & H9 & H10)
    end.
    cbn zeta. rewrite H1, H2, H3, H4, H5, H6, H7, H8, H9, H10. cbn.
    repeat split; try done; unfold payload_bytes, messages_of; cbn; lia.
  - match goal with |- context [ack_callback p (?m', ?w')] =>
      destruct (IH m' w') as (H1 & H2 & H3 & H4 & H5 & H6 & H7 & H8 & H9 & H10)
    end.
    cbn zeta. rewrite H1, H2, H3, H4, H5, H6, H7, H8, H9, H10. cbn.
    repeat split; try done; unfold payload_bytes, messages_of; cbn; lia.
Qed.

(** ** The ACK callback on a batch *)

Lemma ack_callback_app p q mw :
  ack_callback (p ++ q) mw = ack_callback q (ack_callback p mw).
Proof. unfold ack_callback. apply fold_left_app. Qed.

(** X9.  The ACK callback handles a batch element by element: a batch
    split in two gives the same result as the two parts in turn.  The
    byte counter grows by the total payload of the batch's messages, one
    latency sample is recorded per message, one error line is logged per
    element that is not a message, and the nacked counter, the clock,
    the statuses, the service and the sink's record are left alone. *)
Theorem ack_callback_batch (p q : list private) (m : inputMetrics) (w : World) :
  let r := ack_callback p (m, w) in
  ack_callback (p ++ q) (m, w) = ack_callback q r
  /\ bytesProcessedTotal r.1
     = bytesProcessedTotal m + payload_bytes (messages_of p)
  /\ length (processingTime r.1)
     = (length (processingTime m) + length (messages_of p))%nat
  /\ length (log r.2) = (length (log w) + count_other p)%nat
  /\ nackedMessageCount r.1 = nackedMessageCount m
  /\ now r.2 = now w /\ statusLog r.2 = statusLog w
  /\ service r.2 = service w /\ delivered r.2 = delivered w
  /\ closeCalls r.2 = closeCalls w.
Proof.
  intros r. subst r. split; [apply ack_callback_app|].
  destruct (ack_callback_effects p m w)
    as (H1 & H2 & H3 & _ & H5 & H6 & H7 & H8 & H9 & H10).
  repeat split; assumption.
Qed.


Lemma tally_set_worker (f : Worker -> nat) ws j w w' :
  ws !! j = Some w -> f w' = f w -> tally f (<[j := w']> ws) = tally f ws.
Proof.
  intros Hw Hf. pose proof (tally_insert f _ _ _ w' Hw). lia.
Qed.

Lemma tally_cancel_worker (f : Worker -> nat) ws j w w' :
  ws !! j = Some w -> (forall x, f (set_runCancelled true x) = f x) ->
  f w' = f w ->
  tally f (<[j := w']> (map (set_runCancelled true) ws)) = tally f ws.
Proof.
  intros Hw Hg Hf.
  rewrite (tally_set_worker f _ j (set_runCancelled true w) w').
  - by apply tally_fmap.
  - by rewrite list_lookup_fmap, Hw.
  - by rewrite Hg.
Qed.


Lemma tally_set_handler (f : Handler -> nat) hs k h h' :
  hs !! k = Some h -> (tally f (<[k := h']> hs) + f h = tally f hs + f h')%nat.
Proof. apply tally_insert. Qed.





(** ** The statuses reported *)

Lemma reported_cons {A} (x : A) (l : list A) :
  (2 <= length l)%nat ->
  take (length (x :: l) - 2) (x :: l) = x :: take (length l - 2) l.
Proof.
  intros H. cbn [length].
  replace (S (length l) - 2)%nat with (S (length l - 2)) by lia. done.
Qed.

Lemma status_inv_length s : status_inv s -> (2 <= length (statusLog (world s)))%nat.
Proof. intros (H & _). rewrite H, length_app. cbn. lia. Qed.

(** A step that reports nothing and leaves the worker and the
    goroutine of [NewInput] where they are keeps the invariant. *)
Lemma status_inv_same s s' :
  statusLog (world s') = statusLog (world s) ->
  tally exited (workers s') = tally exited (workers s) ->
  parent s' = parent s ->
  status_inv s -> status_inv s'.
Proof.
  unfold status_inv, reported. intros -> -> ->. done.
Qed.

Lemma status_inv_report s s' x :
  statusLog (world s') = x :: statusLog (world s) ->
  of_running x = true ->
  (tally exited (workers s') = tally exited (workers s) + is_stopped x)%nat ->
  (has_reported (parent s') = has_reported (parent s) + is_stopping x)%nat ->
  (tally exited (workers s') = 1%nat -> is_stopped x + is_stopping x = 1)%nat ->
  status_inv s -> status_inv s'.
Proof.
  intros Hl Hx Hw Hp Hlast HI.
  pose proof (status_inv_length s HI) as Hlen.
  destruct HI as (H1 & H2 & H3 & H4 & H5).
  unfold status_inv, reported in *. rewrite Hl, reported_cons by done.
  split; [cbn; by rewrite <- H1|].
  split; [cbn; by rewrite Hx, H2|].
  split; [unfold tally in *; cbn; lia|].
  split; [unfold tally in *; cbn; lia|].
  intros He. specialize (Hlast He).
  destruct x as [st msg]. unfold is_stopped, is_stopping in *. cbn in *.
  destruct st; try lia; try done.
  apply H5. lia.
Qed.

Lemma tally_exited_cancel ws :
  tally exited (map (set_runCancelled true) ws) = tally exited ws.
Proof. by apply tally_fmap. Qed.

Lemma workers_single s j w :
  once_inv s -> workers s !! j = Some w -> workers s = [w] /\ j = 0%nat.
Proof.
  intros (_ & _ & _ & Honce) Hw.
  pose proof (tally_le started in_body (threads s) started_le_in_body).
  assert (length (workers s) <= 1)%nat by (destruct (workerOnce (inp s)); lia).
  destruct (workers s) as [|w0 [|w1 ws]]; cbn in *; try done; try lia.
  destruct j; cbn in *; by simplify_eq.
Qed.

Lemma status_inv_step cfg l s s' :
  once_inv s -> status_inv s -> step cfg l s = Some s' -> status_inv s'.
Proof.
  intros HO HI H. destruct l; cbn [step] in H.
  - case_match; simplify_eq. by eapply status_inv_same.
  - unfold parent_step in H. destruct (parent s) eqn:Hp; simplify_eq.
    + destruct HI as (H1 & H2 & H3 & H4 & H5). unfold status_inv, reported in *.
      cbn. rewrite Hp in H4. done.
    + eapply (status_inv_report s _ (Stopping, "")); try done; cbn;
        rewrite ?Hp; try done; lia.
    + destruct HI as (H1 & H2 & H3 & H4 & H5). unfold status_inv, reported in *.
      cbn -[tally]. rewrite tally_exited_cancel. rewrite Hp in H4. done.
  - destruct (threads s !! i) as [t|] eqn:Ht; [|done].
    unfold thread_step in H.
    destruct (tat t); repeat case_match; simplify_eq;
      (eapply status_inv_same; [| | |exact HI]); try done; cbn -[tally].
    + rewrite tally_snoc. cbn. lia.
    + apply tally_exited_cancel.
  - destruct (workers s !! j) as [w|] eqn:Hw; [|done].
    destruct (workers_single s j w HO Hw) as [Hws ->].
    unfold worker_step, getOrCreateSubscription in H.
    destruct (wat w) eqn:Hat; repeat case_match; simplify_eq.
    all: try (eapply status_inv_same; [| | |exact HI]; try done;
              cbn -[tally foldr]; rewrite ?Hws; cbn; unfold exited;
              by rewrite ?Hat).
    all: try (eapply status_inv_report; [| | | | |exact HI];
              [cbn; reflexivity|done|..];
              cbn -[tally]; rewrite ?Hws; cbn; unfold exited; rewrite ?Hat;
              cbn; try done; try lia).
  - destruct (workers s !! j) as [w|] eqn:Hw; [|done].
    case_match; simplify_eq.
    eapply status_inv_same; [| | |exact HI]; try done. cbn -[tally].
    apply tally_set_worker with (w := w); [done|]. unfold exited. cbn.
    by destruct (wat w).
  - destruct (workers s !! j) as [w|] eqn:Hw; [|done].
    destruct (handlers w !! k) as [h|] eqn:Hh; [|done].
    unfold handler_step in H.
    destruct (wat w) eqn:Hat; try done.
    repeat case_match; simplify_eq;
      (eapply status_inv_same; [| | |exact HI]); try done; cbn -[tally];
      (apply tally_set_worker with (w := w); [done|]); unfold exited; cbn;
      by rewrite Hat.
  - destruct (metrics (inp s)) as [m|] eqn:Hm; [|done].
    destruct (ack_callback_effects privates m (world s))
      as (_ & _ & _ & _ & _ & _ & F7 & _).
    cbn zeta in F7.
    destruct (ack_callback privates (m, world s)) as [m' w'].
    simplify_eq. eapply status_inv_same; [| | |exact HI]; done.
Qed.

Lemma status_inv_reachable cfg s : reachable cfg s -> status_inv s.
Proof.
  apply (reachable_invariant cfg status_inv).
  - intros. by repeat split.
  - intros l s1 s2 Hr. apply status_inv_step. by eapply reachable_once.
Qed.

Lemma tally_exited_one s :
  once_inv s ->
  (tally exited (workers s) <= 1)%nat
  /\ (tally exited (workers s) = 1%nat
      <-> exists j w, workers s !! j = Some w /\ wat w = W_Exit).
Proof.
  intros HO. split.
  - destruct (workers s) as [|w ws] eqn:E; [cbn; lia|].
    destruct (workers_single s 0 w HO) as [Hws _]; [by rewrite E|].
    rewrite E in Hws. simplify_eq. unfold tally, exited. cbn.
    destruct (wat w); lia.
  - split.
    + intros H1. destruct (tally_positive exited (workers s)) as (j & w & Hw & Hp);
        [lia|]. exists j, w. split; [done|]. unfold exited in Hp.
      destruct (wat w); try done; lia.
    + intros (j & w & Hw & Hat).
      destruct (workers_single s j w HO Hw) as [-> _].
      unfold tally, exited. cbn. by rewrite Hat.
Qed.

(** X13.  The statuses the input reports, in every state it reaches:
    after [Starting] and [Configuring] of [NewInput] come only
    [Running], [Degraded], [Stopping] and [Stopped] (never [Failed], and
    the first two never again).  [Stopped] is reported at most once, and
    it has been reported exactly when the worker goroutine has ended;
    [Stopping] is reported at most once, and it has been reported
    exactly when the goroutine of [NewInput] is past its report.  Once
    [Stopped] has been reported nothing but [Stopping] is reported after
    it. *)
Theorem status_protocol (cfg : config) (t0 : Z) (sv : gmap string string)
    (programs : list (list Call)) (ls : list label) (s : System) :
  exec cfg ls (NewInput t0 sv programs) = Some s ->
  statusLog (world s) = app (reported s) [(Configuring, ""); (Starting, "")]
  /\ Forall (fun x => of_running x = true) (reported s)
  /\ (tally is_stopped (reported s) <= 1)%nat
  /\ (tally is_stopping (reported s) <= 1)%nat
  /\ (tally is_stopped (reported s) = 1%nat
      <-> exists j w, workers s !! j = Some w /\ wat w = W_Exit)
  /\ (tally is_stopping (reported s) = 1%nat
      <-> parent s = P_Cancel \/ parent s = P_Exit)
  /\ ((exists j w, workers s !! j = Some w /\ wat w = W_Exit) ->
      stopped_last (statusLog (world s)) = true).
Proof.
  intros Hreach.
  assert (Hr : reachable cfg s) by (by exists t0, sv, programs, ls).
  pose proof (reachable_once _ _ Hr) as HO.
  destruct (status_inv_reachable _ _ Hr) as (H1 & H2 & H3 & H4 & H5).
  destruct (tally_exited_one s HO) as [Hle Hiff].
  split; [exact H1|]. split.
  { apply Forall_forall. intros x Hx.
    rewrite forallb_forall in H2. apply H2.
    by apply list_elem_of_In. }
  split; [lia|]. split; [rewrite H4; destruct (parent s); cbn; lia|].
  split; [by rewrite H3|]. split.
  - rewrite H4. destruct (parent s); cbn; split; intros; try done; try lia;
      intuition discriminate.
  - intros He. apply H5. by apply Hiff.
Qed.

Lemma status_protocol_witness :
  statusLog (world sample_receiving)
  = app (reported sample_receiving) [(Configuring, ""); (Starting, "")].
Proof.
  destruct (status_protocol sample_config 0 sample_service
              [[CallRun]; [CallStop]] sample_schedule sample_receiving)
    as (H & _).
  - vm_compute. reflexivity.
  - exact H.
Defined.

(** ** After [Stop] *)

Lemma step_after_stop_final cfg l s s' :
  once_inv s -> stop_inv s -> Exists past_wait (threads s) ->
  step cfg l s = Some s' ->
  nacks (world s') = nacks (world s)
  /\ service (world s') = service (world s)
  /\ attempts_made s' = attempts_made s
  /\ exists new, statusLog (world s') = (new ++ statusLog (world s))%list
                 /\ forallb closing new = true.
Proof.
  intros HO [HA HB] He H.
  assert (Hq : Forall (fun w => active w = false) (workers s)).
  { apply Exists_exists in He as (t & Hin & Hp).
    rewrite Forall_forall in HB. by apply (HB t). }
  assert (Hc : workerCancelled (inp s) = true).
  { apply Exists_exists in He as (t & Hin & Hp).
    rewrite Forall_forall in HA. apply (HA t Hin). by right. }
  unfold attempts_made.
  destruct l; cbn [step] in H.
  - case_match; simplify_eq. repeat split; try done. by exists [].
  - unfold parent_step in H. case_match; simplify_eq; cbn -[tally];
      rewrite ?(tally_fmap _ (set_runCancelled true)) by done;
      repeat split; try done;
      first [by exists [] | by exists [(Stopping, "")]].
  - destruct (threads s !! i) as [t|] eqn:Ht; [|done].
    unfold thread_step in H.
    destruct (tat t); repeat case_match; simplify_eq; cbn -[tally];
      rewrite ?(tally_fmap _ (set_runCancelled true)) by done;
      rewrite ?tally_snoc; cbn -[tally]; rewrite ?Nat.add_0_r;
      repeat split; try done; by exists [].
  - destruct (workers s !! j) as [w|] eqn:Hw; [|done].
    pose proof (Forall_lookup_1 _ _ _ _ Hq Hw) as Hact. cbn in Hact.
    unfold worker_step in H. unfold active in Hact. rewrite Hc in H.
    destruct (wat w) eqn:Hat; try done; repeat case_match; simplify_eq;
      cbn -[tally];
      rewrite ?(tally_set_worker _ _ j w) by done;
      rewrite ?(tally_cancel_worker _ _ j w) by done;
      repeat split; try done;
      first [by exists [] | by exists [(Stopped, "")]].
  - destruct (workers s !! j) as [w|] eqn:Hw; [|done].
    pose proof (Forall_lookup_1 _ _ _ _ Hq Hw) as Hact. cbn in Hact.
    unfold active in Hact. by destruct (wat w).
  - destruct (workers s !! j) as [w|] eqn:Hw; [|done].
    destruct (handlers w !! k) as [h|] eqn:Hh; [|done].
    pose proof (Forall_lookup_1 _ _ _ _ Hq Hw) as Hact. cbn in Hact.
    unfold handler_step in H. unfold active in Hact.
    by destruct (wat w).
  - destruct (metrics (inp s)) as [m|] eqn:Hm; [|done].
    destruct (ack_callback_acks privates m (world s)) as (_ & E2 & _).
    destruct (ack_callback_effects privates m (world s))
      as (_ & _ & _ & _ & _ & _ & F7 & F8 & _).
    cbn zeta in *.
    destruct (ack_callback privates (m, world s)) as [m' w'].
    simplify_eq. cbn in *. repeat split; try done. exists []. by rewrite F7.
Qed.

Lemma stop_invariants_reachable cfg s : reachable cfg s -> once_inv s /\ stop_inv s.
Proof.
  apply (reachable_invariant cfg (fun s => once_inv s /\ stop_inv s)).
  - intros. split; [apply once_inv_init | apply stop_inv_init].
  - intros l s1 s2 _ [? ?] Hstep. split;
      [by eapply once_inv_step | by eapply stop_inv_step].
Qed.

(** X14.  [Stop] is final.  Once an invocation of [Stop] has returned,
    whatever the goroutines, the callers and the environment do next
    (also a first [Run]): no event reaches the sink, no message is
    nacked, no attempt is started, the Pub/Sub service is not touched,
    no worker stands between the loop condition and the end of
    [in.run()], the worker context stays cancelled, and the only
    statuses still reported are [Stopping] and [Stopped]. *)
Theorem stop_is_final (cfg : config) (t0 : Z) (sv : gmap string string)
    (programs : list (list Call)) (ls ls' : list label) (s s' : System) :
  exec cfg ls (NewInput t0 sv programs) = Some s ->
  Exists (fun t => CallStop ∈ returned t) (threads s) ->
  exec cfg ls' s = Some s' ->
  delivered (world s') = delivered (world s)
  /\ nacks (world s') = nacks (world s)
  /\ service (world s') = service (world s)
  /\ attempts_made s' = attempts_made s
  /\ Forall (fun w => active w = false) (workers s')
  /\ workerCancelled (inp s') = true
  /\ exists new, statusLog (world s') = (new ++ statusLog (world s))%list
                 /\ forallb closing new = true.
Proof.
  intros Hreach He Hexec.
  destruct (stop_ends_deliveries _ _ _ _ _ _ _ _ Hreach He Hexec) as [Hd Hc].
  split; [exact Hd|].
  assert (Hr : reachable cfg s) by (by exists t0, sv, programs, ls).
  destruct (stop_invariants_reachable _ _ Hr) as [HO HS].
  assert (Hp : Exists past_wait (threads s)).
  { eapply Exists_impl; [exact He|]. intros t Hin. by right. }
  clear Hreach He Hr Hd Hc. revert s HO HS Hp Hexec.
  induction ls' as [|l ls' IH]; intros s HO HS Hp Hexec; cbn in Hexec.
  - simplify_eq. repeat split; try done.
    + apply Exists_exists in Hp as (t & Hin & Hp). destruct HS as [_ HB].
      rewrite Forall_forall in HB. by apply (HB t).
    + apply Exists_exists in Hp as (t & Hin & Hp). destruct HS as [HA _].
      rewrite Forall_forall in HA. apply (HA t Hin). by right.
    + by exists [].
  - destruct (step cfg l s) as [s1|] eqn:Hstep; [|done].
    destruct (step_after_stop _ _ _ _ HO HS Hp Hstep) as [_ Hp1].
    destruct (step_after_stop_final _ _ _ _ HO HS Hp Hstep)
      as (E1 & E2 & E3 & new1 & E4 & E5).
    destruct (IH s1) as (F1 & F2 & F3 & F4 & F5 & new & F6 & F7); try done.
    { by eapply once_inv_step. }
    { by eapply stop_inv_step. }
    rewrite F1, F2, F3, E1, E2, E3. repeat split; try done.
    exists (new ++ new1)%list. rewrite F6, E4, app_assoc. split; [done|].
    by rewrite forallb_app, F7, E5.
Qed.

Lemma stop_is_final_witness :
  delivered (world sample_ended) = delivered (world sample_stopped)
  /\ attempts_made sample_ended = attempts_made sample_stopped.
Proof.
  destruct (stop_is_final sample_config 0 sample_service
              [[CallRun]; [CallStop]] stop_race (repeat (LWorker 0 NoReply) 2)
              sample_stopped sample_ended) as (H1 & _ & _ & H2 & _).
  - vm_compute. reflexivity.
  - apply Exists_cons_tl, Exists_cons_hd. vm_compute. left.
  - vm_compute. reflexivity.
  - split; [exact H1|exact H2].
Defined.

(** ** The worker goroutine ends once its context is cancelled *)

Lemma all_done_weight hs : all_done hs = true -> tally steps_left hs = 0%nat.
Proof.
  unfold tally, all_done. induction hs as [|h hs IH]; cbn; [done|].
  intros H. apply andb_true_iff in H as [Hh Hs]. rewrite (IH Hs).
  unfold steps_left. by destruct (hat h).
Qed.

Lemma not_all_done hs :
  all_done hs = false -> exists k h, hs !! k = Some h /\ hat h <> H_Done.
Proof.
  unfold all_done. induction hs as [|h hs IH]; cbn; [done|].
  intros H. apply andb_false_iff in H as [Hh|Hs].
  - exists 0%nat, h. split; [done|]. intros E. by rewrite E in Hh.
  - destruct (IH Hs) as (k & h' & Hk & Hd). by exists (S k), h'.
Qed.

(** A callback that has not returned can take its next statement, the
    sink accepting. *)
Lemma callback_progress cfg s j w k h sub topicID :
  once_inv s -> workers s !! j = Some w -> wat w = W_Receive sub topicID ->
  handlers w !! k = Some h -> hat h <> H_Done ->
  exists s' w',
    step cfg (LHandler j k true) s = Some s'
    /\ workers s' !! j = Some w'
    /\ (measure w' < measure w)%nat
    /\ workerCancelled (inp s') = workerCancelled (inp s).
Proof.
  intros HO Hw Hat Hh Hd.
  destruct (worker_has_metrics s j w HO Hw) as [m Hm].
  pose proof (lookup_lt_Some _ _ _ Hw) as Hlt.
  cbn [step]. rewrite Hw, Hh. unfold handler_step. rewrite Hat, Hm.
  destruct (hat h) eqn:Hh'; try done;
    (eexists; eexists; split; [reflexivity|]; cbn -[tally];
     split; [by apply list_lookup_insert_eq|]; split; [|done]);
    unfold measure; cbn -[tally]; rewrite Hat;
    match goal with |- context [tally steps_left (<[k := ?h']> _)] =>
      pose proof (tally_set_handler steps_left _ _ _ h' Hh) as E;
      generalize dependent (tally steps_left (<[k := h']> (handlers w)))
    end;
    generalize (tally steps_left (handlers w));
    unfold steps_left; cbn; rewrite Hh'; intros; lia.
Qed.

(** With the worker context cancelled, a worker goroutine that has not
    ended has a next statement, of its own or of one of its callbacks,
    that brings it closer to its end. *)
Lemma cancelled_progress cfg s j w :
  once_inv s -> scope_inv s ->
  workerCancelled (inp s) = true -> workers s !! j = Some w ->
  wat w <> W_Exit ->
  exists l s' w',
    own j l /\ step cfg l s = Some s'
    /\ workers s' !! j = Some w'
    /\ (measure w' < measure w)%nat
    /\ workerCancelled (inp s') = true.
Proof.
  intros HO HS Hc Hw Hne.
  pose proof (Forall_lookup_1 _ _ _ _ HS Hw) as [Hw1 Hw2].
  pose proof (lookup_lt_Some _ _ _ Hw) as Hlt.
  assert (Hwg : 0 < workerWg (inp s) \/ live w = 0%nat).
  { destruct HO as (Hwg & _). pose proof (tally_lookup live _ _ _ Hw).
    destruct (live w); [by right|left; lia]. }
  destruct (receiving w) eqn:Hrecv.
  - (* inside Receive *)
    unfold receiving in Hrecv.
    destruct (wat w) as [| | | | | | | | |sub topicID| | | | | | |] eqn:Hat;
      try done.
    destruct (all_done (handlers w)) eqn:Hd.
    + exists (LWorker j NoReply). eexists. eexists.
      split; [done|]. cbn [step]. rewrite Hw. unfold worker_step.
      rewrite Hat, Hd, Hw2 by (try done; unfold in_run; by rewrite Hat).
      split; [reflexivity|]. cbn.
      split; [by apply list_lookup_insert_eq|]. split; [|done].
      unfold measure. cbn -[tally]. rewrite Hat. cbn. lia.
    + destruct (not_all_done _ Hd) as (k & h & Hh & Hhd).
      destruct (callback_progress cfg s j w k h sub topicID HO Hw Hat Hh Hhd)
        as (s' & w' & H1 & H2 & H3 & H4).
      exists (LHandler j k true), s', w'. rewrite H4. done.
  - (* outside: no callback is in flight *)
    specialize (Hw1 eq_refl). pose proof (all_done_weight _ Hw1) as Hz.
    unfold receiving in Hrecv.
    exists (LWorker j (match wat w with W_Timer _ => CtxDone | _ => NoReply end)).
    cbn [step]. rewrite Hw. unfold worker_step, getOrCreateSubscription.
    unfold live in Hwg.
    destruct (wat w) eqn:Hat; try done; rewrite ?Hc; cbn [negb];
      repeat case_match; simplify_eq; try lia;
      (eexists; eexists; split; [done|]; split; [reflexivity|];
       cbn -[tally];
       split; [apply list_lookup_insert_eq;
               rewrite ?length_fmap; exact Hlt|];
       split; [|done]);
      unfold measure; cbn -[tally]; rewrite ?Hat, ?Hz; cbn; lia.
Qed.

Lemma rank_zero p : rank p = 0%nat -> p = W_Exit.
Proof. by destruct p. Qed.

Lemma exit_or_not p : p = W_Exit \/ p <> W_Exit.
Proof. destruct p; try (right; discriminate). by left. Qed.

(** Only the report of [Stopped] brings the worker goroutine to its end. *)
Lemma enters_exit cfg l s s1 j w w1 :
  own j l -> step cfg l s = Some s1 ->
  workers s !! j = Some w -> wat w <> W_Exit ->
  workers s1 !! j = Some w1 -> wat w1 = W_Exit ->
  head (statusLog (world s1)) = Some (Stopped, "").
Proof.
  intros Hown Hstep Hw Hne Hw1 He.
  pose proof (lookup_lt_Some _ _ _ Hw) as Hlt.
  destruct l; try done; cbn in Hown; subst; cbn [step] in Hstep;
    rewrite Hw in Hstep.
  - unfold worker_step, getOrCreateSubscription in Hstep.
    destruct (wat w) eqn:Hat; repeat case_match; simplify_eq;
      cbn in Hw1;
      rewrite list_lookup_insert_eq in Hw1 by (rewrite ?length_fmap; exact Hlt);
      by simplify_eq.
  - destruct (handlers w !! k) as [h|] eqn:Hh; [|done].
    unfold handler_step in Hstep.
    destruct (wat w) eqn:Hat; try done.
    repeat case_match; simplify_eq; cbn in Hw1;
      rewrite list_lookup_insert_eq in Hw1 by exact Hlt;
      simplify_eq; cbn in He; by rewrite Hat in He.
Qed.

Lemma cancelled_worker_runs_out cfg j n : forall s w,
  once_inv s -> scope_inv s ->
  workerCancelled (inp s) = true -> workers s !! j = Some w ->
  (measure w <= n)%nat ->
  exists ls' s' w',
    Forall (own j) ls' /\ (length ls' <= n)%nat
    /\ exec cfg ls' s = Some s'
    /\ workers s' !! j = Some w' /\ wat w' = W_Exit
    /\ once_inv s'
    /\ (wat w = W_Exit -> s' = s)
    /\ (wat w <> W_Exit -> head (statusLog (world s')) = Some (Stopped, "")).
Proof.
  induction n as [|n IH]; intros s w HO HS Hc Hw Hn.
  - assert (He : wat w = W_Exit).
    { apply rank_zero. unfold measure in Hn. lia. }
    exists [], s, w. split; [constructor|]. split; [cbn; lia|].
    split; [done|]. split; [done|]. split; [done|]. split; [exact HO|].
    split; [done|]. intros Hne. by destruct Hne.
  - destruct (exit_or_not (wat w)) as [He|Hne].
    { exists [], s, w. split; [constructor|]. split; [cbn; lia|].
      split; [done|]. split; [done|]. split; [done|]. split; [exact HO|].
      split; [done|]. intros Hne. by destruct Hne. }
    destruct (cancelled_progress cfg s j w HO HS Hc Hw Hne)
      as (l & s1 & w1 & Hown & Hstep & Hw1 & Hlt & Hc1).
    destruct (IH s1 w1) as (ls' & s' & w' & H1 & H2 & H3 & H4 & H5 & H6 & H7 & H8);
      try done.
    { by eapply once_inv_step. }
    { by eapply scope_inv_step. }
    { lia. }
    exists (l :: ls'), s', w'. split; [by constructor|]. split; [cbn; lia|].
    split; [cbn; by rewrite Hstep|]. split; [done|]. split; [done|].
    split; [done|]. split; [done|]. intros _.
    destruct (exit_or_not (wat w1)) as [He1|Hne1].
    + rewrite (H7 He1). by eapply enters_exit.
    + by apply H8.
Qed.

(** X15.  [Stop] cannot hang on the worker.  In every state the input
    reaches with the worker context cancelled, the worker goroutine can
    run to its end through statements of its own and of its callbacks
    alone (the sink answering the events still in flight), in a number
    of statements bounded by its position; then it has reported
    [Stopped], the wait group is at zero, and every [Stop] waiting in
    [workerWg.Wait()] goes on. *)
Theorem cancelled_worker_ends (cfg : config) (t0 : Z) (sv : gmap string string)
    (programs : list (list Call)) (ls : list label) (s : System)
    (j : nat) (w : Worker) :
  exec cfg ls (NewInput t0 sv programs) = Some s ->
  workerCancelled (inp s) = true ->
  workers s !! j = Some w ->
  exists ls' s',
    Forall (own j) ls' /\ (length ls' <= measure w)%nat
    /\ exec cfg ls' s = Some s'
    /\ wat <$> workers s' !! j = Some W_Exit
    /\ workerWg (inp s') = 0
    /\ (wat w <> W_Exit -> head (statusLog (world s')) = Some (Stopped, ""))
    /\ (forall i t, threads s' !! i = Some t -> tat t = S_Wait ->
          step cfg (LThread i) s' = Some (set_thread i (goto S_Close t) s')).
Proof.
  intros Hreach Hc Hw.
  assert (Hr : reachable cfg s) by (by exists t0, sv, programs, ls).
  pose proof (reachable_once _ _ Hr) as HO.
  pose proof (scope_inv_reachable _ _ Hr) as HS.
  destruct (cancelled_worker_runs_out cfg j (measure w) s w HO HS Hc Hw (le_n _))
    as (ls' & s' & w' & H1 & H2 & H3 & H4 & H5 & H6 & _ & H8).
  exists ls', s'.
  assert (Hwg : workerWg (inp s') = 0).
  { destruct (workers_single s' j w' H6 H4) as [Hws _].
    pose proof (tally_le (fun t => (added t + started t)%nat) in_body (threads s')
                  added_started_le_in_body) as Hs.
    rewrite tally_add in Hs.
    destruct H6 as (Hwg & _ & _ & Honce). rewrite Hws in Hwg, Honce.
    unfold tally at 2 in Hwg. cbn in Hwg, Honce. unfold live in Hwg.
    rewrite H5 in Hwg. destruct (workerOnce (inp s')); lia. }
  split; [exact H1|]. split; [exact H2|]. split; [exact H3|].
  split; [by rewrite H4; cbn; rewrite H5|]. split; [exact Hwg|].
  split; [exact H8|].
  intros i t Ht Hat. cbn [step]. rewrite Ht. unfold thread_step.
  by rewrite Hat, Hwg.
Qed.

Lemma cancelled_worker_ends_witness :
  exists ls' s',
    Forall (own 0%nat) ls'
    /\ exec sample_config ls' sample_cancelled = Some s'
    /\ wat <$> workers s' !! 0%nat = Some W_Exit
    /\ workerWg (inp s') = 0.
Proof.
  destruct (cancelled_worker_ends sample_config 0 sample_service
              [[CallRun]; [CallStop]]
              (repeat (LThread 0) 6 ++ repeat (LWorker 0 NoReply) 8
               ++ repeat (LThread 1) 2)%list
              sample_cancelled 0
              (MkWorker (W_Receive sample_sub "3de302dac5") (MkLimiter 0 0) true
                 [] [(0, 0)]))
    as (ls' & s' & H1 & _ & H2 & H3 & H4 & _).
  - vm_compute. reflexivity.
  - reflexivity.
  - vm_compute. reflexivity.
  - exists ls', s'. split; [exact H1|]. split; [exact H2|].
    split; [exact H3|exact H4].
Defined.

(** ** The first attempt *)

Lemma first_ok_later t t' w : t <= t' -> first_ok t w -> first_ok t' w.
Proof.
  unfold first_ok. intros Ht H.
  destruct (attempts w); [|done]. destruct (wat w); try done; intuition lia.
Qed.

Lemma first_inv_cancel t ws :
  Forall (first_ok t) ws -> Forall (first_ok t) (map (set_runCancelled true) ws).
Proof. intros H. apply Forall_fmap. eapply Forall_impl; [exact H|]. done. Qed.

(** With its token the limiter grants a reservation for the time of the
    call. *)
Lemma reserve_full lim t :
  credit lim = retryInterval -> last lim <= t ->
  (reserve lim t).2 = t.
Proof.
  intros Hc Hl. unfold reserve, advance. cbn.
  assert (0 < retryInterval) by done.
  destruct (_ <? 0) eqn:E; [apply Z.ltb_lt in E|]; lia.
Qed.

Lemma first_ok_worker_step cfg j w r s s' :
  first_ok (now (world s)) w ->
  worker_step cfg j w r s = Some s' ->
  exists w',
    first_ok (now (world s)) w'
    /\ now (world s') = now (world s)
    /\ (workers s' = <[j := w']> (workers s)
        \/ workers s' = <[j := w']> (map (set_runCancelled true) (workers s))).
Proof.
  intros Hok H. unfold worker_step in H. unfold first_ok in Hok.
  destruct (attempts w) as [|x l] eqn:Ha.
  - destruct (wat w) eqn:Hat; try done; repeat case_match; simplify_eq;
      (eexists; split; [|split; [try done|first [by left | by right]]]);
      unfold first_ok; cbn -[reserve]; rewrite ?Ha, ?Hat; try done;
      try (cbn; split; [done|lia]).
    + (* the first reservation *)
      destruct Hok as [Hc Hl].
      pose proof (reserve_full (rt w) (now (world s)) Hc Hl) as Hr.
      match goal with E : reserve _ _ = _ |- _ => rewrite E in Hr end.
      cbn in Hr. subst. by exists [], (now (world s)).
    + destruct Hok as [Hc Hl].
      pose proof (reserve_full (rt w) (now (world s)) Hc Hl) as Hr.
      match goal with E : reserve _ _ = _ |- _ => rewrite E in Hr end.
      cbn in Hr. subst. bools. lia.
  - destruct Hok as (pre & a & Hpre).
    destruct (wat w) eqn:Hat; repeat case_match; simplify_eq;
      (eexists; split; [|split; [try done|first [by left | by right]]]);
      unfold first_ok; cbn -[foldr]; rewrite ?Ha, ?fold_Log_now; try done;
      try (by exists pre, a);
      try (rewrite Hpre; by eexists (_ :: pre), a).
Qed.

Lemma first_inv_step cfg l s s' :
  first_inv s -> step cfg l s = Some s' -> first_inv s'.
Proof.
  unfold first_inv. intros HI H. destruct l; cbn [step] in H.
  - case_match; [|done]. simplify_eq. bools. cbn.
    eapply Forall_impl; [exact HI|]. intros w. apply first_ok_later. lia.
  - unfold parent_step in H. case_match; simplify_eq; cbn; try done.
    by apply first_inv_cancel.
  - destruct (threads s !! i) as [t|] eqn:Ht; [|done].
    unfold thread_step in H. repeat case_match; simplify_eq; cbn; try done.
    + apply Forall_app. split; [done|]. by repeat constructor.
    + by apply first_inv_cancel.
  - destruct (workers s !! j) as [w|] eqn:Hw; [|done].
    pose proof (Forall_lookup_1 _ _ _ _ HI Hw) as Hok.
    destruct (first_ok_worker_step _ _ _ _ _ _ Hok H) as (w' & Hok' & -> & [->| ->]);
      apply Forall_insert; try done. by apply first_inv_cancel.
  - destruct (workers s !! j) as [w|] eqn:Hw; [|done].
    pose proof (Forall_lookup_1 _ _ _ _ HI Hw) as Hok.
    destruct (wat w) eqn:Hat; simplify_eq. cbn.
    apply Forall_insert; [done|]. unfold first_ok in *. cbn. by rewrite Hat in *.
  - destruct (workers s !! j) as [w|] eqn:Hw; [|done].
    pose proof (Forall_lookup_1 _ _ _ _ HI Hw) as Hok.
    destruct (handlers w !! k) as [h|] eqn:Hh; [|done].
    unfold handler_step in H. destruct (wat w) eqn:Hat; try done.
    repeat case_match; simplify_eq; cbn; (apply Forall_insert; [done|]);
      unfold first_ok in *; cbn; by rewrite Hat in *.
  - destruct (metrics (inp s)) as [m|] eqn:Hm; [|done].
    pose proof (ack_callback_now privates m (world s)) as Hn.
    destruct (ack_callback privates (m, world s)) as [m' w'].
    simplify_eq. cbn in *. by rewrite Hn.
Qed.

Lemma first_inv_reachable cfg s : reachable cfg s -> first_inv s.
Proof.
  apply (reachable_invariant cfg first_inv).
  - intros. constructor.
  - intros l s1 s2 _. apply first_inv_step.
Qed.

(** X16.  The limiter never delays the first attempt.  In every state
    the input reaches, the first attempt of a worker (the last of its
    list) was granted for the very time at which it started; and as
    long as no attempt has been made, a call of [rt.Wait] with the
    worker context not cancelled starts the attempt in the same
    statement, without a timer. *)
Theorem first_attempt_immediate (cfg : config) (t0 : Z)
    (sv : gmap string string) (programs : list (list Call)) (ls : list label)
    (s : System) (j : nat) (w : Worker) :
  exec cfg ls (NewInput t0 sv programs) = Some s ->
  workers s !! j = Some w ->
  (forall pre a c, attempts w = (pre ++ [(a, c)])%list -> a = c)
  /\ (attempts w = [] -> wat w = W_Wait -> workerCancelled (inp s) = false ->
      forall r, exists s' w',
        step cfg (LWorker j r) s = Some s'
        /\ workers s' !! j = Some w'
        /\ wat w' = W_Run
        /\ attempts w' = [(now (world s), now (world s))]).
Proof.
  intros Hreach Hw.
  assert (Hr : reachable cfg s) by (by exists t0, sv, programs, ls).
  pose proof (Forall_lookup_1 _ _ _ _ (first_inv_reachable _ _ Hr) Hw) as Hok.
  unfold first_ok in Hok. split.
  - intros pre a c Heq. rewrite Heq in Hok.
    destruct (pre ++ [(a, c)])%list eqn:E; [by destruct pre|].
    destruct Hok as (pre' & a' & Heq'). rewrite <- E in Heq'.
    apply app_inj_tail in Heq' as [_ Hp]. by simplify_eq.
  - intros Ha Hat Hc r. rewrite Ha, Hat in Hok. destruct Hok as [Hcr Hl].
    pose proof (reserve_full (rt w) (now (world s)) Hcr Hl) as Hres.
    cbn [step]. rewrite Hw. unfold worker_step. rewrite Hat, Hc.
    destruct (reserve (rt w) (now (world s))) as [lim act] eqn:E.
    cbn in Hres. subst act. rewrite Z.eqb_refl.
    eexists. eexists. split; [reflexivity|]. cbn.
    rewrite list_lookup_insert_eq by (by eapply lookup_lt_Some).
    split; [reflexivity|]. cbn. by rewrite Ha.
Qed.

Lemma first_attempt_immediate_witness :
  exists s' w',
    step sample_config (LWorker 0 NoReply) sample_looping = Some s'
    /\ workers s' !! 0%nat = Some w'
    /\ wat w' = W_Run
    /\ attempts w' = [(0, 0)].
Proof.
  destruct (first_attempt_immediate sample_config 0 sample_service
              [[CallRun]; [CallStop]]
              (repeat (LThread 0) 6 ++ repeat (LWorker 0 NoReply) 3)%list
              sample_looping 0
              (MkWorker W_Wait (MkLimiter 0 retryInterval) false [] []))
    as (_ & H).
  - vm_compute. reflexivity.
  - vm_compute. reflexivity.
  - apply (H eq_refl eq_refl eq_refl NoReply).
Defined.

(** ** The user agent decorator *)

(** X17.  [userAgentDecorator.RoundTrip] panics exactly on a request
    whose header map is nil, before the wrapped transport is called.
    Otherwise the wrapped transport is called once, on the request as
    the decorator leaves it, and its answer is returned; that request
    has a [User-Agent] entry; an entry that was there is left as it was,
    also an empty one, and then the request is not modified at all; no
    other entry is touched; and decorating twice is decorating once. *)
Theorem RoundTrip_sets_user_agent {B Resp : Type} (UserAgent : string)
    (Transport : Request B -> Resp) (r : Request B) :
  (RoundTrip UserAgent Transport r = None <-> Header r = None)
  /\ (forall h, Header r = Some h ->
        exists h',
          RoundTrip UserAgent Transport r
          = Some (MkRequest (Some h') (reqRest r),
                  Transport (MkRequest (Some h') (reqRest r)))
          /\ is_Some (h' !! "User-Agent")
          /\ (forall v, h !! "User-Agent" = Some v ->
                h' = h /\ MkRequest (Some h') (reqRest r) = r)
          /\ (h !! "User-Agent" = None -> h' !! "User-Agent" = Some [UserAgent])
          /\ (forall k, k <> "User-Agent" -> h' !! k = h !! k)
          /\ RoundTrip UserAgent Transport (MkRequest (Some h') (reqRest r))
             = Some (MkRequest (Some h') (reqRest r),
                     Transport (MkRequest (Some h') (reqRest r)))).
Proof.
  destruct r as [hd rest]. unfold RoundTrip. cbn. split.
  - destruct hd as [h|]; [|done].
    split; [|done]. by destruct (h !! "User-Agent").
  - intros h [= ->]. destruct (h !! "User-Agent") as [v|] eqn:E.
    + exists h. rewrite E. split; [done|]. split; [by eexists|].
      split; [done|]. split; [done|]. split; done.
    + exists (<["User-Agent" := [UserAgent]]> h).
      rewrite lookup_insert_eq. split; [done|]. split; [by eexists|].
      split; [done|]. split; [done|]. split; [|done].
      intros k Hk. by rewrite lookup_insert_ne.
Qed.

(** ** The options of the Pub/Sub client *)

(** X18.  [newPubsubClient] hands [pubsub.NewClient] between one and
    four options, so the capacity of 4 it reserves is never exceeded.
    The last option conveys the user agent, as [WithUserAgent] or as the
    decorated client of [WithHTTPClient], and no other option does; at
    most one option carries credentials, the credentials file taking
    precedence over the JSON; the gRPC connection and the disabling of
    telemetry come together, first, exactly when an alternative host is
    configured.  The error of the connection to the alternative host is
    returned wrapped, that of the proxy client unwrapped, and no option
    is built then. *)
Theorem newPubsubClient_option_list (quote : string -> string)
    (cc : clientConfig) (userAgent : string) (connErr clientErr : option error) :
  (forall opts,
     newPubsubClient_options quote cc userAgent connErr clientErr = inr opts ->
     (1 <= length opts <= 4)%nat
     /\ (exists front o, opts = (front ++ [o])%list
           /\ carries_user_agent userAgent o = true
           /\ (forall ua, forallb (fun x => negb (carries_user_agent ua x)) front = true)
           /\ (o = WithUserAgent userAgent
               \/ exists url, o = WithHTTPClient url userAgent
                              /\ ProxyURL cc = Some url /\ ProxyDisable cc = false))
     /\ (length (filter (fun o => is_credentials o = true) opts) <= 1)%nat
     /\ (CredentialsFile cc <> "" ->
         WithCredentialsFile (CredentialsFile cc) ∈ opts
         /\ WithCredentialsJSON (CredentialsJSON cc) ∉ opts)
     /\ (filter (fun o => is_alternative o = true) opts
         = if String.eqb (AlternativeHost cc) "" then []
           else [WithGRPCConn (AlternativeHost cc); WithTelemetryDisabled])
     /\ (AlternativeHost cc <> "" ->
         take 2 opts = [WithGRPCConn (AlternativeHost cc); WithTelemetryDisabled]))
  /\ (forall err,
        newPubsubClient_options quote cc userAgent connErr clientErr = inl err ->
        (AlternativeHost cc <> ""
         /\ exists e, connErr = Some e
              /\ err = ErrWrap ("cannot connect to alternative host "
                                ++ quote (AlternativeHost cc) ++ ": ") e
              /\ Is_Canceled err = Is_Canceled e)
        \/ (clientErr = Some err /\ ProxyDisable cc = false
            /\ is_Some (ProxyURL cc)
            /\ (AlternativeHost cc = "" \/ connErr = None))).
Proof.
  unfold newPubsubClient_options.
  destruct cc as [host file json pd url]. cbn.
  destruct (String.eqb_spec host "") as [->|Hh];
    destruct (String.eqb_spec file "") as [->|Hf];
    destruct (0 <? Z.of_nat (length json)) eqn:Hj;
    destruct pd; destruct url as [u|]; destruct connErr as [ce|];
    destruct clientErr as [he|]; cbn; split;
    try (intros opts [= <-]); try (intros err [= <-]); try done.
  all: try (right; repeat split; try done; by (left + right + eexists)).
  all: try (left; split; [done|]; eexists; by repeat split).
  all: repeat split; cbn; try lia; try done;
    try (rewrite ?elem_of_cons; rewrite ?elem_of_nil; intuition congruence);
    try (rewrite ?filter_cons, ?filter_nil; repeat case_decide; cbn; try done; lia).
  all: first [ eexists [], _; split; [reflexivity|]
             | eexists [_], _; split; [reflexivity|]
             | eexists [_; _], _; split; [reflexivity|]
             | eexists [_; _; _], _; split; [reflexivity|] ];
    cbn; rewrite ?String.eqb_refl; repeat split; try done;
    first [by left | right; by eexists].
Qed.

(** ** The identifier of the input *)

Lemma upper_digit_value d : 0 <= d < 16 -> digit_value (upper_digit d) = d.
Proof.
  intros H.
  assert (Hd : d = 0 \/ d = 1 \/ d = 2 \/ d = 3 \/ d = 4 \/ d = 5 \/ d = 6 \/ d = 7
               \/ d = 8 \/ d = 9 \/ d = 10 \/ d = 11 \/ d = 12 \/ d = 13 \/ d = 14
               \/ d = 15) by lia.
  repeat (destruct Hd as [->|Hd]; [reflexivity|]). by subst.
Qed.

Lemma field_value_fold cs v :
  fold_left (fun v c => 16 * v + digit_value c) cs v
  = v * 16 ^ Z.of_nat (length cs)
    + fold_left (fun v c => 16 * v + digit_value c) cs 0.
Proof.
  revert v. induction cs as [|c cs IH]; intros v; [cbn; lia|].
  cbn [fold_left length]. rewrite IH, (IH (16 * 0 + digit_value c)).
  rewrite Nat2Z.inj_succ, Z.pow_succ_r by lia. lia.
Qed.

Lemma field_value_String c s :
  field_value (String c s)
  = digit_value c * 16 ^ Z.of_nat (String.length s) + field_value s.
Proof.
  unfold field_value. cbn [list_ascii_of_string fold_left].
  rewrite field_value_fold. f_equal.
  assert (length (list_ascii_of_string s) = String.length s) as ->.
  { induction s as [|a s IH]; cbn; [done|]. by rewrite IH. }
  lia.
Qed.

(** The digits written stand for the number, and are as many as the
    fuel allows at most. *)
Lemma upper_hex_spec fuel : forall n acc,
  0 <= n < 16 ^ Z.of_nat fuel ->
  (String.length (upper_hex fuel n acc) <= fuel + String.length acc)%nat
  /\ (fuel <> 0%nat ->
      (String.length acc < String.length (upper_hex fuel n acc))%nat)
  /\ field_value (upper_hex fuel n acc)
     = n * 16 ^ Z.of_nat (String.length acc) + field_value acc.
Proof.
  induction fuel as [|fuel IH]; intros n acc Hn.
  - cbn in *. assert (n = 0) as -> by lia. repeat split; try done; lia.
  - cbn [upper_hex].
    assert (Hm : 0 <= n mod 16 < 16) by (apply Z.mod_pos_bound; lia).
    assert (Hacc : field_value (String (upper_digit (n mod 16)) acc)
                   = (n mod 16) * 16 ^ Z.of_nat (String.length acc)
                     + field_value acc).
    { by rewrite field_value_String, upper_digit_value. }
    destruct (n / 16 =? 0) eqn:E.
    + apply Z.eqb_eq in E.
      assert (n = n mod 16) as Hnn by (rewrite (Z.div_mod n 16) at 1; lia).
      cbn [String.length]. split; [lia|]. split; [lia|].
      rewrite Hacc. by rewrite <- Hnn.
    + assert (Hq : 0 <= n / 16 < 16 ^ Z.of_nat fuel).
      { rewrite Nat2Z.inj_succ, Z.pow_succ_r in Hn by lia.
        split; [apply Z.div_pos; lia|].
        apply Z.div_lt_upper_bound; lia. }
      destruct (IH (n / 16) (String (upper_digit (n mod 16)) acc) Hq)
        as (H1 & H2 & H3).
      cbn [String.length] in *. split; [lia|]. split.
      * intros _. destruct fuel.
        { cbn in Hq. apply Z.eqb_neq in E. lia. }
        specialize (H2 (Nat.neq_succ_0 _)). lia.
      * rewrite H3, Hacc, Nat2Z.inj_succ, Z.pow_succ_r by lia.
        rewrite (Z.div_mod n 16) at 3 by lia. lia.
Qed.

Lemma spaces_length n : String.length (spaces n) = n.
Proof. unfold spaces. induction n as [|n IH]; cbn; [done|]. by rewrite IH. Qed.

Lemma string_app_length (s t : string) :
  String.length (s ++ t) = (String.length s + String.length t)%nat.
Proof.
  induction s as [|c s IH]; [done|].
  change (String c s ++ t) with (String c (s ++ t)).
  cbn [String.length]. by rewrite IH.
Qed.

Lemma field_value_spaces n s : field_value (spaces n ++ s) = field_value s.
Proof.
  induction n as [|n IH]; [done|].
  change (spaces (S n) ++ s) with (String " "%char (spaces n ++ s)).
  rewrite field_value_String, IH. cbn. lia.
Qed.

Lemma Sprintf_16X_spec id :
  0 <= id < 2 ^ 64 ->
  String.length (Sprintf_16X id) = 16%nat /\ field_value (Sprintf_16X id) = id.
Proof.
  intros Hid. unfold Sprintf_16X, pad_left.
  destruct (upper_hex_spec 16 id "") as (H1 & H2 & H3).
  { change (16 ^ Z.of_nat 16) with (2 ^ 64). exact Hid. }
  cbn [String.length] in H1, H3.
  split.
  - rewrite string_app_length, spaces_length. lia.
  - rewrite field_value_spaces, H3. cbn. lia.
Qed.

(** X19.  [configID]: a non-empty ["id"] setting is the identifier as
    it is, and the hash is not consulted; otherwise the identifier is
    the hash written by [%16X], which for every value of a [uint64] has
    exactly 16 characters (spaces to the left of the digits, not
    zeros), stands for the hash, and so differs for different hashes.
    The error of either call is returned wrapped, with its own prefix,
    and is a cancellation when the cause is. *)
Theorem configID_identifier (unpacked : error + string) (hashed : error + Z) :
  (forall ID, unpacked = inr ID -> ID <> "" ->
     forall hashed', configID unpacked hashed' = inr ID)
  /\ (forall id, unpacked = inr "" -> hashed = inr id -> 0 <= id < 2 ^ 64 ->
        exists s, configID unpacked hashed = inr s
          /\ String.length s = 16%nat /\ field_value s = id
          /\ forall id', 0 <= id' < 2 ^ 64 ->
               configID unpacked (inr id') = inr s -> id' = id)
  /\ (forall err, configID unpacked hashed = inl err ->
        (exists e, unpacked = inl e
           /\ err = ErrWrap "error extracting ID: " e
           /\ Is_Canceled err = Is_Canceled e)
        \/ (exists e, unpacked = inr "" /\ hashed = inl e
              /\ err = ErrWrap "can not compute ID from configuration: " e
              /\ Is_Canceled err = Is_Canceled e))
  /\ Sprintf_16X 0 = "               0"
  /\ Sprintf_16X (2 ^ 64 - 1) = "FFFFFFFFFFFFFFFF".
Proof.
  split; [|split; [|split; [|split; reflexivity]]].
  - intros ID -> Hne hashed'. unfold configID.
    destruct (String.eqb_spec ID ""); [done|]. done.
  - intros id -> -> Hid. cbn. exists (Sprintf_16X id).
    destruct (Sprintf_16X_spec id Hid) as [Hl Hv].
    repeat split; try done.
    intros id' Hid' [= Heq].
    destruct (Sprintf_16X_spec id' Hid') as [_ Hv'].
    by rewrite <- Hv, <- Hv', Heq.
  - intros err. unfold configID. destruct unpacked as [e|ID].
    + intros [= <-]. left. by exists e.
    + destruct (String.eqb_spec ID "") as [->|Hne]; cbn; [|done].
      destruct hashed as [e|id]; [|done].
      intros [= <-]. right. by exists e.
Qed.

(** ** The ways [NewInput] ends *)

(** X20.  [NewInput] always reports [Starting] and [Configuring]
    first.  It returns an error exactly when it reports [Failed], which
    is then the last status, its message ending with the text of the
    error returned; otherwise it reports nothing more, logs that it is
    initialized, and its statuses are those of the initial state of the
    life cycle.  The error of [configID] comes back as [configID] wrapped
    it.  When [ConnectWith] fails, the goroutine that wraps the host's
    [Done] channel has already been started, and it is the only failure
    that leaves it behind; it goes on to report [Stopping] after
    [Failed] when the host closes the channel. *)
Theorem NewInput_outcomes (unpackErr : option error) (unpacked : error + string)
    (hashed : error + Z) (oldName : bool) (connectErr : option error) :
  let o := NewInput_outcome unpackErr unpacked hashed oldName connectErr in
  (exists rest, outStatus o = (rest ++ [(Configuring, ""); (Starting, "")])%list
     /\ (outErr o = None -> rest = [])
     /\ (forall err, outErr o = Some err ->
           exists prefix, rest = [(Failed, prefix ++ Error err)]))
  /\ (outErr o = None
      <-> unpackErr = None /\ connectErr = None
          /\ exists id, configID unpacked hashed = inr id)
  /\ (outErr o = None ->
      forall t0 sv programs,
        outStatus o = statusLog (world (NewInput t0 sv programs))
        /\ head (outLog o) = head (log (world (NewInput t0 sv programs))))
  /\ (unpackErr = None -> forall e, unpacked = inl e ->
        outErr o = Some (ErrWrap "error extracting ID: " e)
        /\ head (outStatus o)
           = Some (Failed, "failed to get input ID: error extracting ID: " ++ Error e))
  /\ (outGoroutine o = true /\ outErr o <> None
      <-> unpackErr = None /\ connectErr <> None
          /\ exists id, configID unpacked hashed = inr id)
  /\ (outGoroutine o = true ->
      forall cfg s, statusLog (world s) = outStatus o -> parent s = P_Select ->
        exists s', exec cfg [LParent; LParent] s = Some s'
          /\ statusLog (world s') = (Stopping, "") :: outStatus o).
Proof.
  intros o. subst o. unfold NewInput_outcome.
  destruct unpackErr as [ue|].
  { cbn. split; [|split; [|split; [|split; [|split]]]]; try done.
    - exists [(Failed, "failed to configure input: " ++ Error ue)].
      split; [done|]. split; [done|]. intros err [= <-]. by eexists.
    - split; [done|]. by intros (? & _).
    - split; [by intros [? ?]|]. by intros (? & _). }
  destruct (configID unpacked hashed) as [ie|id] eqn:Eid.
  { cbn. split; [|split; [|split; [|split; [|split]]]]; try done.
    - exists [(Failed, "failed to get input ID: " ++ Error ie)].
      split; [done|]. split; [done|]. intros err [= <-]. by eexists.
    - split; [done|]. by intros (_ & _ & ? & ?).
    - intros _ e ->. cbn in Eid. by simplify_eq.
    - split; [by intros [? ?]|]. by intros (_ & _ & ? & ?). }
  destruct connectErr as [ce|]; cbn.
  - split; [|split; [|split; [|split; [|split]]]]; try done.
    + exists [(Failed, "failed to configure Elasticsearch connection: " ++ Error ce)].
      split; [done|]. split; [done|]. intros err [= <-]. by eexists.
    + split; [done|]. by intros (_ & ? & _).
    + intros _ e ->. done.
    + split; [|done]. intros _. split; [done|]. split; [done|]. by exists id.
    + intros _ cfg s Hs Hp. cbn [exec step]. unfold parent_step. rewrite Hp.
      cbn. eexists. split; [reflexivity|]. cbn. by rewrite Hs.
  - split; [|split; [|split; [|split; [|split]]]]; try done.
    + exists []. split; [done|]. split; [done|]. done.
    + split; [|done]. intros _. split; [done|]. split; [done|]. by exists id.
    + intros _ e ->. done.
    + split; [by intros [_ ?]|]. by intros (_ & ? & _).
    + intros _ cfg s Hs Hp. cbn [exec step]. unfold parent_step. rewrite Hp.
      cbn. eexists. split; [reflexivity|]. cbn. by rewrite Hs.
Qed.
